(** * A Lisp interpreter in Python: parser and evaluator

    Shallow embedding of [parser.py] (class [Parser]), [env.py] (class
    [Environment]) and [interpreter.py] (class [Interpreter]), and the
    properties of the three.

    - Python objects are modelled by the type [value]; a Python [str] is
      a Rocq [string] whose characters are the code points below 256.
    - Exceptions are values of type [exn]; every operation that can raise
      returns an [outcome].  Nothing in the code catches an exception, so
      a raise ends the evaluation, and the store is the one at the raise.
    - The [Environment] objects of a session live in a heap of variable
      dictionaries.  The function table is one dictionary: the constructor
      of the first environment makes it, with its methods bound to that
      environment, and every environment made for a call shares it.
    - Recursion is bounded by a budget.  The results of the parser and of
      the evaluator do not depend on the budget once it suffices; the
      parser returns on every text.
    - Floating point appears inside [sqrt] only, which converts its
      argument to a double, takes [math.sqrt] and truncates: the three are
      modelled with the standard library's IEEE 754 specification.  What
      would return a floating-point or complex value ([pow] with a negative
      exponent on an integer, or with an exponent that is not integral) or
      parse a string into a [Fraction] is outside the embedding: the
      outcome is [Beyond].
    - The loop of [interpreter.py] is a function of the lines that [input]
      returns, to the replies that are printed and written to the result
      file; the file and the terminal themselves are not modelled.
    - Limits of the machine (memory, the interpreter's recursion limit and
      its limit on the digits of an integer literal) are not modelled. *)

From Stdlib Require Import ZArith Ascii String Floats.SpecFloat.
From stdpp Require Import base option list strings gmap pretty.

Local Open Scope string_scope.
Local Open Scope Z_scope.
Local Open Scope list_scope.

(** ** Python objects *)

(** The objects the interpreter manipulates: [int], [fractions.Fraction]
    (always in lowest terms, positive denominator), [bool], [None], [str]
    and [list].  Expressions produced by the parser use [VInt], [VStr] and
    [VList] only. *)
#[warnings="-register-all"]
Inductive value : Type :=
  | VInt (z : Z)
  | VFrac (n : Z) (d : positive)
  | VBool (b : bool)
  | VNone
  | VStr (s : string)
  | VList (l : list value).

Inductive exn_class : Type :=
  | SyntaxError | NameError | TypeError | OverflowError | ZeroDivisionError
  | ValueError | IndexError | KeyError.

(** An exception: its class and its message.  Messages of exceptions
    raised by the repository's own [raise] statements are the source's;
    messages of exceptions raised by the Python runtime are short labels. *)
Inductive exn : Type := Exn (c : exn_class) (msg : string).

Definition class_of (e : exn) : exn_class := let 'Exn c _ := e in c.

(** The result of running a piece of the program. [OutOfFuel] is the
    model running out of recursion budget; [Beyond] marks a computation
    that leaves the embedded fragment (floating point or complex results,
    [Fraction] built from a string). *)
Inductive outcome (A : Type) : Type :=
  | Ret (a : A)
  | Raise (e : exn)
  | OutOfFuel
  | Beyond (what : string).
Arguments Ret {A} a.
Arguments Raise {A} e.
Arguments OutOfFuel {A}.
Arguments Beyond {A} what.

Global Instance outcome_ret : MRet outcome := @Ret.
Global Instance outcome_bind : MBind outcome := λ A B f x,
  match x with
  | Ret a => f a
  | Raise e => Raise e
  | OutOfFuel => OutOfFuel
  | Beyond w => Beyond w
  end.

Global Instance outcome_fmap : FMap outcome := λ A B f x, a ← x; Ret (f a).

Global Instance exn_class_eq_dec : EqDecision exn_class.
Proof. solve_decision. Defined.
Global Instance exn_eq_dec : EqDecision exn.
Proof. solve_decision. Defined.

(** ** Numbers *)

(** [int] and [bool] on one side, [Fraction] on the other. *)
Inductive number : Type :=
  | NInt (z : Z)
  | NFrac (n : Z) (d : positive).

Definition as_number (v : value) : option number :=
  match v with
  | VInt z => Some (NInt z)
  | VBool b => Some (NInt (Z.b2z b))
  | VFrac n d => Some (NFrac n d)
  | _ => None
  end.

Definition of_number (x : number) : value :=
  match x with
  | NInt z => VInt z
  | NFrac n d => VFrac n d
  end.

Definition numerator (x : number) : Z :=
  match x with NInt z => z | NFrac n _ => n end.
Definition denominator (x : number) : Z :=
  match x with NInt _ => 1 | NFrac _ d => Z.pos d end.

(** [Fraction(n, d)] for integers [n] and [d <> 0]: lowest terms, the sign
    carried by the numerator. *)
Definition Fraction (n d : Z) : number :=
  let g := Z.gcd n d in
  let g := if d <? 0 then - g else g in
  NFrac (n / g) (Z.to_pos (d / g)).

Definition num_binop (f : Z → Z → Z) (g : Z → Z → Z → Z → Z) (x y : number) : number :=
  match x, y with
  | NInt a, NInt b => NInt (f a b)
  | _, _ =>
      Fraction (g (numerator x) (denominator x) (numerator y) (denominator y))
               (denominator x * denominator y)
  end.

Definition num_add : number → number → number :=
  num_binop Z.add (λ na da nb db, na * db + nb * da).
Definition num_sub : number → number → number :=
  num_binop Z.sub (λ na da nb db, na * db - nb * da).
Definition num_mul : number → number → number :=
  num_binop Z.mul (λ na da nb db, na * nb).

Definition num_ltb (x y : number) : bool :=
  numerator x * denominator y <? numerator y * denominator x.
Definition num_eqb (x y : number) : bool :=
  numerator x * denominator y =? numerator y * denominator x.
Definition num_compare (x y : number) : comparison :=
  numerator x * denominator y ?= numerator y * denominator x.

(** ** [str], [repr], [==], ordering, truth *)

Definition code (c : ascii) : N := N_of_ascii c.

Definition hex_digit (n : N) : ascii :=
  ascii_of_N (if (n <? 10)%N then 48 + n else 87 + n).
Definition hex2 (n : N) : string :=
  String (hex_digit (n / 16)) (String (hex_digit (n mod 16)) "").

Definition printable (n : N) : bool :=
  ((32 <=? n) && (n <? 127) || (161 <=? n) && negb (n =? 173))%N.

Definition contains (c : ascii) (s : string) : bool :=
  existsb (Ascii.eqb c) (list_ascii_of_string s).

Definition dquote : ascii := ascii_of_N 34.

Definition repr_char (q c : ascii) : string :=
  if Ascii.eqb c q || Ascii.eqb c "\"%char then String "\"%char (String c "")
  else if (code c =? 9)%N then "\t"
  else if (code c =? 10)%N then "\n"
  else if (code c =? 13)%N then "\r"
  else if printable (code c) then String c ""
  else "\x" +:+ hex2 (code c).

Fixpoint repr_chars (q : ascii) (s : string) : string :=
  match s with
  | "" => ""
  | String c s' => repr_char q c +:+ repr_chars q s'
  end.

Definition repr_str (s : string) : string :=
  let q := if contains "'"%char s && negb (contains dquote s)
           then dquote else "'"%char in
  String q (repr_chars q s) +:+ String q "".

Fixpoint join (sep : string) (l : list string) : string :=
  match l with
  | [] => ""
  | [x] => x
  | x :: l' => x +:+ sep +:+ join sep l'
  end.

Fixpoint py_repr (v : value) : string :=
  match v with
  | VInt z => pretty z
  | VFrac n d => "Fraction(" +:+ pretty n +:+ ", " +:+ pretty (Z.pos d) +:+ ")"
  | VBool b => if b then "True" else "False"
  | VNone => "None"
  | VStr s => repr_str s
  | VList l => "[" +:+ join ", " (map py_repr l) +:+ "]"
  end.

Definition py_str (v : value) : string :=
  match v with
  | VStr s => s
  | VFrac n d =>
      if (d =? 1)%positive then pretty n else pretty n +:+ "/" +:+ pretty (Z.pos d)
  | _ => py_repr v
  end.

(** [a == b] *)
Fixpoint py_eq (a b : value) : bool :=
  match a, b with
  | VStr s, VStr t => String.eqb s t
  | VNone, VNone => true
  | VList l, VList m =>
      (fix go (l m : list value) : bool :=
         match l, m with
         | [], [] => true
         | x :: l', y :: m' => py_eq x y && go l' m'
         | _, _ => false
         end) l m
  | _, _ =>
      match as_number a, as_number b with
      | Some x, Some y => num_eqb x y
      | _, _ => false
      end
  end.

Fixpoint string_compare (s t : string) : comparison :=
  match s, t with
  | "", "" => Eq
  | "", String _ _ => Lt
  | String _ _, "" => Gt
  | String c s', String d t' =>
      match (code c ?= code d)%N with
      | Eq => string_compare s' t'
      | r => r
      end
  end.

Definition unorderable : exn := Exn TypeError "'<' or '>' not supported between these types".

(** Three-way comparison behind [a < b] and [a > b]: numbers by value,
    strings by code point, lists by their first differing elements. *)
Fixpoint py_compare (a b : value) : outcome comparison :=
  match a, b with
  | VStr s, VStr t => Ret (string_compare s t)
  | VList l, VList m =>
      (fix go (l m : list value) : outcome comparison :=
         match l, m with
         | [], [] => Ret Eq
         | [], _ :: _ => Ret Lt
         | _ :: _, [] => Ret Gt
         | x :: l', y :: m' => if py_eq x y then go l' m' else py_compare x y
         end) l m
  | _, _ =>
      match as_number a, as_number b with
      | Some x, Some y => Ret (num_compare x y)
      | _, _ => Raise unorderable
      end
  end.

Definition py_lt (a b : value) : outcome bool :=
  c ← py_compare a b; Ret (match c with Lt => true | _ => false end).
Definition py_gt (a b : value) : outcome bool :=
  c ← py_compare a b; Ret (match c with Gt => true | _ => false end).

(** Truth value of an object ([bool(a)]). *)
Definition truthy (v : value) : bool :=
  match v with
  | VInt z => negb (z =? 0)
  | VFrac n _ => negb (n =? 0)
  | VBool b => b
  | VNone => false
  | VStr s => negb (String.eqb s "")
  | VList l => match l with [] => false | _ => true end
  end.

(** Iteration ([zip] iterates its arguments): a list yields its elements,
    a string its characters. *)
Definition py_iter (v : value) : outcome (list value) :=
  match v with
  | VList l => Ret l
  | VStr s => Ret (map (λ c, VStr (String c "")) (list_ascii_of_string s))
  | _ => Raise (Exn TypeError "object is not iterable")
  end.

Definition uncons (l : list value) : option (value * list value) :=
  match l with [] => None | x :: l' => Some (x, l') end.

Fixpoint zip_rows (n : nat) (ls : list (list value)) : list (list value) :=
  match n with
  | O => []
  | S n' =>
      match mapM uncons ls with
      | Some hts => map fst hts :: zip_rows n' (map snd hts)
      | None => []
      end
  end.

(** The rows of [zip] applied to the lists [ls]: up to the shortest
    argument, none for no argument. *)
Definition py_zip (ls : list (list value)) : list (list value) :=
  zip_rows (match ls with [] => O | l :: _ => length l end) ls.

(** ** Floating point, as far as [math.sqrt] needs it *)

(** IEEE 754 binary64, through the standard library's [SpecFloat]. *)
Definition float : Type := spec_float.

(** [float(z)] for an integer: round to nearest even; an integer that
    rounds beyond the largest finite double raises. *)
Definition float_of_int (z : Z) : outcome float :=
  match binary_normalize 53 1024 z 0 false with
  | S754_finite s m e => Ret (S754_finite s m e)
  | S754_zero s => Ret (S754_zero s)
  | _ => Raise (Exn OverflowError "int too large to convert to float")
  end.

(** [int(f)]: truncation towards zero. *)
Definition int_of_float (f : float) : outcome Z :=
  match f with
  | S754_zero _ => Ret 0
  | S754_finite s m e =>
      let a := if 0 <=? e then Z.pos m * 2 ^ e else Z.pos m / 2 ^ (- e) in
      Ret (if s then - a else a)
  | S754_infinity _ => Raise (Exn OverflowError "cannot convert float infinity to integer")
  | S754_nan => Raise (Exn ValueError "cannot convert float NaN to integer")
  end.

Definition math_sqrt (f : float) : float := SFsqrt 53 1024 f.

(** [n / d], the true division of two integers, for a positive [d]: the
    quotient rounded to nearest even; a quotient that rounds beyond the
    largest finite double raises. *)
Definition true_divide (n : Z) (d : positive) : outcome float :=
  let quotient :=
    match n with
    | 0 => S754_zero false
    | Z.pos m => SFdiv 53 1024 (S754_finite false m 0) (S754_finite false d 0)
    | Z.neg m => SFdiv 53 1024 (S754_finite true m 0) (S754_finite false d 0)
    end in
  match quotient with
  | S754_finite s m e => Ret (S754_finite s m e)
  | S754_zero s => Ret (S754_zero s)
  | _ => Raise (Exn OverflowError "integer division result too large for a float")
  end.

(** ** Dictionaries *)

(** Keys of a Python dictionary: hashable objects up to [==].  [1], [True]
    and [Fraction(1, 1)] are one key. *)
Inductive key : Type :=
  | KStr (s : string)
  | KNum (n : Z) (d : positive)
  | KNone.

Global Instance key_eq_dec : EqDecision key.
Proof. solve_decision. Defined.

Global Instance key_countable : Countable key.
Proof.
  refine (inj_countable'
    (λ k, match k with
          | KStr s => inl s
          | KNum n d => inr (inl (n, d))
          | KNone => inr (inr ())
          end)
    (λ x, match x with
          | inl s => KStr s
          | inr (inl (n, d)) => KNum n d
          | inr (inr _) => KNone
          end) _).
  by intros [].
Defined.

(** [hash(v)], or nothing for a list, which is unhashable. *)
Definition hashable (v : value) : option key :=
  match v with
  | VInt z => Some (KNum z 1)
  | VBool b => Some (KNum (Z.b2z b) 1)
  | VFrac n d => Some (KNum n d)
  | VNone => Some KNone
  | VStr s => Some (KStr s)
  | VList _ => None
  end.

Definition unhashable : exn := Exn TypeError "unhashable type: 'list'".

(** ** The environment ([env.py]) *)

Module Environment.

(** The methods of [Environment] that [__init__] enters in the function table. *)
Inductive method : Type :=
  | Add | Subtract | Multiply | Divide
  | Greater_than | Less_than | Equals | Not_equal
  | And_operator | Or_operator | Not_operator
  | Car | Cdr | Cons | Sqrt | Power
  | Define | If_cond | Set_ | Defun | Mapcar.

(** Address of an [Environment] object in the heap. *)
Definition addr : Type := nat.
Bind Scope nat_scope with addr.

(** What a function table holds: a method bound to the environment whose
    constructor made the table, or a closure [user_function] made by
    [defun], which captures [self] (by reference), [name], [params] and
    [body]. *)
Inductive function : Type :=
  | BoundMethod (self : addr) (m : method)
  | UserFunction (self : addr) (name : string) (params : list value) (body : value).

(** The heap: [variables st !! a] is the dictionary [variables] of the
    environment at address [a]; [functions st] is the dictionary
    [functions], one object shared by every environment of the session
    ([local_env.functions = self.functions]). *)
Record store : Type := Store {
  variables : list (gmap key value);
  functions : gmap string function
}.

Definition vars (st : store) (self : addr) : gmap key value :=
  default ∅ (variables st !! self).

(** Computations on the heap.  The store that comes with a [Raise] is the
    store at the moment of the raise. *)
Definition M (A : Type) : Type := store → outcome A * store.

Global Instance M_ret : MRet M := λ A a st, (Ret a, st).
Global Instance M_bind : MBind M := λ A B f m st,
  match m st with
  | (Ret a, st') => f a st'
  | (Raise e, st') => (Raise e, st')
  | (OutOfFuel, st') => (OutOfFuel, st')
  | (Beyond w, st') => (Beyond w, st')
  end.

Definition lift {A} (o : outcome A) : M A := λ st, (o, st).
Definition raise {A} (c : exn_class) (msg : string) : M A := lift (Raise (Exn c msg)).

Fixpoint for_each {A B} (f : A → M B) (l : list A) : M (list B) :=
  match l with
  | [] => mret []
  | x :: l' => y ← f x; ys ← for_each f l'; mret (y :: ys)
  end.

(** *** Arithmetic *)

Definition INT_MIN : Z := -2147483648.
Definition INT_MAX : Z := 2147483647.

Definition check_32bit (v : value) : outcome value :=
  match as_number v with
  | Some x =>
      if num_ltb x (NInt INT_MIN) || num_ltb (NInt INT_MAX) x
      then Raise (Exn OverflowError ("Integer overflow: " +:+ py_str v))
      else Ret v
  | None => Raise unorderable
  end.

Definition unsupported : exn := Exn TypeError "unsupported operand type(s)".

(** [sum(args)], started at the integer 0. *)
Fixpoint py_sum (acc : number) (args : list value) : outcome number :=
  match args with
  | [] => Ret acc
  | a :: args' =>
      match as_number a with
      | Some y => py_sum (num_add acc y) args'
      | None => Raise unsupported
      end
  end.

Definition add (args : list value) : outcome value :=
  result ← py_sum (NInt 0) args;
  check_32bit (of_number result).

Definition subtract (a b : value) : outcome value :=
  match as_number a, as_number b with
  | Some x, Some y => check_32bit (of_number (num_sub x y))
  | _, _ => Raise unsupported
  end.

(** The loop of [multiply].  An integer times a string or a list is a
    repeated sequence, which [check_32bit] then refuses to compare (the
    memory the repetition takes is not modelled). *)
Fixpoint multiply_loop (result : number) (args : list value) : outcome value :=
  match args with
  | [] => Ret (of_number result)
  | arg :: args' =>
      match as_number arg with
      | Some y =>
          let result := num_mul result y in
          _ ← check_32bit (of_number result);
          multiply_loop result args'
      | None =>
          match result, arg with
          | NInt _, (VStr _ | VList _) => Raise unorderable
          | _, _ => Raise unsupported
          end
      end
  end.

Definition multiply (args : list value) : outcome value :=
  multiply_loop (NInt 1) args.

Definition divide (a b : value) : outcome value :=
  if py_eq b (VInt 0) then
    Raise (Exn ZeroDivisionError "Division by zero is not allowed")
  else
    match b with
    | VNone =>
        match a with
        | VStr _ => Beyond "Fraction(str)"
        | _ =>
            match as_number a with
            | Some x => check_32bit (VFrac (numerator x) (Z.to_pos (denominator x)))
            | None => Raise (Exn TypeError "argument should be a string or a Rational instance")
            end
        end
    | _ =>
        match as_number a, as_number b with
        | Some x, Some y =>
            check_32bit (of_number (Fraction (numerator x * denominator y)
                                             (denominator x * numerator y)))
        | _, _ => Raise (Exn TypeError "both arguments should be Rational instances")
        end
    end.

(** [float(a)] as [math.sqrt] obtains it.  A [Fraction] is converted by
    the true division of its numerator by its denominator. *)
Definition to_float (a : value) : outcome float :=
  match as_number a with
  | Some (NInt z) => float_of_int z
  | Some (NFrac n d) => true_divide n d
  | None => Raise (Exn TypeError "must be real number")
  end.

Definition sqrt (a : value) : outcome value :=
  negative ← py_lt a (VInt 0);
  if (negative : bool) then
    Raise (Exn ValueError "Cannot compute square root of a negative number")
  else
    x ← to_float a;
    result ← int_of_float (math_sqrt x);
    check_32bit (VInt result).

(** [a ** b] for integers.  For a negative [b] and an [a] other than 0
    Python returns a float, which the C library's [pow] computes: outside
    the embedding. *)
Definition int_pow (a b : Z) : outcome number :=
  if 0 <=? b then Ret (NInt (a ^ b))
  else if a =? 0 then Raise (Exn ZeroDivisionError "zero to a negative power")
  else Beyond "float".

(** [Fraction(n, d) ** p] for an integer [p]. *)
Definition frac_pow (n : Z) (d : positive) (p : Z) : outcome number :=
  if 0 <=? p then Ret (NFrac (n ^ p) (Z.to_pos (Z.pos d ^ p)))
  else if 0 <? n then Ret (NFrac (Z.pos d ^ (- p)) (Z.to_pos (n ^ (- p))))
  else if n =? 0 then Raise (Exn ZeroDivisionError "Fraction(1, 0)")
  else Ret (NFrac ((- Z.pos d) ^ (- p)) (Z.to_pos ((- n) ^ (- p)))).

(** [a ** b] on numbers.  A [Fraction] exponent of denominator 1 is
    taken as its numerator; with any other [Fraction] exponent Python
    returns a float or a complex number: outside the embedding. *)
Definition py_pow (a b : value) : outcome number :=
  match as_number a, as_number b with
  | Some (NInt x), Some (NInt y) => int_pow x y
  | Some (NFrac n d), Some (NInt y) => frac_pow n d y
  | Some (NInt x), Some (NFrac m e) =>
      if (e =? 1)%positive then
        if 0 <=? m then int_pow x m else frac_pow x 1 m
      else Beyond "float"
  | Some (NFrac n d), Some (NFrac m e) =>
      if (e =? 1)%positive then frac_pow n d m else Beyond "float"
  | _, _ => Raise unsupported
  end.

Definition power (a b : value) : outcome value :=
  result ← py_pow a b;
  check_32bit (of_number result).

(** *** Comparison, logic, lists *)

Definition greater_than (a b : value) : outcome value := VBool <$> py_gt a b.
Definition less_than (a b : value) : outcome value := VBool <$> py_lt a b.
Definition equals (a b : value) : value := VBool (py_eq a b).
Definition not_equal (a b : value) : value := VBool (negb (py_eq a b)).

Definition and_operator (a b : value) : value := if truthy a then b else a.
Definition or_operator (a b : value) : value := if truthy a then a else b.
Definition not_operator (a : value) : value := VBool (negb (truthy a)).

Definition car (a : value) : value :=
  match a with
  | VList [] => VNone
  | VList (x :: _) => x
  | _ => a
  end.

Definition cdr (a : value) : outcome value :=
  match a with
  | VList [] => Ret VNone
  | VList (_ :: l) => Ret (VList l)
  | _ => Raise (Exn SyntaxError "Argument for cdr is not a list")
  end.

Definition cons (a b : value) : value :=
  let a := if py_eq a (VList []) then VNone else a in
  let b := if py_eq b (VList []) then VNone else b in
  match a, b with
  | VNone, VNone => VNone
  | _, VList l => VList (a :: l)
  | _, _ => VList [a; VStr "."; b]
  end.

Definition if_cond (condition conseq alt : value) : value :=
  match condition with
  | VBool true => conseq
  | _ => alt
  end.

(** *** Environment and state management *)

Definition set_variable (self : addr) (k : key) (v : value) (st : store) : store :=
  Store (alter (insert k v) self (variables st)) (functions st).

Definition set_function (name : string) (f : function) (st : store) : store :=
  Store (variables st) (<[name := f]> (functions st)).

Definition define (self : addr) (var_name v : value) : M value :=
  match var_name with
  | VStr s => λ st, (Ret var_name, set_variable self (KStr s) v st)
  | _ => raise TypeError "Variable name must be a string"
  end.

Definition set (self : addr) (var_name v : value) : M value :=
  match var_name with
  | VStr s => λ st,
      match vars st self !! KStr s with
      | Some _ => (Ret var_name, set_variable self (KStr s) v st)
      | None => (Raise (Exn NameError ("Variable '" +:+ s +:+ "' is not defined")), st)
      end
  | _ => raise SyntaxError ("set! requires a variable name, got " +:+ py_str var_name)
  end.

Definition defun (self : addr) (name params body : value) : M value :=
  match name with
  | VStr s =>
      match params with
      | VList ps => λ st, (Ret name, set_function s (UserFunction self s ps body) st)
      | _ => raise SyntaxError "Function parameters must be a list"
      end
  | _ => raise SyntaxError "Function name must be a symbol"
  end.

(** [local_env = Environment(); local_env.variables = self.variables.copy()]:
    a new environment at the next free address, holding a copy of the
    variables of [self]. *)
Definition new_local_env (self : addr) : M addr := λ st,
  (Ret (length (variables st)), Store (variables st ++ [vars st self]) (functions st)).

(** [local_env.variables[param] = arg] *)
Definition bind_param (local_env : addr) (pa : value * value) : M unit :=
  match hashable pa.1 with
  | Some k => λ st, (Ret (), set_variable local_env k pa.2 st)
  | None => lift (Raise unhashable)
  end.

(** [self.functions[func]] *)
Definition lookup_function (func : value) : M function := λ st,
  match func with
  | VStr s =>
      match functions st !! s with
      | Some f => (Ret f, st)
      | None => (Raise (Exn KeyError (repr_str s)), st)
      end
  | VList _ => (Raise unhashable, st)
  | _ => (Raise (Exn KeyError (py_repr func)), st)
  end.

Definition is_list (v : value) : bool :=
  match v with VList _ => true | _ => false end.

Definition arity : exn := Exn TypeError "missing or unexpected positional arguments".

Section Dispatch.
(** The recursive calls: [self.evaluate_expression(e)] and the call of
    an entry of the function table on a list of arguments. *)
Variable evaluate_expression : addr → value → M value.
Variable call : function → list value → M value.

Definition mapcar (self : addr) (func : value) (lists : list value) : M value :=
  rows ← lift (mapM py_iter lists);
  let zipped_list := py_zip rows in
  results ← for_each (λ values, f ← lookup_function func; call f values) zipped_list;
  mret (VList results).

(** The closure [user_function] that [defun] builds, applied to [args]. *)
Definition user_function (self : addr) (name : string) (params : list value)
    (body : value) (args : list value) : M value :=
  if negb (length args =? length params)%nat then
    raise TypeError ("Function '" +:+ name +:+ "' expects " +:+ pretty (length params)
                     +:+ " arguments, got " +:+ pretty (length args))
  else
    local_env ← new_local_env self;
    _ ← for_each (bind_param local_env) (zip params args);
    evaluate_expression local_env body.

(** A bound method applied to [args]; a wrong number of arguments is
    the runtime's [TypeError]. *)
Definition call_method (self : addr) (m : method) (args : list value) : M value :=
  match m, args with
  | Add, _ => lift (add args)
  | Subtract, [a; b] => lift (subtract a b)
  | Multiply, _ => lift (multiply args)
  | Divide, [a; b] => lift (divide a b)
  | Greater_than, [a; b] => lift (greater_than a b)
  | Less_than, [a; b] => lift (less_than a b)
  | Equals, [a; b] => mret (equals a b)
  | Not_equal, [a; b] => mret (not_equal a b)
  | And_operator, [a; b] => mret (and_operator a b)
  | Or_operator, [a; b] => mret (or_operator a b)
  | Not_operator, [a] => mret (not_operator a)
  | Car, [a] => mret (car a)
  | Cdr, [a] => lift (cdr a)
  | Cons, [a; b] => mret (cons a b)
  | Sqrt, [a] => lift (sqrt a)
  | Power, [a; b] => lift (power a b)
  | Define, [var_name; v] => define self var_name v
  | If_cond, [condition; conseq; alt] => mret (if_cond condition conseq alt)
  | Set_, [var_name; v] => set self var_name v
  | Defun, [name; params; body] => defun self name params body
  | Mapcar, func :: lists => mapcar self func lists
  | _, _ => lift (Raise arity)
  end.

Definition evaluate_function_call (self : addr) (operator : string)
    (operands : list value) : M value := λ st,
  match functions st !! operator with
  | None => (Raise (Exn NameError ("Unknown function: " +:+ operator)), st)
  | Some _ =>
      (if String.eqb operator "set!" then
         match operands with
         | [var_name; e] => v ← evaluate_expression self e; set self var_name v
         | _ => raise SyntaxError "set! requires exactly 2 arguments"
         end
       else if String.eqb operator "defun" then
         f ← lookup_function (VStr operator); call f operands
       else if String.eqb operator "mapcar" then
         match operands with
         | func_e :: (_ :: _) as list_es =>
             func ← evaluate_expression self func_e;
             lists ← for_each (evaluate_expression self) list_es;
             if forallb is_list lists then mapcar self func lists
             else raise TypeError "mapcar requires all arguments after the function to be lists"
         | _ => raise SyntaxError "mapcar requires at least one function and one list argument"
         end
       else
         evaluated_operands ← for_each (evaluate_expression self) operands;
         f ← lookup_function (VStr operator); call f evaluated_operands) st
  end.
End Dispatch.

(** [self.evaluate_expression(expression)] and the call of a function
    table entry, by recursion on a budget of nested calls. *)
Fixpoint evaluate_expression (fuel : nat) (self : addr) (expression : value)
    {struct fuel} : M value :=
  match fuel with
  | O => lift OutOfFuel
  | S fuel' =>
      match expression with
      | VList [] => raise IndexError "list index out of range"
      | VList (head :: operands) => λ st,
          let element := py_str head in
          match vars st self !! KStr element with
          | Some v => (Ret v, st)
          | None =>
              if String.eqb element "quote" then
                match operands with
                | [quoted] => (Ret quoted, st)
                | _ => (Raise (Exn SyntaxError "Malformed quote expression"), st)
                end
              else
                match head with
                | VStr operator =>
                    evaluate_function_call (evaluate_expression fuel') (call fuel')
                      self operator operands st
                | _ =>
                    (Raise (Exn SyntaxError ("Invalid function call: " +:+ py_str expression)), st)
                end
          end
      | _ => λ st,
          match hashable expression with
          | Some k =>
              match vars st self !! k with
              | Some v => (Ret v, st)
              | None => (Ret expression, st)
              end
          | None => (Ret expression, st)
          end
      end
  end
with call (fuel : nat) (f : function) (args : list value) {struct fuel} : M value :=
  match fuel with
  | O => lift OutOfFuel
  | S fuel' =>
      match f with
      | BoundMethod self m =>
          call_method (call fuel') self m args
      | UserFunction self name params body =>
          user_function (evaluate_expression fuel') self name params body args
      end
  end.

(** [Environment()]: the variables [T] and [NIL] and the table of methods
    bound to the new environment, here the first object of the heap. *)
Definition builtins (self : addr) : gmap string function :=
  list_to_map
    (map (λ p : string * method, (p.1, BoundMethod self p.2))
       [("+", Add); ("-", Subtract); ("*", Multiply); ("/", Divide);
        (">", Greater_than); ("<", Less_than); ("=", Equals); ("!=", Not_equal);
        ("and", And_operator); ("or", Or_operator); ("not", Not_operator);
        ("car", Car); ("cdr", Cdr); ("cons", Cons); ("sqrt", Sqrt); ("pow", Power);
        ("define", Define); ("if", If_cond); ("set!", Set_); ("defun", Defun);
        ("mapcar", Mapcar)]).

Definition init : store :=
  Store [ <[KStr "T" := VBool true]> (<[KStr "NIL" := VNone]> ∅) ] (builtins O).

End Environment.

Bind Scope nat_scope with Environment.addr.

(** ** The parser ([parser.py]) *)

Module Parser.

(** *** Strings *)

(** [c.isspace()], which is also the [\s] of the tokenizer's pattern. *)
Definition isspace (c : ascii) : bool :=
  let n := code c in
  ((9 <=? n) && (n <=? 13) || (28 <=? n) && (n <=? 32) || (n =? 133) || (n =? 160))%N.

(** A digit for [str.isdigit]: the decimal digits and the superscripts
    one, two and three. *)
Definition isdigit_char (c : ascii) : bool :=
  let n := code c in
  ((48 <=? n) && (n <=? 57) || (n =? 178) || (n =? 179) || (n =? 185))%N.

Definition isdigit (s : string) : bool :=
  match s with
  | "" => false
  | _ => forallb isdigit_char (list_ascii_of_string s)
  end.

Fixpoint lstrip (s : string) : string :=
  match s with
  | String c s' => if isspace c then lstrip s' else s
  | "" => ""
  end.

(** Drops trailing white space. *)
Fixpoint rstrip (s : string) : string :=
  match s with
  | String c s' =>
      match rstrip s' with
      | "" => if isspace c then "" else String c ""
      | r => String c r
      end
  | "" => ""
  end.

Definition strip (s : string) : string := rstrip (lstrip s).

Definition startswith (c : ascii) (s : string) : bool :=
  match s with String d _ => Ascii.eqb d c | "" => false end.

Fixpoint endswith (c : ascii) (s : string) : bool :=
  match s with
  | "" => false
  | String d "" => Ascii.eqb d c
  | String _ s' => endswith c s'
  end.

(** [s[1:]] *)
Definition tail (s : string) : string :=
  match s with String _ s' => s' | "" => "" end.

(** [int(s)] on a string that [is_number] accepted: an optional minus
    sign and decimal digits; a superscript digit is not a decimal.  (The
    limit that recent interpreters put on the number of digits of such a
    conversion is not modelled.) *)
Fixpoint decimal (acc : Z) (s : string) : outcome Z :=
  match s with
  | "" => Ret acc
  | String c s' =>
      let n := code c in
      if ((48 <=? n) && (n <=? 57))%N then decimal (10 * acc + (Z.of_N n - 48)) s'
      else Raise (Exn ValueError "invalid literal for int() with base 10")
  end.

Definition py_int (s : string) : outcome Z :=
  match s with
  | String "-" s' => z ← decimal 0 s'; Ret (- z)
  | _ => decimal 0 s
  end.

(** *** Methods of [Parser] *)

Definition is_number (expression : string) : outcome bool :=
  match expression with
  | "" => Raise (Exn IndexError "string index out of range")
  | String c rest => Ret (Ascii.eqb c "-" && isdigit rest || isdigit expression)
  end.

Definition is_list (expression : string) : bool :=
  startswith "(" expression && endswith ")" expression.

Definition flush (run : string) : list string :=
  match run with "" => [] | _ => [run] end.

(** [re.findall] with the pattern of [tokenize]: a parenthesis is a
    token, white space is skipped, any other character extends the
    current run [run]. *)
Fixpoint scan (run : string) (s : string) : list string :=
  match s with
  | "" => flush run
  | String c s' =>
      if Ascii.eqb c "(" || Ascii.eqb c ")" then flush run ++ String c "" :: scan "" s'
      else if isspace c then flush run ++ scan "" s'
      else scan (run +:+ String c "") s'
  end.

Definition tokenize (tokens_str : string) : list string := scan "" tokens_str.

(** The loop of [extract_sublist]: the extracted tokens and the tokens
    left in the caller's list. *)
Fixpoint extract_loop (depth : nat) (sub_expr tokens : list string)
    : outcome (list string * list string) :=
  match tokens with
  | [] => Raise (Exn SyntaxError "Unmatched opening parenthesis")
  | token :: tokens' =>
      if String.eqb token "(" then extract_loop (S depth) (sub_expr ++ [token]) tokens'
      else if String.eqb token ")" then
        match depth with
        | 1%nat => Ret (sub_expr, tokens')
        | _ => extract_loop (pred depth) (sub_expr ++ [token]) tokens'
        end
      else extract_loop depth (sub_expr ++ [token]) tokens'
  end.

Definition extract_sublist (tokens : list string) : outcome (list string * list string) :=
  extract_loop 1 [] tokens.

(** [tokens[1:-1]] *)
Definition middle (tokens : list string) : list string :=
  removelast (List.tl tokens).

Definition quote (quoted_expr : value) : value := VList [VStr "quote"; quoted_expr].

Section Descent.
(** The recursive calls. *)
Variable parse_expression : string → outcome value.
Variable parse_list : list string → outcome (list value).

(** The element that [handle_quotation] appends to [parsed_tokens], and
    the tokens it leaves. *)
Definition handle_quotation (tokens : list string) : outcome (value * list string) :=
  match tokens with
  | [] => Raise (Exn SyntaxError "Unexpected end after quote")
  | next_token :: tokens' =>
      if String.eqb next_token "(" then
        '(sub_expr, rest) ← extract_sublist tokens';
        quoted_expr ← parse_list sub_expr;
        Ret (quote (VList quoted_expr), rest)
      else
        quoted_expr ← parse_expression next_token;
        Ret (quote quoted_expr, tokens')
  end.
End Descent.

Fixpoint parse_expression (fuel : nat) (expression : string) {struct fuel} : outcome value :=
  match fuel with
  | O => OutOfFuel
  | S fuel' =>
      let expression := strip expression in
      if startswith "'" expression then
        quoted ← parse_expression fuel' (strip (tail expression));
        Ret (quote quoted)
      else
        number ← is_number expression;
        if (number : bool) then VInt <$> py_int expression
        else if is_list expression then
          VList <$> parse_list fuel' (middle (tokenize expression))
        else Ret (VStr expression)
  end
with parse_list (fuel : nat) (tokens : list string) {struct fuel} : outcome (list value) :=
  match fuel with
  | O => OutOfFuel
  | S fuel' =>
      match tokens with
      | [] => Ret []
      | token :: tokens' =>
          if String.eqb token "(" then
            '(sub_expr, rest) ← extract_sublist tokens';
            nested ← parse_list fuel' sub_expr;
            parsed_tokens ← parse_list fuel' rest;
            Ret (VList nested :: parsed_tokens)
          else if String.eqb token ")" then
            Raise (Exn SyntaxError "Unexpected closing parenthesis")
          else if String.eqb token "'" then
            '(quoted, rest) ← handle_quotation (parse_expression fuel') (parse_list fuel') tokens';
            parsed_tokens ← parse_list fuel' rest;
            Ret (quoted :: parsed_tokens)
          else
            parsed ← parse_expression fuel' token;
            parsed_tokens ← parse_list fuel' tokens';
            Ret (parsed :: parsed_tokens)
      end
  end.

End Parser.


(** ** The read-eval-print loop ([interpreter.py]) *)

Module Interpreter.

(** [conv_cell(cell)]: the text of a result.  [None], [False] and the
    empty list are shown as NIL, [True] as T, a list between parentheses,
    anything else by [str]. *)
Fixpoint conv_cell (cell : value) : string :=
  match cell with
  | VNone | VBool false | VList [] => "NIL"
  | VBool true => "T"
  | VList l => "(" +:+ join " " (map conv_cell l) +:+ ")"
  | _ => py_str cell
  end.

(** What the loop prints for one command and appends to the result file:
    the text of the result, or the word Error and the exception. *)
Inductive reply : Type :=
  | Result (formatted_result : string)
  | Error (e : exn).

(** How the loop ends: at the command [(quit)], or at the end of the
    input, where [input] raises and the outer handler reports a fatal
    error. *)
Inductive ending : Type := Bye | Fatal_error.

(** The body of the inner [try]: parse, evaluate in the interpreter's
    environment (the first object of the heap), format. *)
Definition read_eval_print (fuel : nat) (tokens_str : string) : Environment.M string :=
  parsed_expression ← Environment.lift (Parser.parse_expression fuel tokens_str);
  result ← Environment.evaluate_expression fuel 0 parsed_expression;
  mret (conv_cell result).

(** [loop], on the lines that [input] returns one after the other: the
    replies in order, and how the session ends.  The budget [fuel] is
    that of each command. *)
Fixpoint loop (fuel : nat) (inputs : list string) : Environment.M (list reply * ending) :=
  match inputs with
  | [] => mret ([], Fatal_error)
  | tokens_str :: inputs' =>
      if String.eqb (Parser.strip tokens_str) "" then loop fuel inputs'
      else if String.eqb tokens_str "()" then
        '(replies, e) ← loop fuel inputs'; mret (Result "NIL" :: replies, e)
      else if String.eqb tokens_str "(quit)" then mret ([], Bye)
      else λ st,
        match read_eval_print fuel tokens_str st with
        | (Ret formatted_result, st') =>
            ('(replies, e) ← loop fuel inputs';
             mret (Result formatted_result :: replies, e)) st'
        | (Raise e, st') =>
            ('(replies, e') ← loop fuel inputs';
             mret (Error e :: replies, e')) st'
        | (OutOfFuel, st') => (OutOfFuel, st')
        | (Beyond what, st') => (Beyond what, st')
        end
  end.

End Interpreter.

(** * Vocabulary of the properties *)

(** ** Error kinds *)

(** The error kinds of the interpreter, as the exceptions the code raises. *)
Definition Unknown_Function (e : exn) : Prop :=
  ∃ operator, e = Exn NameError ("Unknown function: " +:+ operator).
Definition Malformed_Syntax (e : exn) : Prop := class_of e = SyntaxError.
Definition Integer_Overflow (e : exn) : Prop :=
  ∃ shown, e = Exn OverflowError ("Integer overflow: " +:+ shown).
Definition Division_By_Zero (e : exn) : Prop :=
  e = Exn ZeroDivisionError "Division by zero is not allowed".
Definition Arity_Mismatch (e : exn) : Prop :=
  ∃ name n m, e = Exn TypeError ("Function '" +:+ name +:+ "' expects " +:+ pretty (n : nat)
                                 +:+ " arguments, got " +:+ pretty (m : nat)).

(** ** Results that do not depend on the budget *)

(** [r ⊑ r']: [r] is [r'], or the budget ran out before [r'] was known. *)
Definition approx {A} (r r' : outcome A) : Prop := r = OutOfFuel ∨ r = r'.

(** The same for a computation on the heap, from every store. *)
Definition approxM {A} (m m' : Environment.M A) : Prop :=
  ∀ st, (m st).1 = OutOfFuel ∨ m st = m' st.

(** The parser returns [r] on [s]: it does with every large enough budget. *)
Definition parses (s : string) (r : outcome value) : Prop :=
  r ≠ OutOfFuel ∧ ∃ n, ∀ m, (n ≤ m)%nat → Parser.parse_expression m s = r.

(** In the environment [self] and from the store [st], the expression
    [e] evaluates to [r] (a value or an exception) and leaves the store
    [st']: it does with every large enough budget. *)
Definition evaluates (self : Environment.addr) (e : value) (st : Environment.store)
    (r : outcome value) (st' : Environment.store) : Prop :=
  r ≠ OutOfFuel ∧
  ∃ n, ∀ m, (n ≤ m)%nat → Environment.evaluate_expression m self e st = (r, st').

(** The expressions [es] evaluate, left to right, to the values [vs]. *)
Definition evaluates_all (self : Environment.addr) (es : list value) (st : Environment.store)
    (vs : list value) (st' : Environment.store) : Prop :=
  ∃ n, ∀ m, (n ≤ m)%nat →
    Environment.for_each (Environment.evaluate_expression m self) es st = (Ret vs, st').

(** The table entry [f], applied to [args] from the store [st], returns
    or raises [r] and leaves the store [st']. *)
Definition calls (f : Environment.function) (args : list value) (st : Environment.store)
    (r : outcome value) (st' : Environment.store) : Prop :=
  r ≠ OutOfFuel ∧ ∃ n, ∀ m, (n ≤ m)%nat → Environment.call m f args st = (r, st').

(** ** Calls *)

(** An operator that [evaluate_function_call] treats without special handling. *)
Definition ordinary (operator : string) : Prop :=
  operator ≠ "quote" ∧ operator ≠ "set!" ∧ operator ≠ "defun" ∧ operator ≠ "mapcar".

(** A call whose operands are all evaluated, in order, before anything
    else happens: an ordinary one, or [mapcar] with at least two operands. *)
Definition evaluates_its_operands (operator : string) (operands : list value) : Prop :=
  ordinary operator ∨ (operator = "mapcar" ∧ (2 ≤ length operands)%nat).

(** ** The 32-bit range *)

(** A number inside the closed interval [[INT_MIN, INT_MAX]]. *)
Definition in_range (x : number) : Prop :=
  Environment.INT_MIN * denominator x ≤ numerator x ≤ Environment.INT_MAX * denominator x.

Global Instance in_range_dec x : Decision (in_range x).
Proof. unfold in_range. apply _. Defined.

Definition in_range_int (z : Z) : bool :=
  (Environment.INT_MIN <=? z) && (z <=? Environment.INT_MAX).

(** The exception of [check_32bit] for an integer result. *)
Definition overflow (z : Z) : exn := Exn OverflowError ("Integer overflow: " +:+ pretty z).

(** Whatever [r] returns is a number of the interval. *)
Definition returns_in_range (r : outcome value) : Prop :=
  ∀ v, r = Ret v → ∃ x, as_number v = Some x ∧ in_range x.

(** The outcome of a range check on the exact result [x]: [x] itself
    when it lies in the interval, Integer-Overflow when it does not. *)
Definition range_checked (x : number) (r : outcome value) : Prop :=
  (in_range x → r = Ret (of_number x)) ∧
  (¬ in_range x → ∃ e, Integer_Overflow e ∧ r = Raise e).

(** The products of the prefixes of the operands of [multiply], the
    empty prefix excepted, all fit: what its loop checks. *)
Fixpoint products_in_range (result : number) (ys : list number) : Prop :=
  match ys with
  | [] => True
  | y :: ys' => in_range (num_mul result y) ∧ products_in_range (num_mul result y) ys'
  end.

Fixpoint partial_products_fit (result : Z) (zs : list Z) : bool :=
  match zs with
  | [] => true
  | z :: zs' => in_range_int (result * z) && partial_products_fit (result * z) zs'
  end.

(** ** User functions *)

(** The environment a function table entry works on. *)
Definition self_of (f : Environment.function) : Environment.addr :=
  match f with
  | Environment.BoundMethod self _ => self
  | Environment.UserFunction self _ _ _ => self
  end.

(** No entry of the function table refers to an environment at address
    [n] or beyond. *)
Definition closed_below (n : nat) (st : Environment.store) : Prop :=
  map_Forall (λ _ f, (self_of f < n)%nat) (Environment.functions st).

Definition preserves (n : nat) {A} (m : Environment.M A) : Prop :=
  ∀ st r st', m st = (r, st') → closed_below n st → closed_below n st'.

(** The parameter bindings, laid over a dictionary in order. *)
Definition bind_all (bindings : list (key * value)) (m : gmap key value) : gmap key value :=
  foldl (λ m kv, <[kv.1 := kv.2]> m) m bindings.

(** The variables of the child environment in the words of the claim:
    "a full copy of the defining environment's variables at call time
    merged with the caller's current variables, overlaid with the
    positional parameter bindings". *)
Definition claimed_child_variables (st : Environment.store)
    (self caller : Environment.addr) (bindings : list (key * value)) : gmap key value :=
  bind_all bindings (Environment.vars st self ∪ Environment.vars st caller).

(** The closure that [defun] makes at top level for [square], the product
    of its parameter with itself. *)
Definition square : Environment.function :=
  Environment.UserFunction 0 "square" [VStr "x"] (VList [VStr "*"; VStr "x"; VStr "x"]).

(** The session [(defun f () x)], [(defun g (x) (f))]. *)
Definition f_and_g : Environment.store :=
  (Environment.evaluate_expression 3 0
     (VList [VStr "defun"; VStr "g"; VList [VStr "x"]; VList [VStr "f"]])
     (Environment.evaluate_expression 3 0
        (VList [VStr "defun"; VStr "f"; VList []; VStr "x"]) Environment.init).2).2.

(** ** Texts and tokens *)

(** A character of a symbol: neither white space nor a parenthesis. *)
Definition symbol_char (c : ascii) : bool :=
  negb (Parser.isspace c) && negb (Ascii.eqb c "(") && negb (Ascii.eqb c ")").

Fixpoint all_chars (p : ascii → bool) (s : string) : bool :=
  match s with
  | "" => true
  | String c s' => p c && all_chars p s'
  end.

(** What the third alternative of the tokenizer's pattern matches. *)
Definition symbol (t : string) : Prop := t ≠ "" ∧ all_chars symbol_char t = true.

(** No opening parenthesis in the text. *)
Definition no_open (s : string) : bool := all_chars (λ c, negb (Ascii.eqb c "(")) s.

(** A token of the tokenizer: an opening parenthesis, or a text without one,
    shorter than [bound]. *)
Definition token_below (bound : nat) (t : string) : Prop :=
  t = "(" ∨ (no_open t = true ∧ (String.length t < bound)%nat).

(** Every closing parenthesis of [tokens] closes an opening one that
    comes before it, and [depth] more. *)
Fixpoint closes (depth : nat) (tokens : list string) : bool :=
  match tokens with
  | [] => Nat.eqb depth 0
  | token :: tokens' =>
      if String.eqb token "(" then closes (S depth) tokens'
      else if String.eqb token ")" then
        match depth with O => false | S d => closes d tokens' end
      else closes depth tokens'
  end.

Definition balanced (tokens : list string) : bool := closes 0 tokens.

(** A text that holds one datum, white space around it aside: a symbol
    other than the lone quote marker, a parenthesised text whose tokens
    are balanced, or such a parenthesised text behind one quote marker. *)
Inductive datum (X : string) : Prop :=
  | datum_symbol :
      symbol (Parser.strip X) → Parser.strip X ≠ "'" → datum X
  | datum_list Y :
      Parser.strip X = String "(" (Y +:+ ")") →
      balanced (Parser.tokenize Y) = true → datum X
  | datum_quoted_list Z Y :
      Parser.strip X = String "'" Z →
      Parser.strip Z = String "(" (Y +:+ ")") →
      balanced (Parser.tokenize Y) = true → datum X.

(** ** Tokens, printed forms *)

(** A token of the tokenizer's pattern: a parenthesis or a symbol. *)
Definition token (t : string) : Prop := t = "(" ∨ t = ")" ∨ symbol t.

(** A text without its white space. *)
Fixpoint without_spaces (s : string) : string :=
  match s with
  | "" => ""
  | String c s' => if Parser.isspace c then without_spaces s' else String c (without_spaces s')
  end.

(** The exceptions of the parser: three of its own, the index error of
    [is_number] on the empty text, the value error of [int]. *)
Definition parser_errors : list exn :=
  [ Exn SyntaxError "Unexpected closing parenthesis";
    Exn SyntaxError "Unexpected end after quote";
    Exn SyntaxError "Unmatched opening parenthesis";
    Exn IndexError "string index out of range";
    Exn ValueError "invalid literal for int() with base 10" ].

(** A result that is a value or one of the parser's exceptions, if the
    budget sufficed. *)
Definition returns_or_raises {A} (r : outcome A) : Prop :=
  match r with
  | Ret _ | OutOfFuel => True
  | Raise e => e ∈ parser_errors
  | Beyond _ => False
  end.

(** A text that the parser returns as it is: stripped, not empty, not a
    quotation, not a number, not between parentheses. *)
Definition atom (s : string) : Prop :=
  Parser.strip s = s ∧ Parser.startswith "'" s = false ∧
  Parser.is_number s = Ret false ∧ Parser.is_list s = false.

(** The expressions: integers, symbols and lists of expressions. *)
#[warnings="-register-all"]
Inductive expression : value → Prop :=
  | expression_int z : expression (VInt z)
  | expression_symbol s : atom s → expression (VStr s)
  | expression_list l : Forall expression l → expression (VList l).

(** A decimal digit, as [int] reads it. *)
Definition decimal_digit (c : ascii) : bool := ((48 <=? code c) && (code c <=? 57))%N.

(** A symbol that is read back as itself: a token that is neither a
    quotation nor a number. *)
Definition plain_symbol (s : string) : Prop :=
  symbol s ∧ Parser.startswith "'" s = false ∧ Parser.is_number s = Ret false.

(** The values that are read back from their printed form: integers,
    plain symbols, and lists, not empty, of such values. *)
#[warnings="-register-all"]
Inductive readable : value → Prop :=
  | readable_int z : readable (VInt z)
  | readable_symbol s : plain_symbol s → readable (VStr s)
  | readable_list l : l ≠ [] → Forall readable l → readable (VList l).

(** The tokens of the printed form of a value. *)
Fixpoint tokens_of (v : value) : list string :=
  match v with
  | VList ((_ :: _) as l) => "(" :: concat (map tokens_of l) ++ [")"]
  | _ => [Interpreter.conv_cell v]
  end.

(** ** Numbers *)

(** An [int], as opposed to a [Fraction]. *)
Definition is_int (x : number) : bool := match x with NInt _ => true | NFrac _ _ => false end.

(** ** Stores *)

(** Nothing of the store [st] is lost in [st']: the environments of [st]
    are there, each with at least the variables it had, and so is every
    name of the function table. *)
Definition extends (st st' : Environment.store) : Prop :=
  (length (Environment.variables st) ≤ length (Environment.variables st'))%nat ∧
  (∀ a k, is_Some (Environment.vars st a !! k) → is_Some (Environment.vars st' a !! k)) ∧
  (∀ name, is_Some (Environment.functions st !! name) →
           is_Some (Environment.functions st' !! name)).

(** A computation that loses nothing of the store, whatever its outcome. *)
Definition grows {A} (m : Environment.M A) : Prop :=
  ∀ st r st', m st = (r, st') → extends st st'.

(** The first environment of the heap exists and binds symbols only. *)
Definition binds_symbols_only (st : Environment.store) : Prop :=
  (0 < length (Environment.variables st))%nat ∧
  ∀ k, is_Some (Environment.vars st 0 !! k) → ∃ s, k = KStr s.

(** A computation that keeps it so. *)
Definition keeps_symbols_only {A} (m : Environment.M A) : Prop :=
  ∀ st r st', m st = (r, st') → binds_symbols_only st → binds_symbols_only st'.

(** ** Rows *)

(** The length of the shortest of the lists [ls], and at most [n]. *)
Definition shortest_below (n : nat) (ls : list (list value)) : nat :=
  foldr (λ l m, Nat.min (length l) m) n ls.

(** The length of the shortest of the lists, 0 for no list. *)
Definition shortest (ls : list (list value)) : nat :=
  match ls with
  | [] => 0
  | l :: ls' => shortest_below (length l) ls'
  end.

(** ** Sessions *)

(** The lines of a session before the first command [(quit)]. *)
Fixpoint before_quit (inputs : list string) : list string :=
  match inputs with
  | [] => []
  | tokens_str :: inputs' =>
      if String.eqb tokens_str "(quit)" then [] else tokens_str :: before_quit inputs'
  end.

(** A line that is not blank. *)
Definition command (tokens_str : string) : bool :=
  negb (String.eqb (Parser.strip tokens_str) "").

(** * Lemmas *)

(** ** Sequencing *)

Lemma for_each_app {A B} (f : A → Environment.M B) l1 l2 st :
  Environment.for_each f (l1 ++ l2) st
  = ((ys1 ← Environment.for_each f l1; ys2 ← Environment.for_each f l2; mret (ys1 ++ ys2))
       : Environment.M (list B)) st.
Proof.
  revert st. induction l1 as [|x l1 IH]; intros st; simpl;
    unfold mbind, Environment.M_bind, mret, Environment.M_ret in *.
  - destruct (Environment.for_each f l2 st) as [[] ?]; reflexivity.
  - destruct (f x st) as [[y| | |] st1]; try reflexivity.
    rewrite IH.
    destruct (Environment.for_each f l1 st1) as [[] st2]; try reflexivity.
    destruct (Environment.for_each f l2 st2) as [[] st3]; reflexivity.
Qed.

(** The first operand that raises ends the evaluation of the operands,
    in the store it leaves. *)
Lemma for_each_raise {A B} (f : A → Environment.M B) pre bad post st ys st1 e st2 :
  Environment.for_each f pre st = (Ret ys, st1) →
  f bad st1 = (Raise e, st2) →
  Environment.for_each f (pre ++ bad :: post) st = (Raise e, st2).
Proof.
  intros Hpre Hbad. rewrite for_each_app. simpl.
  unfold mbind, Environment.M_bind, mret, Environment.M_ret.
  rewrite Hpre, Hbad. reflexivity.
Qed.

(** ** More budget never changes a result *)

Lemma approx_refl {A} (r : outcome A) : approx r r.
Proof. by right. Qed.

Lemma approx_bind {A B} (m m' : outcome A) (k k' : A → outcome B) :
  approx m m' → (∀ a, approx (k a) (k' a)) → approx (m ≫= k) (m' ≫= k').
Proof.
  intros [->| ->] Hk; [by left|]. destruct m' as [a| | |]; simpl; [apply Hk|by right..].
Qed.

Lemma approx_fmap {A B} (f : A → B) (m m' : outcome A) :
  approx m m' → approx (f <$> m) (f <$> m').
Proof. intros H. apply approx_bind; [done|]. intros. apply approx_refl. Qed.

Lemma parse_approx n :
  (∀ s, approx (Parser.parse_expression n s) (Parser.parse_expression (S n) s)) ∧
  (∀ ts, approx (Parser.parse_list n ts) (Parser.parse_list (S n) ts)).
Proof.
  induction n as [|n [IHe IHl]]; [split; intros; by left|].
  split.
  - intros s. cbn [Parser.parse_expression].
    destruct (Parser.startswith _ _).
    { apply approx_bind; [apply IHe|]. intros; apply approx_refl. }
    apply approx_bind; [apply approx_refl|]. intros [|]; [apply approx_refl|].
    destruct (Parser.is_list _); [|apply approx_refl].
    apply approx_fmap, IHl.
  - intros [|token tokens]; [apply approx_refl|]. cbn [Parser.parse_list].
    destruct (String.eqb token "(").
    { apply approx_bind; [apply approx_refl|]. intros [sub_expr rest].
      apply approx_bind; [apply IHl|]. intros nested.
      apply approx_bind; [apply IHl|]. intros; apply approx_refl. }
    destruct (String.eqb token ")"); [apply approx_refl|].
    destruct (String.eqb token "'").
    { apply approx_bind.
      - unfold Parser.handle_quotation. destruct tokens as [|next tokens]; [apply approx_refl|].
        destruct (String.eqb next "(").
        + apply approx_bind; [apply approx_refl|]. intros [sub_expr rest].
          apply approx_bind; [apply IHl|]. intros; apply approx_refl.
        + apply approx_bind; [apply IHe|]. intros; apply approx_refl.
      - intros [quoted rest]. apply approx_bind; [apply IHl|]. intros; apply approx_refl. }
    apply approx_bind; [apply IHe|]. intros parsed.
    apply approx_bind; [apply IHl|]. intros; apply approx_refl.
Qed.

Lemma parse_expression_more n m s r :
  Parser.parse_expression n s = r → r ≠ OutOfFuel → (n ≤ m)%nat →
  Parser.parse_expression m s = r.
Proof.
  intros Hr Hne Hnm. induction Hnm as [|m Hnm IH]; [done|].
  destruct (proj1 (parse_approx m) s) as [H|H]; congruence.
Qed.

Lemma parse_list_more n m ts r :
  Parser.parse_list n ts = r → r ≠ OutOfFuel → (n ≤ m)%nat →
  Parser.parse_list m ts = r.
Proof.
  intros Hr Hne Hnm. induction Hnm as [|m Hnm IH]; [done|].
  destruct (proj2 (parse_approx m) ts) as [H|H]; congruence.
Qed.

Lemma parses_intro n s r :
  Parser.parse_expression n s = r → r ≠ OutOfFuel → parses s r.
Proof. intros Hr Hne. split; [done|]. exists n. intros m. by apply parse_expression_more. Qed.

Lemma parses_unique s r r' : parses s r → parses s r' → r = r'.
Proof.
  intros [_ [n Hn]] [_ [n' Hn']].
  rewrite <- (Hn (n `max` n')%nat), <- (Hn' (n `max` n')%nat) by lia. done.
Qed.

Lemma approxM_refl {A} (m : Environment.M A) : approxM m m.
Proof. intros st. by right. Qed.

Lemma approxM_bind {A B} (m m' : Environment.M A) (k k' : A → Environment.M B) :
  approxM m m' → (∀ a, approxM (k a) (k' a)) → approxM (m ≫= k) (m' ≫= k').
Proof.
  intros Hm Hk st. unfold mbind, Environment.M_bind.
  destruct (Hm st) as [H|H].
  - left. destruct (m st) as [[] ?]; simplify_eq/=; done.
  - rewrite H. destruct (m' st) as [[a| | |] st1]; [apply Hk|by right..].
Qed.

Lemma approxM_for_each {A B} (f f' : A → Environment.M B) l :
  (∀ x, approxM (f x) (f' x)) → approxM (Environment.for_each f l) (Environment.for_each f' l).
Proof.
  intros Hf. induction l as [|x l IH]; [apply approxM_refl|]. simpl.
  apply approxM_bind; [done|]. intros y.
  apply approxM_bind; [done|]. intros; apply approxM_refl.
Qed.

Section Budget.
Variables ev ev' : Environment.addr → value → Environment.M value.
Variables call call' : Environment.function → list value → Environment.M value.
Hypothesis approx_ev : ∀ self e, approxM (ev self e) (ev' self e).
Hypothesis approx_call : ∀ f args, approxM (call f args) (call' f args).

Lemma approxM_mapcar self func lists :
  approxM (Environment.mapcar call self func lists) (Environment.mapcar call' self func lists).
Proof.
  apply approxM_bind; [apply approxM_refl|]. intros rows.
  apply approxM_bind; [|intros; apply approxM_refl].
  apply approxM_for_each. intros values.
  apply approxM_bind; [apply approxM_refl|done].
Qed.

Lemma approxM_user_function self name params body args :
  approxM (Environment.user_function ev self name params body args)
          (Environment.user_function ev' self name params body args).
Proof.
  unfold Environment.user_function. destruct (negb _); [apply approxM_refl|].
  apply approxM_bind; [apply approxM_refl|]. intros local_env.
  apply approxM_bind; [apply approxM_refl|done].
Qed.

Lemma approxM_call_method self m args :
  approxM (Environment.call_method call self m args) (Environment.call_method call' self m args).
Proof.
  destruct m, args as [|a1 [|a2 [|a3 [|a4 args]]]];
    first [apply approxM_refl | apply approxM_mapcar].
Qed.

Lemma approxM_evaluate_function_call self operator operands :
  approxM (Environment.evaluate_function_call ev call self operator operands)
          (Environment.evaluate_function_call ev' call' self operator operands).
Proof.
  intros st. unfold Environment.evaluate_function_call.
  destruct (Environment.functions st !! operator); [|by right].
  revert st. fold (@approxM value).
  destruct (String.eqb operator "set!").
  { destruct operands as [|var_name [|e [|? ?]]]; try apply approxM_refl.
    apply approxM_bind; [done|]. intros; apply approxM_refl. }
  destruct (String.eqb operator "defun").
  { apply approxM_bind; [apply approxM_refl|done]. }
  destruct (String.eqb operator "mapcar").
  { destruct operands as [|func_e [|e es]]; try apply approxM_refl.
    apply approxM_bind; [done|]. intros func.
    apply approxM_bind; [by apply approxM_for_each|]. intros lists.
    destruct (forallb _ _); [apply approxM_mapcar|apply approxM_refl]. }
  apply approxM_bind; [by apply approxM_for_each|]. intros vs.
  apply approxM_bind; [apply approxM_refl|done].
Qed.
End Budget.

Lemma evaluate_approx n :
  (∀ self e, approxM (Environment.evaluate_expression n self e)
                     (Environment.evaluate_expression (S n) self e)) ∧
  (∀ f args, approxM (Environment.call n f args) (Environment.call (S n) f args)).
Proof.
  induction n as [|n [IHe IHc]]; [split; intros; intros st; by left|].
  split.
  - intros self e st. cbn [Environment.evaluate_expression].
    destruct e as [| | | | |[|head operands]]; try by right.
    destruct (Environment.vars st self !! _); [by right|].
    destruct (String.eqb _ _); [by right|].
    destruct head; try by right.
    by apply approxM_evaluate_function_call.
  - intros [self m|self name params body] args; cbn [Environment.call].
    + by apply approxM_call_method.
    + by apply approxM_user_function.
Qed.

Lemma approxM_more {A} (m : nat → Environment.M A) :
  (∀ n, approxM (m n) (m (S n))) →
  ∀ n n' st r st', m n st = (r, st') → r ≠ OutOfFuel → (n ≤ n')%nat → m n' st = (r, st').
Proof.
  intros Hm n n' st r st' Hr Hne Hnn'. induction Hnn' as [|n' Hnn' IH]; [done|].
  destruct (Hm n' st) as [H|H].
  - by rewrite IH in H.
  - by rewrite <- H.
Qed.

Lemma evaluate_more n m self e st r st' :
  Environment.evaluate_expression n self e st = (r, st') → r ≠ OutOfFuel → (n ≤ m)%nat →
  Environment.evaluate_expression m self e st = (r, st').
Proof.
  apply (approxM_more (λ n, Environment.evaluate_expression n self e)).
  intros k. apply evaluate_approx.
Qed.

Lemma call_more n m f args st r st' :
  Environment.call n f args st = (r, st') → r ≠ OutOfFuel → (n ≤ m)%nat →
  Environment.call m f args st = (r, st').
Proof.
  apply (approxM_more (λ n, Environment.call n f args)).
  intros k. apply evaluate_approx.
Qed.

Lemma for_each_evaluate_more n m self es st r st' :
  Environment.for_each (Environment.evaluate_expression n self) es st = (r, st') →
  r ≠ OutOfFuel → (n ≤ m)%nat →
  Environment.for_each (Environment.evaluate_expression m self) es st = (r, st').
Proof.
  apply (approxM_more (λ n, Environment.for_each (Environment.evaluate_expression n self) es)).
  intros k. apply approxM_for_each. intros e. apply evaluate_approx.
Qed.

Lemma evaluates_intro n self e st r st' :
  Environment.evaluate_expression n self e st = (r, st') → r ≠ OutOfFuel →
  evaluates self e st r st'.
Proof. intros Hr Hne. split; [done|]. exists n. intros m. by apply evaluate_more. Qed.

Lemma calls_intro n f args st r st' :
  Environment.call n f args st = (r, st') → r ≠ OutOfFuel → calls f args st r st'.
Proof. intros Hr Hne. split; [done|]. exists n. intros m. by apply call_more. Qed.

Lemma evaluates_all_intro n self es st vs st' :
  Environment.for_each (Environment.evaluate_expression n self) es st = (Ret vs, st') →
  evaluates_all self es st vs st'.
Proof. intros Hr. exists n. intros m. by apply for_each_evaluate_more. Qed.

Lemma evaluates_unique self e st r1 st1 r2 st2 :
  evaluates self e st r1 st1 → evaluates self e st r2 st2 → r1 = r2 ∧ st1 = st2.
Proof.
  intros [_ [n Hn]] [_ [n' Hn']].
  specialize (Hn (n `max` n')%nat ltac:(lia)). specialize (Hn' (n `max` n')%nat ltac:(lia)).
  rewrite Hn in Hn'. by injection Hn' as -> ->.
Qed.

Lemma evaluates_all_nil self st : evaluates_all self [] st [] st.
Proof. by exists 0%nat. Qed.

Lemma evaluates_all_cons self e es st v st1 vs st2 :
  evaluates self e st (Ret v) st1 → evaluates_all self es st1 vs st2 →
  evaluates_all self (e :: es) st (v :: vs) st2.
Proof.
  intros [_ [n Hn]] [n' Hn']. exists (n `max` n')%nat. intros m Hm. simpl.
  unfold mbind, Environment.M_bind, mret, Environment.M_ret.
  rewrite Hn, Hn' by lia. done.
Qed.

(** ** Calls *)

Ltac solve_ordinary := repeat split; discriminate.

(** A list whose head is an ordinary operator of the function table, not
    shadowed by a variable: the operands are evaluated left to right, then
    the table entry, read after that, is called. *)
Lemma evaluate_ordinary_call fuel self st operator operands :
  Environment.vars st self !! KStr operator = None →
  ordinary operator →
  is_Some (Environment.functions st !! operator) →
  Environment.evaluate_expression (S fuel) self (VList (VStr operator :: operands)) st
  = ((evaluated_operands ← Environment.for_each (Environment.evaluate_expression fuel self) operands;
      f ← Environment.lookup_function (VStr operator);
      Environment.call fuel f evaluated_operands) : Environment.M value) st.
Proof.
  intros Hvar (Hq & Hs & Hd & Hm) [f Hf]. simpl. rewrite Hvar.
  apply String.eqb_neq in Hq, Hs, Hd, Hm. rewrite Hq.
  unfold Environment.evaluate_function_call. rewrite Hf, Hs, Hd, Hm. reflexivity.
Qed.

Lemma evaluates_ordinary_call self st operator operands vs st1 f r st2 :
  Environment.vars st self !! KStr operator = None →
  ordinary operator →
  is_Some (Environment.functions st !! operator) →
  evaluates_all self operands st vs st1 →
  Environment.functions st1 !! operator = Some f →
  calls f vs st1 r st2 →
  evaluates self (VList (VStr operator :: operands)) st r st2.
Proof.
  intros Hvar Hord Hfun [n Hn] Hf [Hr [n' Hn']]. split; [done|].
  exists (S (n `max` n')). intros [|k] Hk; [lia|].
  rewrite (evaluate_ordinary_call k self st operator operands Hvar Hord Hfun).
  unfold mbind, Environment.M_bind. rewrite Hn by lia.
  unfold Environment.lookup_function. rewrite Hf. apply Hn'. lia.
Qed.

(** An operand of [mapcar] that raises. *)
Lemma evaluate_mapcar_operand_raises fuel self st pre bad post vs st1 e st2 :
  Environment.vars st self !! KStr "mapcar" = None →
  is_Some (Environment.functions st !! "mapcar") →
  (2 ≤ length (pre ++ bad :: post))%nat →
  Environment.for_each (Environment.evaluate_expression fuel self) pre st = (Ret vs, st1) →
  Environment.evaluate_expression fuel self bad st1 = (Raise e, st2) →
  Environment.evaluate_expression (S fuel) self (VList (VStr "mapcar" :: pre ++ bad :: post)) st
  = (Raise e, st2).
Proof.
  intros Hvar [f Hf] Hlen Hpre Hbad.
  cbn [Environment.evaluate_expression py_str]. rewrite Hvar.
  change (String.eqb "mapcar" "quote") with false. cbv iota.
  unfold Environment.evaluate_function_call. rewrite Hf.
  change (String.eqb "mapcar" "set!") with false.
  change (String.eqb "mapcar" "defun") with false.
  change (String.eqb "mapcar" "mapcar") with true. cbv iota.
  destruct pre as [|p pre].
  - injection Hpre as <- <-. destruct post as [|q post]; [simpl in Hlen; lia|].
    cbn [app]. unfold mbind, Environment.M_bind at 1. by rewrite Hbad.
  - cbn [Environment.for_each] in Hpre. unfold mbind, Environment.M_bind at 1 in Hpre.
    destruct (Environment.evaluate_expression fuel self p st) as [[v| | |] sta] eqn:Hp;
      try done.
    unfold mbind, Environment.M_bind, mret, Environment.M_ret in Hpre.
    destruct (Environment.for_each _ pre sta) as [[vs'| | |] stb] eqn:Hpre'; try done.
    injection Hpre as <- <-.
    assert (Environment.for_each (Environment.evaluate_expression fuel self)
              (pre ++ bad :: post) sta = (Raise e, st2)) as Hraise
      by by apply (for_each_raise _ pre bad post sta vs' stb).
    cbn [app]. destruct (pre ++ bad :: post) as [|q rest] eqn:Hrest.
    { by destruct pre. }
    unfold mbind, Environment.M_bind at 1. rewrite Hp.
    unfold mbind, Environment.M_bind at 1. by rewrite Hraise.
Qed.

(** In a call that evaluates its operands, an operand that raises after
    the operands before it were evaluated makes the call raise, in the
    store that the operand leaves. *)
Lemma evaluates_operand_raises self st operator pre bad post vs st1 e st2 :
  Environment.vars st self !! KStr operator = None →
  evaluates_its_operands operator (pre ++ bad :: post) →
  is_Some (Environment.functions st !! operator) →
  evaluates_all self pre st vs st1 →
  evaluates self bad st1 (Raise e) st2 →
  evaluates self (VList (VStr operator :: pre ++ bad :: post)) st (Raise e) st2.
Proof.
  intros Hvar Hop Hfun [n Hn] [_ [n' Hn']]. split; [done|].
  exists (S (n `max` n')). intros [|k] Hk; [lia|].
  destruct Hop as [Hord|[-> Hlen]].
  - rewrite (evaluate_ordinary_call k self st operator _ Hvar Hord Hfun).
    unfold mbind, Environment.M_bind at 1.
    by rewrite (for_each_raise _ pre bad post st vs st1 e st2) by (apply Hn || apply Hn'; lia).
  - apply (evaluate_mapcar_operand_raises k self st pre bad post vs st1 e st2);
      [done..|apply Hn; lia|apply Hn'; lia].
Qed.

(** * Properties of the evaluator *)

(** ** The empty list *)

(** C1: the claim is that evaluating a List expression with zero elements
    returns nil.  The code indexes element 0 of the expression before any
    test of its length: the text [( )] parses to the empty list, and
    evaluating the empty list, alone or as an operand, raises
    [IndexError] in every environment. *)
Theorem C1_empty_list_raises_IndexError :
  parses "( )" (Ret (VList [])) ∧
  (∀ fuel self st,
     Environment.evaluate_expression (S fuel) self (VList []) st
     = (Raise (Exn IndexError "list index out of range"), st)) ∧
  evaluates 0 (VList [VStr "car"; VList []]) Environment.init
    (Raise (Exn IndexError "list index out of range")) Environment.init.
Proof.
  split; [by apply (parses_intro 2)|]. split; [reflexivity|].
  by apply (evaluates_intro 2).
Qed.

(** ** A list whose head names a variable *)

(** C4: a List expression whose head, read as text, is bound as a variable
    evaluates to that variable's value, whatever the head is (also
    [quote] or the name of a function) and whatever the operands are;
    no operand is evaluated and the store is unchanged. *)
Theorem C4_head_variable_takes_priority :
  ∀ fuel self st head operands v,
    Environment.vars st self !! KStr (py_str head) = Some v →
    Environment.evaluate_expression (S fuel) self (VList (head :: operands)) st = (Ret v, st).
Proof.
  intros fuel self st head operands v Hv. simpl. by rewrite Hv.
Qed.

(** Witness: with [quote] bound to 5, [(quote a)] is a variable reference. *)
Lemma C4_witness :
  Environment.evaluate_expression 1 0 (VList [VStr "quote"; VStr "a"])
    (Environment.set_variable 0 (KStr "quote") (VInt 5) Environment.init)
  = (Ret (VInt 5), Environment.set_variable 0 (KStr "quote") (VInt 5) Environment.init).
Proof.
  apply (C4_head_variable_takes_priority 0 0 _ (VStr "quote") [VStr "a"] (VInt 5)).
  vm_compute. reflexivity.
Defined.

(** ** Heads that are not functions *)

(** C9, as amended: for a List expression whose head is neither a bound
    variable name nor the symbol [quote], a head that is a symbol absent
    from the function table fails with Unknown-Function ([NameError]),
    and a head that is not a symbol at all (an integer, a nested list)
    fails with [SyntaxError], "Invalid function call".  The store is
    unchanged in both cases. *)
Theorem C9_unknown_function_or_invalid_call :
  ∀ fuel self st head operands,
    Environment.vars st self !! KStr (py_str head) = None →
    py_str head ≠ "quote" →
    (∀ operator, head = VStr operator →
       Environment.functions st !! operator = None →
       ∃ e, Unknown_Function e ∧
         Environment.evaluate_expression (S fuel) self (VList (head :: operands)) st
         = (Raise e, st)) ∧
    ((∀ operator, head ≠ VStr operator) →
       ∃ e, Malformed_Syntax e ∧ ¬ Unknown_Function e ∧
         e = Exn SyntaxError ("Invalid function call: " +:+ py_str (VList (head :: operands))) ∧
         Environment.evaluate_expression (S fuel) self (VList (head :: operands)) st
         = (Raise e, st)).
Proof.
  intros fuel self st head operands Hvar Hq. apply String.eqb_neq in Hq. split.
  - intros operator -> Hf. exists (Exn NameError ("Unknown function: " +:+ operator)).
    split; [by exists operator|].
    simpl in *. rewrite Hvar, Hq. unfold Environment.evaluate_function_call. by rewrite Hf.
  - intros Hsym. eexists. split; [|split; [|split; [reflexivity|]]].
    + reflexivity.
    + intros [operator H]. discriminate H.
    + cbn [Environment.evaluate_expression]. rewrite Hvar, Hq.
      destruct head; try reflexivity. by destruct (Hsym s).
Qed.

Lemma C9_witness :
  (∃ e, Unknown_Function e ∧
     Environment.evaluate_expression 1 0 (VList [VStr "foo"; VInt 1]) Environment.init
     = (Raise e, Environment.init)) ∧
  (∃ e, Malformed_Syntax e ∧ ¬ Unknown_Function e ∧
     e = Exn SyntaxError "Invalid function call: [['a'], 1]" ∧
     Environment.evaluate_expression 1 0 (VList [VList [VStr "a"]; VInt 1]) Environment.init
     = (Raise e, Environment.init)).
Proof.
  split.
  - apply (C9_unknown_function_or_invalid_call 0 0 Environment.init
             (VStr "foo") [VInt 1]) with (operator := "foo");
      [vm_compute; reflexivity | discriminate | reflexivity | vm_compute; reflexivity].
  - apply (C9_unknown_function_or_invalid_call 0 0 Environment.init
             (VList [VStr "a"]) [VInt 1]);
      [vm_compute; reflexivity | discriminate | discriminate].
Defined.

(** The claim as stated fails on [(5)]: the head, the integer 5, is
    neither a bound variable nor [quote] nor a symbol of the function
    table, and the evaluation raises [SyntaxError], not Unknown-Function. *)
Lemma C9_counterexample :
  Environment.vars Environment.init 0 !! KStr (py_str (VInt 5)) = None ∧
  py_str (VInt 5) ≠ "quote" ∧
  (∀ operator, VInt 5 ≠ VStr operator) ∧
  ∃ e, evaluates 0 (VList [VInt 5]) Environment.init (Raise e) Environment.init ∧
       ¬ Unknown_Function e.
Proof.
  split; [vm_compute; reflexivity|]. split; [discriminate|]. split; [discriminate|].
  exists (Exn SyntaxError "Invalid function call: [5]").
  split; [by apply (evaluates_intro 1)|].
  intros [operator H]. discriminate H.
Qed.

(** ** The conditional *)

(** C3: in [(if c a b)], with [if] the builtin and not shadowed by a
    variable, the three operands are evaluated in order and the store
    carries the effects of all of them; the value is the consequent's
    exactly when the condition's value is [True], the alternative's
    otherwise; and a branch that raises makes the call raise, whichever
    branch the condition selects. *)
Theorem C3_if_evaluates_all_operands :
  ∀ self st c a b owner vc st1,
    Environment.vars st self !! KStr "if" = None →
    is_Some (Environment.functions st !! "if") →
    evaluates self c st (Ret vc) st1 →
    (∀ va st2 vb st3,
       evaluates self a st1 (Ret va) st2 →
       evaluates self b st2 (Ret vb) st3 →
       Environment.functions st3 !! "if" = Some (Environment.BoundMethod owner Environment.If_cond) →
       ∃ r, evaluates self (VList [VStr "if"; c; a; b]) st (Ret r) st3 ∧
            (vc = VBool true → r = va) ∧ (vc ≠ VBool true → r = vb)) ∧
    (∀ e st2,
       evaluates self a st1 (Raise e) st2 →
       evaluates self (VList [VStr "if"; c; a; b]) st (Raise e) st2) ∧
    (∀ va st2 e st3,
       evaluates self a st1 (Ret va) st2 →
       evaluates self b st2 (Raise e) st3 →
       evaluates self (VList [VStr "if"; c; a; b]) st (Raise e) st3).
Proof.
  intros self st c a b owner vc st1 Hvar Hfun Hc.
  assert (ordinary "if") as Hord by solve_ordinary.
  split; [|split].
  - intros va st2 vb st3 Ha Hb Hif.
    exists (Environment.if_cond vc va vb). split.
    + apply (evaluates_ordinary_call self st "if" [c; a; b] [vc; va; vb] st3
               (Environment.BoundMethod owner Environment.If_cond)); try done.
      * eauto using evaluates_all_cons, evaluates_all_nil.
      * by apply (calls_intro 1).
    + split; [intros ->; reflexivity|].
      intros Hne. destruct vc as [| |[]| | |]; try reflexivity. done.
  - intros e st2 Ha.
    apply (evaluates_operand_raises self st "if" [c] a [b] [vc] st1); try done.
    + by left.
    + eauto using evaluates_all_cons, evaluates_all_nil.
  - intros va st2 e st3 Ha Hb.
    apply (evaluates_operand_raises self st "if" [c; a] b [] [vc; va] st2); try done.
    + by left.
    + eauto using evaluates_all_cons, evaluates_all_nil.
Qed.

(** Witness: [(if T 1 (define x 5))] returns 1 and binds [x] all the
    same; [(if T 1 (/ 1 0))] raises. *)
Lemma C3_witness :
  (∃ r, evaluates 0
          (VList [VStr "if"; VStr "T"; VInt 1; VList [VStr "define"; VStr "x"; VInt 5]])
          Environment.init
          (Ret r) (Environment.set_variable 0 (KStr "x") (VInt 5) Environment.init) ∧
        (VBool true = VBool true → r = VInt 1) ∧ (VBool true ≠ VBool true → r = VStr "x")) ∧
  evaluates 0
    (VList [VStr "if"; VStr "T"; VInt 1; VList [VStr "/"; VInt 1; VInt 0]]) Environment.init
    (Raise (Exn ZeroDivisionError "Division by zero is not allowed")) Environment.init.
Proof.
  split.
  - destruct (C3_if_evaluates_all_operands 0 Environment.init (VStr "T") (VInt 1)
                (VList [VStr "define"; VStr "x"; VInt 5]) 0 (VBool true) Environment.init
                ltac:(vm_compute; reflexivity) ltac:(vm_compute; eauto)
                ltac:(by apply (evaluates_intro 1))) as (Hok & _ & _).
    apply (Hok (VInt 1) Environment.init (VStr "x"));
      [by apply (evaluates_intro 1) | by apply (evaluates_intro 2) | vm_compute; reflexivity].
  - destruct (C3_if_evaluates_all_operands 0 Environment.init (VStr "T") (VInt 1)
                (VList [VStr "/"; VInt 1; VInt 0]) 0 (VBool true) Environment.init
                ltac:(vm_compute; reflexivity) ltac:(vm_compute; eauto)
                ltac:(by apply (evaluates_intro 1))) as (_ & _ & Hraise).
    apply (Hraise (VInt 1) Environment.init);
      [by apply (evaluates_intro 1) | by apply (evaluates_intro 2)].
Defined.

(** ** Failure keeps what was done *)

(** C6: in a call that evaluates its operands (an ordinary operator, the
    name of a user function, [mapcar]), when an operand raises after the
    operands before it were evaluated, the call raises the same exception
    and the store is the one at the moment of the raise: what the earlier
    operands did to the variables and the functions is still there.  So
    [(+ (define x 5) (/ 1 0))] raises and leaves [x] bound to 5, and
    likewise after [set!] and [defun]. *)
Theorem C6_no_rollback_on_failure :
  (∀ self st operator pre bad post vs st1 e st2,
     Environment.vars st self !! KStr operator = None →
     evaluates_its_operands operator (pre ++ bad :: post) →
     is_Some (Environment.functions st !! operator) →
     evaluates_all self pre st vs st1 →
     evaluates self bad st1 (Raise e) st2 →
     evaluates self (VList (VStr operator :: pre ++ bad :: post)) st (Raise e) st2) ∧
  (∃ st',
     evaluates 0
       (VList [VStr "+"; VList [VStr "define"; VStr "x"; VInt 5]; VList [VStr "/"; VInt 1; VInt 0]])
       Environment.init
       (Raise (Exn ZeroDivisionError "Division by zero is not allowed")) st' ∧
     Environment.vars Environment.init 0 !! KStr "x" = None ∧
     Environment.vars st' 0 !! KStr "x" = Some (VInt 5)) ∧
  (∃ st',
     evaluates 0
       (VList [VStr "+"; VList [VStr "set!"; VStr "T"; VInt 7]; VList [VStr "/"; VInt 1; VInt 0]])
       Environment.init
       (Raise (Exn ZeroDivisionError "Division by zero is not allowed")) st' ∧
     Environment.vars Environment.init 0 !! KStr "T" = Some (VBool true) ∧
     Environment.vars st' 0 !! KStr "T" = Some (VInt 7)) ∧
  (∃ st',
     evaluates 0
       (VList [VStr "+"; VList [VStr "defun"; VStr "f"; VList []; VInt 1];
               VList [VStr "/"; VInt 1; VInt 0]])
       Environment.init
       (Raise (Exn ZeroDivisionError "Division by zero is not allowed")) st' ∧
     Environment.functions Environment.init !! "f" = None ∧
     Environment.functions st' !! "f" = Some (Environment.UserFunction 0 "f" [] (VInt 1))).
Proof.
  split; [exact evaluates_operand_raises|].
  split; [|split]; eexists;
    (split; [by apply (evaluates_intro 3)|split; vm_compute; reflexivity]).
Qed.

Lemma C6_witness :
  evaluates 0
    (VList (VStr "mapcar" :: [VList [VStr "define"; VStr "x"; VInt 5]]
              ++ VList [VStr "/"; VInt 1; VInt 0] :: [VInt 2]))
    Environment.init
    (Raise (Exn ZeroDivisionError "Division by zero is not allowed"))
    (Environment.set_variable 0 (KStr "x") (VInt 5) Environment.init).
Proof.
  apply (proj1 C6_no_rollback_on_failure 0%nat Environment.init "mapcar"
           [VList [VStr "define"; VStr "x"; VInt 5]] (VList [VStr "/"; VInt 1; VInt 0])
           [VInt 2] [VStr "x"]
           (Environment.set_variable 0 (KStr "x") (VInt 5) Environment.init)).
  - vm_compute. reflexivity.
  - right. split; [reflexivity|simpl; lia].
  - vm_compute. eauto.
  - by apply (evaluates_all_intro 2).
  - by apply (evaluates_intro 2).
Defined.

(** * Properties of the arithmetic *)

Lemma overflow_kind z : Integer_Overflow (overflow z).
Proof. by exists (pretty z). Qed.

Lemma as_number_of_number x : as_number (of_number x) = Some x.
Proof. by destruct x. Qed.

Lemma check_32bit_Ret v v' :
  Environment.check_32bit v = Ret v' →
  v' = v ∧ ∃ x, as_number v = Some x ∧ in_range x.
Proof.
  unfold Environment.check_32bit. destruct (as_number v) as [x|] eqn:Hx; [|done].
  destruct (num_ltb x _ || num_ltb _ x) eqn:Hlt; [done|].
  intros [= <-]. split; [done|]. exists x. split; [done|].
  apply orb_false_iff in Hlt as [H1 H2]. unfold num_ltb in H1, H2. simpl in H1, H2.
  unfold in_range. lia.
Qed.

Lemma check_32bit_number v x :
  as_number v = Some x →
  (in_range x → Environment.check_32bit v = Ret v) ∧
  (¬ in_range x → ∃ e, Integer_Overflow e ∧ Environment.check_32bit v = Raise e).
Proof.
  intros Hx. unfold Environment.check_32bit. rewrite Hx.
  destruct (num_ltb x _ || num_ltb _ x) eqn:Hlt.
  - split.
    + intros Hr. exfalso. unfold in_range in Hr.
      apply orb_true_iff in Hlt. unfold num_ltb in Hlt. simpl in Hlt. lia.
    + intros _. eexists. split; [|reflexivity]. by eexists.
  - split; [done|]. intros Hr. exfalso. apply Hr.
    apply orb_false_iff in Hlt as [H1 H2]. unfold num_ltb in H1, H2. simpl in H1, H2.
    unfold in_range. lia.
Qed.

Lemma check_32bit_checks x : range_checked x (Environment.check_32bit (of_number x)).
Proof. apply check_32bit_number, as_number_of_number. Qed.

Lemma check_32bit_int z :
  Environment.check_32bit (VInt z) = if in_range_int z then Ret (VInt z) else Raise (overflow z).
Proof.
  unfold Environment.check_32bit, in_range_int, num_ltb, overflow. simpl.
  rewrite !Z.mul_1_r.
  destruct (Z.ltb_spec z Environment.INT_MIN), (Z.ltb_spec Environment.INT_MAX z),
    (Z.leb_spec Environment.INT_MIN z), (Z.leb_spec z Environment.INT_MAX);
    simpl; try reflexivity; lia.
Qed.

Lemma check_32bit_in_range v : returns_in_range (Environment.check_32bit v).
Proof. intros v' [-> H]%check_32bit_Ret. exact H. Qed.

Lemma bind_in_range {A} (m : outcome A) (k : A → outcome value) :
  (∀ a, returns_in_range (k a)) → returns_in_range (m ≫= k).
Proof. intros Hk v. destruct m as [a| | |]; simpl; try done. apply Hk. Qed.

Lemma multiply_loop_in_range result args :
  in_range result → returns_in_range (Environment.multiply_loop result args).
Proof.
  revert result. induction args as [|arg args IH]; intros result Hr v; simpl.
  - intros [= <-]. exists result. by destruct result.
  - destruct (as_number arg) as [y|].
    + destruct (Environment.check_32bit _) as [w| | |] eqn:Hc; simpl; try done.
      apply check_32bit_Ret in Hc as (_ & x & Hx & Hin).
      apply IH. by destruct (num_mul result y); simplify_eq/=.
    + by destruct result, arg.
Qed.

(** *** On numbers *)

(** [Fraction] puts a quotient in lowest terms. *)
Lemma Fraction_lowest_terms n d :
  d ≠ 0 →
  ∃ n' d', Fraction n d = NFrac n' d' ∧ n' * d = n * Z.pos d' ∧ Z.gcd n' (Z.pos d') = 1.
Proof.
  intros Hd. unfold Fraction.
  pose proof (Z.gcd_nonneg n d) as Hg0.
  assert (Z.gcd n d ≠ 0) as Hgne by (intros [_ ?]%Z.gcd_eq_0; done).
  destruct (Z.gcd_divide_l n d) as [n0 Hn], (Z.gcd_divide_r n d) as [d0 Hd0].
  pose proof (Z.gcd_div_gcd n d (Z.gcd n d) Hgne eq_refl) as Hcop.
  set (g := Z.gcd n d) in *.
  assert (n `div` g = n0) as Hn0 by (rewrite Hn at 1; by apply Z.div_mul).
  assert (d `div` g = d0) as Hd00 by (rewrite Hd0 at 1; by apply Z.div_mul).
  rewrite Hn0, Hd00 in Hcop.
  destruct (Z.ltb_spec d 0) as [Hneg|Hpos].
  - assert (n `div` (- g) = - n0) as ->.
    { rewrite Hn at 1. replace (n0 * g) with (- n0 * - g) by lia. apply Z.div_mul. lia. }
    assert (d `div` (- g) = - d0) as ->.
    { rewrite Hd0 at 1. replace (d0 * g) with (- d0 * - g) by lia. apply Z.div_mul. lia. }
    assert (0 < - d0) by nia.
    eexists _, _. split; [reflexivity|]. rewrite Z2Pos.id by done. split.
    + rewrite Hn, Hd0 at 1. lia.
    + by rewrite Z.gcd_opp_l, Z.gcd_opp_r.
  - rewrite Hn0, Hd00. assert (0 < d0) by nia.
    eexists _, _. split; [reflexivity|]. rewrite Z2Pos.id by done. split.
    + rewrite Hn, Hd0 at 1. lia.
    + done.
Qed.

(** The arithmetic of numbers is the arithmetic of rationals: the
    results, cross-multiplied. *)
Lemma denominator_pos x : 0 < denominator x.
Proof. destruct x; simpl; lia. Qed.

Lemma Fraction_exact n d :
  d ≠ 0 → numerator (Fraction n d) * d = n * denominator (Fraction n d).
Proof. intros Hd. by destruct (Fraction_lowest_terms n d Hd) as (n' & d' & -> & H & _). Qed.

Lemma num_add_exact x y :
  numerator (num_add x y) * (denominator x * denominator y)
  = (numerator x * denominator y + numerator y * denominator x) * denominator (num_add x y).
Proof.
  pose proof (denominator_pos x). pose proof (denominator_pos y).
  destruct x, y; try (apply Fraction_exact; simpl in *; lia). simpl. lia.
Qed.

Lemma num_sub_exact x y :
  numerator (num_sub x y) * (denominator x * denominator y)
  = (numerator x * denominator y - numerator y * denominator x) * denominator (num_sub x y).
Proof.
  pose proof (denominator_pos x). pose proof (denominator_pos y).
  destruct x, y; try (apply Fraction_exact; simpl in *; lia). simpl. lia.
Qed.

Lemma num_mul_exact x y :
  numerator (num_mul x y) * (denominator x * denominator y)
  = numerator x * numerator y * denominator (num_mul x y).
Proof.
  pose proof (denominator_pos x). pose proof (denominator_pos y).
  destruct x, y; try (apply Fraction_exact; simpl in *; lia). simpl. lia.
Qed.

Lemma py_sum_numbers args : ∀ xs acc,
  mapM as_number args = Some xs →
  Environment.py_sum acc args = Ret (foldl num_add acc xs).
Proof.
  induction args as [|a args IH]; intros xs acc Hxs.
  - by injection Hxs as <-.
  - simpl in Hxs. destruct (as_number a) as [y|] eqn:Ha; [|done].
    destruct (mapM as_number args) as [ys|] eqn:Hys; [|done].
    injection Hxs as <-. simpl. rewrite Ha. by apply IH.
Qed.

Lemma multiply_loop_numbers args : ∀ xs result,
  mapM as_number args = Some xs →
  (products_in_range result xs →
   Environment.multiply_loop result args = Ret (of_number (foldl num_mul result xs))) ∧
  (¬ products_in_range result xs →
   ∃ e, Integer_Overflow e ∧ Environment.multiply_loop result args = Raise e).
Proof.
  induction args as [|a args IH]; intros xs result Hxs.
  - injection Hxs as <-. split; [done|]. intros []. done.
  - simpl in Hxs. destruct (as_number a) as [y|] eqn:Ha; [|done].
    destruct (mapM as_number args) as [ys|] eqn:Hys; [|done].
    injection Hxs as <-. cbn [Environment.multiply_loop products_in_range foldl].
    rewrite Ha. destruct (check_32bit_checks (num_mul result y)) as [Hin Hout].
    destruct (IH ys (num_mul result y) eq_refl) as [IH1 IH2].
    destruct (decide (in_range (num_mul result y))) as [Hr|Hr].
    + rewrite (Hin Hr). cbn [mbind outcome_bind]. split.
      * intros [_ Hp]. by apply IH1.
      * intros Hp. apply IH2. tauto.
    + destruct (Hout Hr) as (e & He & ->). split; [tauto|]. intros _. by exists e.
Qed.

Lemma divide_numbers a b x y :
  as_number a = Some x → as_number b = Some y → numerator y ≠ 0 →
  Environment.divide a b
  = Environment.check_32bit
      (of_number (Fraction (numerator x * denominator y) (denominator x * numerator y))).
Proof.
  intros Ha Hb Hy. unfold Environment.divide.
  assert (py_eq b (VInt 0) = false) as ->.
  { destruct b; simplify_eq/=; unfold num_eqb; simpl; apply Z.eqb_neq; lia. }
  rewrite Ha, Hb. by destruct b.
Qed.

(** *** On integers *)

Lemma py_sum_ints acc zs :
  Environment.py_sum (NInt acc) (map VInt zs) = Ret (NInt (acc + foldr Z.add 0 zs)).
Proof.
  revert acc. induction zs as [|z zs IH]; intros acc; simpl.
  - by rewrite Z.add_0_r.
  - rewrite IH. do 2 f_equal. lia.
Qed.

Lemma multiply_loop_ints result zs :
  (partial_products_fit result zs = true →
   Environment.multiply_loop (NInt result) (map VInt zs)
   = Ret (VInt (result * foldr Z.mul 1 zs))) ∧
  (partial_products_fit result zs = false →
   ∃ e, Integer_Overflow e ∧
     Environment.multiply_loop (NInt result) (map VInt zs) = Raise e).
Proof.
  revert result. induction zs as [|z zs IH]; intros result; simpl.
  - rewrite Z.mul_1_r. split; [done|discriminate].
  - rewrite check_32bit_int. destruct (in_range_int (result * z)); simpl.
    + destruct (IH (result * z)) as [IH1 IH2]. split.
      * intros H. rewrite (IH1 H). do 2 f_equal. lia.
      * exact IH2.
    + split; [discriminate|]. intros _. eexists. split; [apply overflow_kind|reflexivity].
Qed.

Lemma py_lt_ints a b : py_lt (VInt a) (VInt b) = Ret (a <? b).
Proof.
  unfold py_lt. cbn [py_compare as_number mbind outcome_bind].
  unfold num_compare. cbn [numerator denominator].
  rewrite !Z.mul_1_r. unfold Z.ltb. by destruct (a ?= b).
Qed.

Lemma divide_ints a b :
  b ≠ 0 →
  Environment.divide (VInt a) (VInt b) = Environment.check_32bit (of_number (Fraction a b)).
Proof.
  intros Hb. rewrite (divide_numbers _ _ (NInt a) (NInt b)) by done.
  cbn [numerator denominator]. by rewrite Z.mul_1_r, Z.mul_1_l.
Qed.

(** *** The square root of an integer below 2^52 *)

(** A mantissa of 53 binary digits. *)
Lemma digits2_pos_bounds m :
  2 ^ (Z.pos (digits2_pos m) - 1) ≤ Z.pos m < 2 ^ Z.pos (digits2_pos m).
Proof.
  induction m as [m IH|m IH|]; cbn [digits2_pos]; [| |done].
  - rewrite Pos2Z.inj_succ, (Pos2Z.inj_xI m).
    replace (Z.succ (Z.pos (digits2_pos m)) - 1) with (Z.succ (Z.pos (digits2_pos m) - 1)) by lia.
    rewrite !Z.pow_succ_r by lia. lia.
  - rewrite Pos2Z.inj_succ, (Pos2Z.inj_xO m).
    replace (Z.succ (Z.pos (digits2_pos m)) - 1) with (Z.succ (Z.pos (digits2_pos m) - 1)) by lia.
    rewrite !Z.pow_succ_r by lia. lia.
Qed.

Lemma digits2_pos_53 m : 2 ^ 52 ≤ Z.pos m < 2 ^ 53 → digits2_pos m = 53%positive.
Proof.
  intros Hm. pose proof (digits2_pos_bounds m) as Hd.
  destruct (Z.lt_trichotomy (Z.pos (digits2_pos m)) 53) as [Hlt|[Heq|Hgt]]; [|lia|].
  - assert (2 ^ Z.pos (digits2_pos m) ≤ 2 ^ 52) by (apply Z.pow_le_mono_r; lia). lia.
  - assert (2 ^ 53 ≤ 2 ^ (Z.pos (digits2_pos m) - 1)) by (apply Z.pow_le_mono_r; lia). lia.
Qed.

(** Rounding a mantissa of 53 digits that stays one: nothing is shifted. *)
Lemma binary_round_aux_53 sx m e l m' :
  2 ^ 52 ≤ Z.pos m < 2 ^ 53 → 2 ^ 52 ≤ Z.pos m' < 2 ^ 53 →
  round_nearest_even (Z.pos m) l = Z.pos m' →
  -1074 ≤ e ≤ 971 →
  binary_round_aux 53 1024 sx (Z.pos m) e l = S754_finite sx m' e.
Proof.
  intros Hm Hm' Hr He. unfold binary_round_aux, shr_fexp. cbn [Zdigits2].
  rewrite (digits2_pos_53 m Hm).
  assert (fexp 53 1024 (53 + e) - e = 0) as -> by (unfold fexp, emin; lia).
  cbn [shr].
  assert (shr_m (shr_record_of_loc (Z.pos m) l) = Z.pos m) as -> by (by destruct l as [|[]]).
  assert (loc_of_shr_record (shr_record_of_loc (Z.pos m) l) = l) as ->
    by (by destruct l as [|[]]).
  rewrite Hr. cbn [Zdigits2]. rewrite (digits2_pos_53 m' Hm').
  assert (fexp 53 1024 (53 + e) - e = 0) as -> by (unfold fexp, emin; lia).
  cbn [shr shr_record_of_loc shr_m].
  destruct (Z.leb_spec e (1024 - 53)) as [_|?]; [done|lia].
Qed.

(** The conversion of a positive integer below 2^52: the integer, shifted
    to 53 digits. *)
Lemma float_of_int_below_2_52 p :
  Z.pos p < 2 ^ 52 →
  ∃ mx n, 0 < n ≤ 52 ∧ Z.pos mx = Z.pos p * 2 ^ n ∧ 2 ^ 52 ≤ Z.pos mx < 2 ^ 53 ∧
          float_of_int (Z.pos p) = Ret (S754_finite false mx (- n)).
Proof.
  intros Hp. pose proof (digits2_pos_bounds p) as Hd.
  set (d := Z.pos (digits2_pos p)) in *.
  assert (d ≤ 52) as Hd52.
  { destruct (Z.le_gt_cases d 52) as [|Hgt]; [done|].
    assert (2 ^ 52 ≤ 2 ^ (d - 1)) by (apply Z.pow_le_mono_r; lia). lia. }
  assert (0 < d) as Hd0 by done.
  assert (∃ n, fexp 53 1024 (d + 0) = Z.neg n ∧ Z.pos n = 53 - d) as (n & Hf & Hn).
  { exists (Z.to_pos (53 - d)). unfold fexp, emin. rewrite Z2Pos.id by lia. split; lia. }
  unfold float_of_int, binary_normalize, binary_round, shl_align. fold d.
  rewrite Hf, Z.sub_0_r. change (Pos.iter xO p n) with (shift_pos n p).
  assert (Z.pos (shift_pos n p) = Z.pos p * 2 ^ Z.pos n) as Hmx.
  { rewrite shift_pos_correct. change (Z.pow_pos 2 n) with (2 ^ Z.pos n). lia. }
  assert (2 ^ 52 ≤ Z.pos (shift_pos n p) < 2 ^ 53) as Hmx53.
  { rewrite Hmx. replace 52 with (d - 1 + Z.pos n) at 1 by lia.
    replace 53 with (d + Z.pos n) by lia. rewrite !Z.pow_add_r by lia.
    assert (0 < 2 ^ Z.pos n) by (apply Z.pow_pos_nonneg; lia). nia. }
  exists (shift_pos n p), (Z.pos n). split; [lia|]. split; [done|]. split; [done|].
  change (- Z.pos n) with (Z.neg n).
  by rewrite (binary_round_aux_53 false _ _ loc_Exact (shift_pos n p)) by (done || lia).
Qed.

(** The heart of the matter, on integers: the root [q] of [a], scaled by
    an even power [K * K] of two beyond 2^53, rounded to nearest and scaled
    back by [K], is the root of [a]. *)
Lemma scaled_root a K q r :
  0 ≤ a → 0 < K → (K | 2 ^ 53) → 2 ^ 53 < K * K →
  a * (K * K) = q * q + r → 0 ≤ r ≤ 2 * q → 0 ≤ q < 2 ^ 53 →
  q `div` K = Z.sqrt a ∧ (q < r → (q + 1) `div` K = Z.sqrt a ∧ q + 1 < 2 ^ 53).
Proof.
  intros Ha HK [c Hc] HKK Hqr Hr Hq. pose proof (Z.sqrt_spec a Ha) as Ht. cbn zeta in Ht.
  pose proof (Z.sqrt_nonneg a) as Ht0. set (t := Z.sqrt a) in *.
  assert (t * K ≤ q) as Hlow.
  { destruct (Z.le_gt_cases (t * K) q) as [|Hgt]; [done|]. exfalso.
    assert ((q + 1) * (q + 1) ≤ (t * K) * (t * K)) by nia.
    assert (t * K * (t * K) ≤ a * (K * K)) by nia. lia. }
  assert (q < (t + 1) * K) as Hup.
  { destruct (Z.lt_ge_cases q ((t + 1) * K)) as [|Hge]; [done|]. exfalso.
    assert ((t + 1) * K * ((t + 1) * K) ≤ q * q) by nia.
    assert (a * (K * K) < (t + 1) * K * ((t + 1) * K)) by nia. lia. }
  split.
  - apply Z.diveq. right. left. lia.
  - intros Hgt.
    assert (q + 1 < (t + 1) * K) as Hup'.
    { destruct (Z.lt_ge_cases (q + 1) ((t + 1) * K)) as [|Hge]; [done|]. exfalso.
      assert (q + 1 = (t + 1) * K) as HT by lia.
      assert (a + 1 ≤ (t + 1) * (t + 1)) as Ha1 by lia.
      assert ((a + 1) * (K * K) ≤ (t + 1) * (t + 1) * (K * K)) as Ha2
        by (apply Z.mul_le_mono_nonneg_r; nia).
      assert ((t + 1) * (t + 1) * (K * K) = (q + 1) * (q + 1)) as Ha3 by (rewrite HT; ring).
      nia. }
    split.
    + apply Z.diveq. right. left. lia.
    + assert (t * K < 2 ^ 53) by lia.
      destruct (Z.lt_ge_cases (q + 1) (2 ^ 53)) as [|Hge]; [done|]. exfalso.
      assert (q + 1 = c * K) as Hq1 by lia.
      assert (t < c) by nia. assert ((t + 1) * K ≤ c * K) by nia. lia.
Qed.

(** The root of such a double, truncated, is the integer root. *)
Lemma int_of_sqrt_below_2_52 a mx n :
  0 < n ≤ 52 → Z.pos mx = a * 2 ^ n → 2 ^ 52 ≤ Z.pos mx < 2 ^ 53 →
  int_of_float (math_sqrt (S754_finite false mx (- n))) = Ret (Z.sqrt a).
Proof.
  intros Hn Hmx Hmx53.
  assert (0 < 2 ^ n) as Hn2 by (apply Z.pow_pos_nonneg; lia).
  assert (0 ≤ a) as Ha by nia.
  set (k := 26 - (- n) `div` 2).
  assert (27 ≤ k ≤ 52) as Hk by (unfold k; Z.div_mod_to_equations; lia).
  assert (n = 2 * k - 52 ∨ n = 2 * k - 53) as Hnk by (unfold k; Z.div_mod_to_equations; lia).
  assert ((- n) `div` 2 = 26 - k) as Hdiv by (unfold k; lia).
  assert ((53 + - n + 1) `div` 2 = 53 - k) as Hdiv' by (Z.div_mod_to_equations; lia).
  clearbody k.
  set (K := 2 ^ k).
  assert (0 < K) as HK by (apply Z.pow_pos_nonneg; lia).
  assert (K | 2 ^ 53) as HK53.
  { exists (2 ^ (53 - k)). unfold K. rewrite <- Z.pow_add_r by lia. f_equal. lia. }
  assert (2 ^ 53 < K * K) as HKK.
  { unfold K. rewrite <- Z.pow_add_r by lia.
    assert (2 ^ 54 ≤ 2 ^ (k + k)) by (apply Z.pow_le_mono_r; lia). lia. }
  assert (∃ s, - n - 2 * - k = Z.pos s ∧ n + Z.pos s = k + k ∧ 52 ≤ Z.pos s ≤ 53)
    as (s & Hs & Hns & Hs52).
  { exists (Z.to_pos (- n - 2 * - k)). rewrite Z2Pos.id by lia. lia. }
  assert (Z.pos mx * 2 ^ Z.pos s = a * (K * K)) as Hm'.
  { rewrite Hmx. unfold K. rewrite <- !Z.mul_assoc, <- !Z.pow_add_r by lia. by rewrite Hns. }
  assert (2 ^ 52 * 2 ^ 52 ≤ a * (K * K) < 2 ^ 53 * 2 ^ 53) as Hbounds.
  { rewrite <- Hm'.
    assert (2 ^ 52 ≤ 2 ^ Z.pos s) by (apply Z.pow_le_mono_r; lia).
    assert (2 ^ Z.pos s ≤ 2 ^ 53) by (apply Z.pow_le_mono_r; lia). nia. }
  unfold math_sqrt, SFsqrt, SFsqrt_core_binary. cbn [Zdigits2].
  rewrite (digits2_pos_53 mx Hmx53), !Z.div2_div.
  rewrite Hdiv, Hdiv'.
  assert (Z.min (fexp 53 1024 (53 - k)) (26 - k) = - k) as -> by (unfold fexp, emin; lia).
  cbv zeta. rewrite Hs, Z.shiftl_mul_pow2, Hm' by lia.
  pose proof (Z.sqrtrem_spec (a * (K * K))) as Hspec.
  destruct (Z.sqrtrem (a * (K * K))) as [q r]. destruct Hspec as [Hqr Hr]; [lia|].
  assert (2 ^ 52 ≤ q < 2 ^ 53) as Hq by nia.
  destruct (scaled_root a K q r) as [Hdown Hup]; [done || lia ..|].
  destruct q as [|q|q]; [lia| |lia].
  assert (∀ m, 2 ^ 52 ≤ Z.pos m < 2 ^ 53 →
            int_of_float (S754_finite false m (- k)) = Ret (Z.pos m `div` K)) as Hint.
  { intros m _. unfold int_of_float. destruct (Z.leb_spec 0 (- k)) as [|_]; [lia|].
    by rewrite Z.opp_involutive. }
  destruct (Z.eqb_spec r 0) as [Hr0|Hr0]; [|destruct (Z.leb_spec r (Z.pos q)) as [Hle|Hgt]].
  - rewrite (binary_round_aux_53 false q (- k) loc_Exact q) by (done || lia).
    by rewrite Hint, Hdown.
  - rewrite (binary_round_aux_53 false q (- k) (loc_Inexact Lt) q) by (done || lia).
    by rewrite Hint, Hdown.
  - destruct (Hup Hgt) as [Hup1 Hup2].
    rewrite (binary_round_aux_53 false q (- k) (loc_Inexact Gt) (q + 1)) by (done || lia).
    rewrite Hint by lia. by rewrite Pos2Z.inj_add, Hup1.
Qed.

(** The square root of an integer from 0 below 2^52 is its integer root. *)
Lemma sqrt_below_2_52 a :
  0 ≤ a < 2 ^ 52 → Environment.sqrt (VInt a) = Ret (VInt (Z.sqrt a)).
Proof.
  intros Ha. unfold Environment.sqrt. rewrite py_lt_ints.
  destruct (Z.ltb_spec a 0) as [|_]; [lia|]. cbn [mbind outcome_bind].
  unfold Environment.to_float. cbn [as_number].
  assert (in_range_int (Z.sqrt a) = true) as Hin.
  { pose proof (Z.sqrt_nonneg a). pose proof (Z.sqrt_spec a (proj1 Ha)) as Hs. cbn zeta in Hs.
    unfold in_range_int, Environment.INT_MIN, Environment.INT_MAX.
    apply andb_true_iff. split; apply Z.leb_le; [lia|].
    destruct (Z.le_gt_cases (Z.sqrt a) 2147483647) as [|Hgt]; [done|]. exfalso.
    assert (2147483648 * 2147483648 ≤ Z.sqrt a * Z.sqrt a) by nia. lia. }
  destruct a as [|p|p]; [by vm_compute| |lia].
  destruct (float_of_int_below_2_52 p) as (mx & n & Hn & Hmx & Hmx53 & ->); [lia|].
  cbn [mbind outcome_bind]. rewrite (int_of_sqrt_below_2_52 (Z.pos p) mx n) by done.
  cbn [mbind outcome_bind]. by rewrite check_32bit_int, Hin.
Qed.

(** *** The square root of any integer that is not negative *)

Lemma digits2_pos_unique m d :
  2 ^ (d - 1) ≤ Z.pos m < 2 ^ d → Z.pos (digits2_pos m) = d.
Proof.
  intros Hm. pose proof (digits2_pos_bounds m) as Hd.
  assert (0 < d) as Hd0.
  { destruct (Z.lt_ge_cases 0 d) as [|Hle]; [done|]. exfalso.
    assert (2 ^ d ≤ 2 ^ 0) by (apply Z.pow_le_mono_r; lia). lia. }
  destruct (Z.lt_trichotomy (Z.pos (digits2_pos m)) d) as [Hlt|[Heq|Hgt]]; [|done|].
  - assert (2 ^ Z.pos (digits2_pos m) ≤ 2 ^ (d - 1)) by (apply Z.pow_le_mono_r; lia). lia.
  - assert (2 ^ d ≤ 2 ^ (Z.pos (digits2_pos m) - 1)) by (apply Z.pow_le_mono_r; lia). lia.
Qed.

(** Shifting to the right divides the mantissa. *)
Lemma shr_m_shr_1 mrs : 0 ≤ shr_m mrs → shr_m (shr_1 mrs) = shr_m mrs `div` 2.
Proof.
  destruct mrs as [m r s]. cbn [shr_m]. intros Hm. unfold shr_1.
  destruct m as [|[p|p|]|p]; cbn [shr_m]; [done| | |done|lia].
  - rewrite (Pos2Z.inj_xI p). symmetry. apply Z.diveq. lia.
  - rewrite (Pos2Z.inj_xO p). symmetry. apply Z.diveq. lia.
Qed.

Lemma shr_m_iter_pos n : ∀ mrs,
  0 ≤ shr_m mrs → shr_m (SpecFloat.iter_pos shr_1 n mrs) = shr_m mrs `div` 2 ^ Z.pos n.
Proof.
  assert (∀ mrs, 0 ≤ shr_m mrs → 0 ≤ shr_m (shr_1 mrs)) as Hpos1.
  { intros mrs H. rewrite shr_m_shr_1 by done. by apply Z.div_pos. }
  induction n as [n IH|n IH|]; intros mrs Hm; cbn [SpecFloat.iter_pos].
  - assert (0 ≤ shr_m (SpecFloat.iter_pos shr_1 n (shr_1 mrs))) as H1.
    { rewrite IH by auto. apply Z.div_pos; [auto|]. by apply Z.pow_pos_nonneg. }
    rewrite IH, IH, shr_m_shr_1 by auto.
    rewrite !Z.div_div by (done || by apply Z.pow_pos_nonneg || lia).
    f_equal. rewrite (Pos2Z.inj_xI n).
    replace (2 * Z.pos n + 1) with (1 + Z.pos n + Z.pos n) by lia.
    rewrite !Z.pow_add_r by lia. change (2 ^ 1) with 2. ring.
  - assert (0 ≤ shr_m (SpecFloat.iter_pos shr_1 n mrs)) as H1.
    { rewrite IH by auto. apply Z.div_pos; [auto|]. by apply Z.pow_pos_nonneg. }
    rewrite IH, IH by auto.
    rewrite !Z.div_div by (done || by apply Z.pow_pos_nonneg || lia).
    f_equal. rewrite (Pos2Z.inj_xO n).
    replace (2 * Z.pos n) with (Z.pos n + Z.pos n) by lia.
    rewrite !Z.pow_add_r by lia. ring.
  - by rewrite shr_m_shr_1.
Qed.

Lemma round_nearest_even_bounds m l :
  round_nearest_even m l = m ∨ round_nearest_even m l = m + 1.
Proof. destruct l as [|[]]; cbn [round_nearest_even]; auto. destruct (Z.even m); auto. Qed.

(** Rounding a mantissa [p] of [53 + n] digits, as far as it matters
    here: the result has the mantissa [p / 2^n] or the next one, and it is
    [p] when nothing is shifted and the location is below the middle. *)
Lemma binary_round_aux_bounds sx p e l n :
  0 ≤ n → 2 ^ (52 + n) ≤ Z.pos p < 2 ^ (53 + n) → -1074 ≤ e →
  ∃ m e', 2 ^ 52 ≤ Z.pos m < 2 ^ 53 ∧
    ((e' = e + n ∧ (Z.pos m = Z.pos p `div` 2 ^ n ∨ Z.pos m = Z.pos p `div` 2 ^ n + 1)) ∨
     (e' = e + n + 1 ∧ Z.pos m = 2 ^ 52 ∧ Z.pos p `div` 2 ^ n + 1 = 2 ^ 53)) ∧
    (n = 0 → l = loc_Exact ∨ l = loc_Inexact Lt → m = p ∧ e' = e) ∧
    binary_round_aux 53 1024 sx (Z.pos p) e l
    = if e' <=? 971 then S754_finite sx m e' else S754_infinity sx.
Proof.
  intros Hn Hp He.
  assert (0 < 2 ^ n) as Hn2 by (by apply Z.pow_pos_nonneg).
  assert (2 ^ 52 ≤ Z.pos p `div` 2 ^ n < 2 ^ 53) as Hm1.
  { rewrite !(Z.add_comm _ n), !Z.pow_add_r in Hp by lia. split.
    - apply Z.div_le_lower_bound; lia.
    - apply Z.div_lt_upper_bound; lia. }
  unfold binary_round_aux, shr_fexp. cbn [Zdigits2].
  rewrite (digits2_pos_unique p (53 + n)) by (by replace (53 + n - 1) with (52 + n) by lia).
  assert (fexp 53 1024 (53 + n + e) - e = n) as -> by (unfold fexp, emin; lia).
  assert (∃ mrs, shr (shr_record_of_loc (Z.pos p) l) e n = (mrs, e + n) ∧
                 shr_m mrs = Z.pos p `div` 2 ^ n ∧
                 (n = 0 → loc_of_shr_record mrs = l)) as (mrs & -> & Hmrs & Hloc).
  { assert (shr_m (shr_record_of_loc (Z.pos p) l) = Z.pos p) as Hrec
      by (by destruct l as [|[]]).
    destruct n as [|n|n]; [| |lia].
    - eexists. split; [by rewrite Z.add_0_r|]. split.
      + by rewrite Hrec, Z.div_1_r.
      + intros _. by destruct l as [|[]].
    - eexists. split; [reflexivity|]. split; [|done].
      by rewrite shr_m_iter_pos, Hrec by (by rewrite Hrec). }
  rewrite Hmrs.
  set (m1 := Z.pos p `div` 2 ^ n) in *. set (l1 := loc_of_shr_record mrs) in *.
  destruct (Z.eq_dec (round_nearest_even m1 l1) (2 ^ 53)) as [Hup|Hnup].
  - rewrite Hup. exists (2 ^ 52)%positive, (e + n + 1).
    split; [done|]. split; [right|split].
    + destruct (round_nearest_even_bounds m1 l1); lia.
    + intros Hn0 Hl. exfalso. rewrite (Hloc Hn0) in Hup. destruct Hl as [->| ->].
      * cbn [round_nearest_even] in Hup. lia.
      * cbn [round_nearest_even] in Hup. lia.
    + change (Zdigits2 (2 ^ 53)) with 54.
      assert (fexp 53 1024 (54 + (e + n)) - (e + n) = 1) as -> by (unfold fexp, emin; lia).
      done.
  - assert (2 ^ 52 ≤ round_nearest_even m1 l1 < 2 ^ 53) as Hm2
      by (destruct (round_nearest_even_bounds m1 l1); lia).
    destruct (round_nearest_even m1 l1) as [|m2|m2] eqn:Hround; [lia| |lia].
    exists m2, (e + n). split; [done|]. split; [left|split].
    + split; [done|]. destruct (round_nearest_even_bounds m1 l1); lia.
    + intros Hn0 Hl. split; [|lia]. rewrite (Hloc Hn0) in Hround. subst n.
      unfold m1 in Hround. rewrite Z.div_1_r in Hround.
      destruct Hl as [->| ->]; cbn [round_nearest_even] in Hround; congruence.
    + cbn [Zdigits2]. rewrite (digits2_pos_53 m2 Hm2).
      assert (fexp 53 1024 (53 + (e + n)) - (e + n) = 0) as -> by (unfold fexp, emin; lia).
      done.
Qed.

(** The conversion of an integer of [53 + n] digits: its first 53 digits,
    or the next mantissa, unless the exponent is beyond the doubles. *)
Lemma float_of_int_from_2_52 p n :
  0 ≤ n → 2 ^ (52 + n) ≤ Z.pos p < 2 ^ (53 + n) →
  ∃ m e, 2 ^ 52 ≤ Z.pos m < 2 ^ 53 ∧
    ((e = n ∧ (Z.pos m = Z.pos p `div` 2 ^ n ∨ Z.pos m = Z.pos p `div` 2 ^ n + 1)) ∨
     (e = n + 1 ∧ Z.pos m = 2 ^ 52 ∧ Z.pos p `div` 2 ^ n + 1 = 2 ^ 53)) ∧
    float_of_int (Z.pos p)
    = if e <=? 971 then Ret (S754_finite false m e)
      else Raise (Exn OverflowError "int too large to convert to float").
Proof.
  intros Hn Hp.
  destruct (binary_round_aux_bounds false p 0 loc_Exact n) as (m & e & Hm & He & _ & Hround);
    [done..|].
  exists m, e. split; [done|]. split; [by rewrite !Z.add_0_l in He|].
  unfold float_of_int, binary_normalize, binary_round, shl_align.
  rewrite (digits2_pos_unique p (53 + n)) by (by replace (53 + n - 1) with (52 + n) by lia).
  assert (fexp 53 1024 (53 + n + 0) - 0 = n) as -> by (unfold fexp, emin; lia).
  assert (match n with
          | Z.neg d => (Pos.iter xO p d, fexp 53 1024 (53 + n + 0))
          | _ => (p, 0)
          end = (p, 0)) as -> by (destruct n; [done|done|lia]).
  rewrite Hround. by destruct (e <=? 971).
Qed.

(** The root of a double with a mantissa of 53 digits and an exponent
    that is not negative, truncated: the root [q] of the mantissa, scaled
    to 105 or 106 digits, or [q + 1] when the remainder is beyond [q],
    scaled back. *)
Lemma int_of_sqrt_finite m e :
  2 ^ 52 ≤ Z.pos m < 2 ^ 53 → 0 ≤ e ≤ 971 →
  ∃ q r q', Z.pos m * 2 ^ (52 + e `mod` 2) = q * q + r ∧ 0 ≤ r ≤ 2 * q ∧
    2 ^ 52 ≤ q < 2 ^ 53 ∧ (q' = q ∨ (q' = q + 1 ∧ q < r)) ∧
    int_of_float (math_sqrt (S754_finite false m e))
    = Ret (if e <? 52 then q' `div` 2 ^ (26 - e `div` 2) else q' * 2 ^ (e `div` 2 - 26)).
Proof.
  intros Hm He.
  set (e' := e `div` 2 - 26).
  assert (-26 ≤ e' ≤ 460) as He' by (unfold e'; Z.div_mod_to_equations; lia).
  assert (e `div` 2 = e' + 26) as Hdiv by (unfold e'; lia).
  assert ((53 + e + 1) `div` 2 = e' + 53) as Hdiv' by (Z.div_mod_to_equations; lia).
  assert (e `mod` 2 = e - 2 * e' - 52) as Hmod by (Z.div_mod_to_equations; lia).
  assert (0 ≤ e `mod` 2 < 2) as Hmod2 by (by apply Z.mod_pos_bound).
  assert ((e <? 52) = (e' <? 0)) as Hlt.
  { destruct (Z.ltb_spec e 52), (Z.ltb_spec e' 0); try done; Z.div_mod_to_equations; lia. }
  clearbody e'.
  unfold math_sqrt, SFsqrt, SFsqrt_core_binary. cbn [Zdigits2].
  rewrite (digits2_pos_53 m Hm), !Z.div2_div, Hdiv, Hdiv'.
  assert (Z.min (fexp 53 1024 (e' + 53)) (e' + 26) = e') as -> by (unfold fexp, emin; lia).
  cbv zeta.
  assert (∃ s, e - 2 * e' = Z.pos s ∧ Z.pos s = 52 + e `mod` 2) as (s & -> & Hs).
  { exists (Z.to_pos (e - 2 * e')). rewrite Z2Pos.id by lia. lia. }
  rewrite Z.shiftl_mul_pow2, Hs by lia.
  assert (2 ^ 52 * 2 ^ 52 ≤ Z.pos m * 2 ^ (52 + e `mod` 2) < 2 ^ 53 * 2 ^ 53) as Hbounds.
  { assert (2 ^ 52 ≤ 2 ^ (52 + e `mod` 2)) by (apply Z.pow_le_mono_r; lia).
    assert (2 ^ (52 + e `mod` 2) ≤ 2 ^ 53) by (apply Z.pow_le_mono_r; lia). nia. }
  pose proof (Z.sqrtrem_spec (Z.pos m * 2 ^ (52 + e `mod` 2))) as Hspec.
  destruct (Z.sqrtrem (Z.pos m * 2 ^ (52 + e `mod` 2))) as [q r].
  destruct Hspec as [Hqr Hr]; [lia|].
  assert (2 ^ 52 ≤ q < 2 ^ 53) as Hq by nia.
  destruct q as [|q|q]; [lia| |lia].
  set (l := if r =? 0 then loc_Exact else loc_Inexact (if r <=? Z.pos q then Lt else Gt)).
  destruct (binary_round_aux_bounds false q e' l 0) as (m2 & e2 & Hm2 & He2 & Hdown & ->);
    [done|done|lia|].
  rewrite Z.add_0_r, Z.div_1_r in He2.
  assert ((e2 <=? 971) = true) as -> by (apply Z.leb_le; lia).
  assert (r ≤ Z.pos q → m2 = q ∧ e2 = e') as Hdown'.
  { intros Hle. apply Hdown; [done|]. unfold l.
    destruct (Z.eqb_spec r 0); [by left|]. right.
    by destruct (Z.leb_spec r (Z.pos q)); [|lia]. }
  exists (Z.pos q), r, (Z.pos m2 * 2 ^ (e2 - e')).
  split; [done|]. split; [done|]. split; [done|]. split.
  - destruct (Z.le_gt_cases r (Z.pos q)) as [Hle|Hgt].
    + destruct (Hdown' Hle) as [-> ->]. left. rewrite Z.sub_diag. lia.
    + destruct He2 as [[-> [Heq|Heq]]|(-> & Heq & Heq')].
      * left. rewrite Z.sub_diag. lia.
      * right. rewrite Z.sub_diag. lia.
      * right. replace (e' + 1 - e') with 1 by lia. rewrite Heq. split; [|done].
        change (2 ^ 52 * 2 ^ 1) with (2 ^ 53). lia.
  - unfold int_of_float. f_equal. rewrite Hlt. replace (26 - (e' + 26)) with (- e') by lia.
    replace (e' + 26 - 26) with e' by lia.
    destruct He2 as [[-> _]|(-> & Heq & _)].
    + rewrite Z.sub_diag, Z.mul_1_r.
      by destruct (Z.leb_spec 0 e'), (Z.ltb_spec e' 0); try lia.
    + replace (e' + 1 - e') with 1 by lia. rewrite Heq.
      change (2 ^ 52 * 2 ^ 1) with (2 ^ 53).
      destruct (Z.leb_spec 0 (e' + 1)), (Z.ltb_spec e' 0); try lia.
      * assert (e' = -1) as -> by lia. done.
      * rewrite Z.pow_add_r by lia. change (2 ^ 1) with 2.
        change (2 ^ 53) with (2 ^ 52 * 2). lia.
      * replace (- (e' + 1)) with (52 - (53 + e')) by lia.
        replace (- e') with (53 - (53 + e')) by lia.
        rewrite <- !Z.pow_sub_r by lia. f_equal. lia.
Qed.

(** Up to the double 2^62 - 512 the truncated root is below 2^31. *)
Lemma int_of_sqrt_fits m e :
  2 ^ 52 ≤ Z.pos m < 2 ^ 53 → 0 ≤ e ≤ 9 → Z.pos m * 2 ^ e ≤ 2 ^ 62 - 512 →
  ∃ r, int_of_float (math_sqrt (S754_finite false m e)) = Ret r ∧ 0 ≤ r ≤ 2147483647.
Proof.
  intros Hm He Hx.
  destruct (int_of_sqrt_finite m e) as (q & r0 & q' & Hqr & Hr0 & Hq & Hq' & ->); [done|lia|].
  destruct (Z.ltb_spec e 52) as [_|?]; [|lia].
  set (K := 2 ^ (26 - e `div` 2)) in *.
  assert (2 ^ 22 ≤ K) as HK.
  { apply Z.pow_le_mono_r; [done|]. Z.div_mod_to_equations; lia. }
  assert (2 ^ (52 + e `mod` 2) = 2 ^ e * (K * K)) as HKK.
  { unfold K. rewrite <- !Z.pow_add_r by (Z.div_mod_to_equations; lia).
    f_equal. Z.div_mod_to_equations; lia. }
  rewrite HKK in Hqr.
  assert (q * q + r0 ≤ (2 ^ 62 - 512) * (K * K)) as Hup.
  { rewrite <- Hqr, Z.mul_assoc. apply Z.mul_le_mono_nonneg_r; nia. }
  assert (q < 2 ^ 31 * K) as Hlt.
  { destruct (Z.lt_ge_cases q (2 ^ 31 * K)) as [|Hge]; [done|]. exfalso.
    assert (2 ^ 31 * K * (2 ^ 31 * K) ≤ q * q) by nia. nia. }
  assert (q' < 2 ^ 31 * K) as Hlt'.
  { destruct Hq' as [->|[-> Hgt]]; [done|].
    destruct (Z.lt_ge_cases (q + 1) (2 ^ 31 * K)) as [|Hge]; [done|]. exfalso.
    assert (q + 1 = 2 ^ 31 * K) as HT by lia.
    assert ((q + 1) * (q + 1) - (q + 1) + 1 ≤ (2 ^ 62 - 512) * (K * K)) as H1 by nia.
    rewrite HT in H1. nia. }
  eexists. split; [reflexivity|]. split.
  - apply Z.div_pos; lia.
  - assert (q' `div` K < 2 ^ 31); [|lia]. apply Z.div_lt_upper_bound; lia.
Qed.

(** From the exponent 10 on the truncated root is 2^31 or more. *)
Lemma int_of_sqrt_exceeds m e :
  2 ^ 52 ≤ Z.pos m < 2 ^ 53 → 10 ≤ e ≤ 971 →
  ∃ r, int_of_float (math_sqrt (S754_finite false m e)) = Ret r ∧ 2147483648 ≤ r.
Proof.
  intros Hm He.
  destruct (int_of_sqrt_finite m e) as (q & r0 & q' & Hqr & Hr0 & Hq & Hq' & ->); [done|lia|].
  assert (2 ^ 52 ≤ q') as Hq'52 by (destruct Hq' as [->|[-> _]]; lia).
  eexists. split; [reflexivity|]. destruct (Z.ltb_spec e 52) as [Hlt|Hge].
  - assert (0 < 2 ^ (26 - e `div` 2)) as HK
      by (apply Z.pow_pos_nonneg; [done|Z.div_mod_to_equations; lia]).
    assert (2 ^ (26 - e `div` 2) ≤ 2 ^ 21) as HK21.
    { apply Z.pow_le_mono_r; [done|]. Z.div_mod_to_equations; lia. }
    apply Z.div_le_lower_bound; [done|]. nia.
  - assert (1 ≤ 2 ^ (e `div` 2 - 26)) as HK.
    { change 1 with (2 ^ 0). apply Z.pow_le_mono_r; [done|]. Z.div_mod_to_equations; lia. }
    nia.
Qed.

(** The 512 integers below 2^62, one by one. *)
Lemma sqrt_near_2_62 :
  forallb (λ c : nat,
    match Environment.sqrt (VInt (4611686018427387392 + Z.of_nat c)) with
    | Ret (VInt r) => (c <? 256)%nat && (r =? 2147483647)
    | Raise (Exn OverflowError msg) =>
        (256 <=? c)%nat && String.eqb msg "Integer overflow: 2147483648"
    | _ => false
    end) (seq 0 512) = true.
Proof. vm_compute. reflexivity. Qed.

(** [sqrt] of an integer from 0 below 2^62 - 256 returns. *)
Lemma sqrt_returns_below a :
  0 ≤ a < 2 ^ 62 - 256 → ∃ r, Environment.sqrt (VInt a) = Ret (VInt r).
Proof.
  intros Ha.
  destruct (Z.lt_ge_cases a (2 ^ 52)) as [Hlow|H52].
  { eexists. apply sqrt_below_2_52. lia. }
  destruct (Z.lt_ge_cases a (2 ^ 62 - 512)) as [Hmid|Hhigh].
  - unfold Environment.sqrt. rewrite py_lt_ints.
    destruct (Z.ltb_spec a 0) as [|_]; [lia|]. cbn [mbind outcome_bind].
    unfold Environment.to_float. cbn [as_number].
    destruct a as [|p|p]; [lia| |lia].
    set (n := Z.log2 (Z.pos p) - 52).
    assert (0 ≤ n ≤ 9) as Hn.
    { unfold n. split.
      - assert (52 ≤ Z.log2 (Z.pos p)) by (by apply Z.log2_le_pow2); lia.
      - assert (Z.log2 (Z.pos p) < 62); [|lia]. apply Z.log2_lt_pow2; [done|]. lia. }
    assert (2 ^ (52 + n) ≤ Z.pos p < 2 ^ (53 + n)) as Hp.
    { pose proof (Z.log2_spec (Z.pos p) eq_refl) as Hspec. unfold n.
      replace (52 + (Z.log2 (Z.pos p) - 52)) with (Z.log2 (Z.pos p)) by lia.
      by replace (53 + (Z.log2 (Z.pos p) - 52)) with (Z.succ (Z.log2 (Z.pos p))) by lia. }
    clearbody n.
    destruct (float_of_int_from_2_52 p n) as (m & e & Hm & He & ->); [lia|done|].
    assert (0 ≤ e ≤ 9 ∧ Z.pos m * 2 ^ e ≤ 2 ^ 62 - 512) as [He9 Hx].
    { assert (n = 0 ∨ n = 1 ∨ n = 2 ∨ n = 3 ∨ n = 4 ∨ n = 5 ∨ n = 6 ∨ n = 7 ∨ n = 8 ∨ n = 9)
        as Hcases by lia.
      destruct Hcases as [->|[->|[->|[->|[->|[->|[->|[->|[->| ->]]]]]]]]];
        (destruct He as [[-> [Heq|Heq]]|(-> & Heq & Heq')];
         [split; [lia|]; rewrite Heq; Z.div_mod_to_equations; lia ..
         |try (split; [lia|]; rewrite Heq; done); Z.div_mod_to_equations; lia]). }
    assert ((e <=? 971) = true) as -> by (apply Z.leb_le; lia).
    cbn [mbind outcome_bind].
    destruct (int_of_sqrt_fits m e Hm He9 Hx) as (r & -> & Hr).
    cbn [mbind outcome_bind]. exists r. rewrite check_32bit_int.
    assert (in_range_int r = true) as ->; [|done].
    unfold in_range_int, Environment.INT_MIN, Environment.INT_MAX.
    apply andb_true_iff. split; apply Z.leb_le; lia.
  - pose proof sqrt_near_2_62 as Hall. rewrite forallb_forall in Hall.
    specialize (Hall (Z.to_nat (a - 4611686018427387392))).
    rewrite Z2Nat.id in Hall by lia.
    replace (4611686018427387392 + (a - 4611686018427387392)) with a in Hall by lia.
    destruct (Environment.sqrt (VInt a)) as [[r| | | | |]|[[] msg]| |];
      try (by (exfalso; apply diff_false_true, Hall, in_seq; lia)).
    + by exists r.
    + exfalso. assert (in_seq_a : In (Z.to_nat (a - 4611686018427387392)) (seq 0 512))
        by (apply in_seq; lia).
      apply Hall in in_seq_a. apply andb_true_iff in in_seq_a as [Hc _].
      apply Nat.leb_le in Hc. lia.
Qed.

(** [sqrt] of an integer from 2^62 - 256 on fails: with Integer-Overflow
    below 2^1023, and beyond with that or the error of the conversion. *)
Lemma sqrt_overflows_from a :
  2 ^ 62 - 256 ≤ a →
  (∃ e, Integer_Overflow e ∧ Environment.sqrt (VInt a) = Raise e) ∨
  (2 ^ 1023 ≤ a ∧
   Environment.sqrt (VInt a)
   = Raise (Exn OverflowError "int too large to convert to float")).
Proof.
  intros Ha.
  destruct (Z.lt_ge_cases a (2 ^ 62)) as [Hlow|H62].
  - left. pose proof sqrt_near_2_62 as Hall. rewrite forallb_forall in Hall.
    specialize (Hall (Z.to_nat (a - 4611686018427387392))).
    rewrite Z2Nat.id in Hall by lia.
    replace (4611686018427387392 + (a - 4611686018427387392)) with a in Hall by lia.
    assert (In (Z.to_nat (a - 4611686018427387392)) (seq 0 512)) as Hin
      by (apply in_seq; lia).
    apply Hall in Hin.
    destruct (Environment.sqrt (VInt a)) as [[r| | | | |]|[[] msg]| |]; try done.
    + apply andb_true_iff in Hin as [Hc _]. apply Nat.ltb_lt in Hc. lia.
    + apply andb_true_iff in Hin as [_ Hmsg]. apply String.eqb_eq in Hmsg as ->.
      eexists. split; [|reflexivity]. by exists "2147483648".
  - unfold Environment.sqrt. rewrite py_lt_ints.
    destruct (Z.ltb_spec a 0) as [|_]; [lia|]. cbn [mbind outcome_bind].
    unfold Environment.to_float. cbn [as_number].
    destruct a as [|p|p]; [lia| |lia].
    set (n := Z.log2 (Z.pos p) - 52).
    assert (10 ≤ n) as Hn.
    { unfold n. assert (62 ≤ Z.log2 (Z.pos p)) by (by apply Z.log2_le_pow2). lia. }
    assert (2 ^ (52 + n) ≤ Z.pos p < 2 ^ (53 + n)) as Hp.
    { pose proof (Z.log2_spec (Z.pos p) eq_refl) as Hspec. unfold n.
      replace (52 + (Z.log2 (Z.pos p) - 52)) with (Z.log2 (Z.pos p)) by lia.
      by replace (53 + (Z.log2 (Z.pos p) - 52)) with (Z.succ (Z.log2 (Z.pos p))) by lia. }
    clearbody n.
    destruct (float_of_int_from_2_52 p n) as (m & e & Hm & He & ->); [lia|done|].
    assert (n ≤ e ≤ n + 1) as He' by (destruct He as [[-> _]|[-> _]]; lia).
    destruct (Z.leb_spec e 971) as [Hfin|Hinf].
    + left. cbn [mbind outcome_bind].
      destruct (int_of_sqrt_exceeds m e Hm) as (r & -> & Hr); [lia|].
      cbn [mbind outcome_bind]. rewrite check_32bit_int.
      assert (in_range_int r = false) as ->.
      { unfold in_range_int, Environment.INT_MAX. apply andb_false_iff. right.
        apply Z.leb_gt. lia. }
      eexists. split; [apply overflow_kind|reflexivity].
    + right. split; [|done].
      assert (2 ^ 1023 ≤ 2 ^ (52 + n)) by (apply Z.pow_le_mono_r; lia). lia.
Qed.

(** *** Powers *)

(** [a ** b] for a number [a] and an integer [b] that is not negative:
    the power of the rational [a]. *)
Lemma py_pow_nonneg a b x p :
  as_number a = Some x → as_number b = Some (NInt p) → 0 ≤ p →
  ∃ y, numerator y * denominator x ^ p = numerator x ^ p * denominator y ∧
       Environment.py_pow a b = Ret y.
Proof.
  intros Ha Hb Hp. unfold Environment.py_pow. rewrite Ha, Hb. destruct x as [z|n d].
  - exists (NInt (z ^ p)). unfold Environment.int_pow.
    destruct (Z.leb_spec 0 p); [|lia]. split; [|done].
    cbn [numerator denominator]. rewrite Z.pow_1_l by done. lia.
  - exists (NFrac (n ^ p) (Z.to_pos (Z.pos d ^ p))). unfold Environment.frac_pow.
    destruct (Z.leb_spec 0 p); [|lia]. split; [|done].
    cbn [numerator denominator]. rewrite Z2Pos.id by (apply Z.pow_pos_nonneg; lia). lia.
Qed.

(** [Fraction(n, d) ** b] for a negative integer [b] and a [Fraction]
    other than 0: the power of its inverse. *)
Lemma py_pow_negative n d b p :
  as_number b = Some (NInt p) → p < 0 → n ≠ 0 →
  ∃ y, numerator y * n ^ (- p) = Z.pos d ^ (- p) * denominator y ∧
       Environment.py_pow (VFrac n d) b = Ret y.
Proof.
  intros Hb Hp Hn. unfold Environment.py_pow. cbn [as_number]. rewrite Hb.
  unfold Environment.frac_pow. destruct (Z.leb_spec 0 p); [lia|].
  destruct (Z.ltb_spec 0 n) as [Hpos|Hneg].
  - eexists. split; [|reflexivity]. cbn [numerator denominator].
    rewrite Z2Pos.id by (apply Z.pow_pos_nonneg; lia). lia.
  - destruct (Z.eqb_spec n 0); [done|].
    eexists. split; [|reflexivity]. cbn [numerator denominator].
    rewrite Z2Pos.id by (apply Z.pow_pos_nonneg; lia).
    rewrite <- !Z.pow_mul_l. f_equal. lia.
Qed.

(** *** The square root on every argument *)

(** [sqrt] returns or raises, whatever its argument. *)
Lemma sqrt_returns_or_raises a :
  (∃ v, Environment.sqrt a = Ret v) ∨ (∃ e, Environment.sqrt a = Raise e).
Proof.
  assert (∀ z, (∃ x, float_of_int z = Ret x) ∨ (∃ e, float_of_int z = Raise e)) as Hint.
  { intros z. unfold float_of_int. destruct (binary_normalize _ _ _ _ _); eauto. }
  assert (∀ n d, (∃ x, true_divide n d = Ret x) ∨ (∃ e, true_divide n d = Raise e)) as Hdiv.
  { intros n d. unfold true_divide. cbv zeta.
    destruct n; [eauto|destruct (SFdiv _ _ _ _); eauto ..]. }
  assert (∀ x, (∃ v, (int_of_float (math_sqrt x) ≫= λ result,
                        Environment.check_32bit (VInt result)) = Ret v) ∨
               (∃ e, (int_of_float (math_sqrt x) ≫= λ result,
                        Environment.check_32bit (VInt result)) = Raise e)) as Hroot.
  { intros x. destruct (int_of_float (math_sqrt x)) as [r| | |] eqn:Hr;
      [|eauto|by destruct (math_sqrt x) as [| [] | |]..].
    cbn [mbind outcome_bind]. rewrite check_32bit_int. destruct (in_range_int r); eauto. }
  unfold Environment.sqrt, py_lt, Environment.to_float.
  destruct a as [z|n d|b| | |]; cbn [py_compare as_number mbind outcome_bind]; eauto.
  - destruct (num_compare _ _); cbn [mbind outcome_bind]; eauto;
      destruct (Hint z) as [[x ->]|[e ->]]; cbn [mbind outcome_bind]; eauto.
  - destruct (num_compare _ _); cbn [mbind outcome_bind]; eauto;
      destruct (Hdiv n d) as [[x ->]|[e ->]]; cbn [mbind outcome_bind]; eauto.
  - destruct (num_compare _ _); cbn [mbind outcome_bind]; eauto;
      destruct (Hint (Z.b2z b)) as [[x ->]|[e ->]]; cbn [mbind outcome_bind]; eauto.
Qed.

(** [sqrt] of a [Fraction] takes the root of the quotient, rounded to a
    double. *)
Example sqrt_of_fractions :
  Environment.sqrt (VFrac 1 2) = Ret (VInt 0) ∧
  Environment.sqrt (VFrac 9 4) = Ret (VInt 1) ∧
  Environment.sqrt (VFrac 4294967296 1) = Ret (VInt 65536) ∧
  Environment.sqrt (VFrac (-1) 2)
  = Raise (Exn ValueError "Cannot compute square root of a negative number") ∧
  Environment.sqrt (VFrac (2 ^ 1030) 3)
  = Raise (Exn OverflowError "integer division result too large for a float").
Proof. repeat split; by vm_compute. Qed.




(** ** Division *)

Lemma check_32bit_not_zero_division v e :
  Environment.check_32bit v = Raise e → class_of e ≠ ZeroDivisionError.
Proof.
  unfold Environment.check_32bit. destruct (as_number v); [|by intros [= <-]].
  destruct (_ || _); [by intros [= <-]|done].
Qed.

Lemma check_32bit_not_OutOfFuel v : Environment.check_32bit v ≠ OutOfFuel.
Proof.
  unfold Environment.check_32bit. destruct (as_number v); [|done]. by destruct (_ || _).
Qed.

Lemma divide_not_OutOfFuel a b : Environment.divide a b ≠ OutOfFuel.
Proof.
  unfold Environment.divide. destruct (py_eq b (VInt 0)); [done|].
  destruct b;
    try (destruct (as_number a); try done; by apply check_32bit_not_OutOfFuel).
  destruct a; simpl; try done; apply check_32bit_not_OutOfFuel.
Qed.

(** C8: [divide] raises Division-By-Zero exactly when the divisor equals
    zero; for numbers [a] and [b <> 0] it computes the exact rational
    [a/b] in lowest terms, an object of type [Fraction], returned when it
    lies in the 32-bit interval and refused with Integer-Overflow
    otherwise; and [(/ a b)], with [/] the builtin and not shadowed by a
    variable, hands the values of its two operands to [divide]. *)
Theorem C8_division_by_zero_or_exact_rational :
  (∀ a b, (∃ e, Division_By_Zero e ∧ Environment.divide a b = Raise e)
          ↔ py_eq b (VInt 0) = true) ∧
  (∀ a b x y,
     as_number a = Some x → as_number b = Some y → numerator y ≠ 0 →
     ∃ n d,
       n * (denominator x * numerator y) = numerator x * denominator y * Z.pos d ∧
       Z.gcd n (Z.pos d) = 1 ∧
       range_checked (NFrac n d) (Environment.divide a b)) ∧
  (∀ self st ea eb va vb st1 st2 owner,
     Environment.vars st self !! KStr "/" = None →
     is_Some (Environment.functions st !! "/") →
     evaluates self ea st (Ret va) st1 →
     evaluates self eb st1 (Ret vb) st2 →
     Environment.functions st2 !! "/" = Some (Environment.BoundMethod owner Environment.Divide) →
     evaluates self (VList [VStr "/"; ea; eb]) st (Environment.divide va vb) st2) ∧
  parses "(/ 1 0)" (Ret (VList [VStr "/"; VInt 1; VInt 0])) ∧
  evaluates 0 (VList [VStr "/"; VInt 1; VInt 0]) Environment.init
    (Raise (Exn ZeroDivisionError "Division by zero is not allowed")) Environment.init.
Proof.
  split; [|split; [|split; [|split]]].
  - intros a b. split.
    + intros (e & -> & He). unfold Environment.divide in He.
      destruct (py_eq b (VInt 0)); [done|]. exfalso.
      destruct b; try (destruct (as_number a) as [x|]; [|done];
        first [ by apply check_32bit_not_zero_division in He | done ]).
      destruct a; simpl in He; try done; by apply check_32bit_not_zero_division in He.
    + intros Hb. eexists. split; [reflexivity|]. unfold Environment.divide. by rewrite Hb.
  - intros a b x y Ha Hb Hy.
    rewrite (divide_numbers a b x y Ha Hb Hy).
    destruct (Fraction_lowest_terms (numerator x * denominator y) (denominator x * numerator y))
      as (n & d & -> & Heq & Hgcd).
    { destruct x; simpl; lia. }
    exists n, d. split; [done|]. split; [done|].
    apply (check_32bit_checks (NFrac n d)).
  - intros self st ea eb va vb st1 st2 owner Hvar Hfun Ha Hb Hdiv.
    assert (ordinary "/") as Hord by solve_ordinary.
    apply (evaluates_ordinary_call self st "/" [ea; eb] [va; vb] st2
             (Environment.BoundMethod owner Environment.Divide)); try done.
    + eauto using evaluates_all_cons, evaluates_all_nil.
    + apply (calls_intro 1); [reflexivity|apply divide_not_OutOfFuel].
  - by apply (parses_intro 6).
  - by apply (evaluates_intro 2).
Qed.

Lemma C8_witness :
  (∃ n d, n * (1 * 6) = 4 * 1 * Z.pos d ∧ Z.gcd n (Z.pos d) = 1 ∧
     range_checked (NFrac n d) (Environment.divide (VInt 4) (VInt 6))) ∧
  evaluates 0 (VList [VStr "/"; VInt 4; VList [VStr "+"; VInt 1; VInt 5]]) Environment.init
    (Environment.divide (VInt 4) (VInt 6)) Environment.init.
Proof.
  destruct C8_division_by_zero_or_exact_rational as (_ & Hexact & Heval & _).
  split.
  - apply (Hexact (VInt 4) (VInt 6) (NInt 4) (NInt 6)); [reflexivity | reflexivity | discriminate].
  - apply (Heval 0%nat Environment.init (VInt 4) (VList [VStr "+"; VInt 1; VInt 5])
             (VInt 4) (VInt 6) Environment.init Environment.init 0%nat);
      [vm_compute; reflexivity | vm_compute; eauto | by apply (evaluates_intro 1)
      | by apply (evaluates_intro 2) | vm_compute; reflexivity].
Defined.

(** * Properties of user functions *)

Section Closures.
(** The function table never comes to refer to an environment at
    address [n] or beyond. *)
Variable n : nat.

Lemma preserves_lift {A} (o : outcome A) : preserves n (Environment.lift o).
Proof. by intros st r st' [= _ <-]. Qed.

Lemma preserves_ret {A} (a : A) : preserves n (mret a).
Proof. by intros st r st' [= _ <-]. Qed.

Lemma preserves_bind {A B} (m : Environment.M A) (k : A → Environment.M B) :
  preserves n m → (∀ a, preserves n (k a)) → preserves n (m ≫= k).
Proof.
  intros Hm Hk st r st' H Hst. unfold mbind, Environment.M_bind in H.
  destruct (m st) as [[a| | |] st1] eqn:Hmst; simplify_eq; eauto.
  by eapply Hk; [|eapply Hm].
Qed.

Lemma preserves_for_each {A B} (f : A → Environment.M B) l :
  (∀ x, preserves n (f x)) → preserves n (Environment.for_each f l).
Proof.
  intros Hf. induction l as [|x l IH]; simpl; [apply preserves_ret|].
  apply preserves_bind; [done|]. intros y.
  apply preserves_bind; [done|]. intros ys. apply preserves_ret.
Qed.

Lemma preserves_set_variable {A} (a : A) self k v :
  preserves n (λ st, (Ret a, Environment.set_variable self k v st)).
Proof. by intros st r st' [= _ <-]. Qed.

Lemma preserves_define self var_name v : preserves n (Environment.define self var_name v).
Proof. destruct var_name; try apply preserves_lift. apply preserves_set_variable. Qed.

Lemma preserves_set self var_name v : preserves n (Environment.set self var_name v).
Proof.
  destruct var_name; try apply preserves_lift.
  intros st r st' H Hst. simpl in H.
  destruct (Environment.vars st self !! KStr s); by simplify_eq.
Qed.

Lemma preserves_defun self name params body :
  (self < n)%nat → preserves n (Environment.defun self name params body).
Proof.
  intros Hself. destruct name; try apply preserves_lift.
  destruct params; try apply preserves_lift.
  intros st r st' [= _ <-] Hst. by apply map_Forall_insert_2.
Qed.

Lemma preserves_lookup_call {call : Environment.function → list value → Environment.M value}
    func values :
  (∀ f args, (self_of f < n)%nat → preserves n (call f args)) →
  preserves n (f ← Environment.lookup_function func; call f values).
Proof.
  intros Hcall st r st' H Hst. unfold mbind, Environment.M_bind in H.
  destruct (Environment.lookup_function func st) as [o st1] eqn:Hl.
  unfold Environment.lookup_function in Hl.
  destruct func; simplify_eq; try done.
  destruct (Environment.functions st !! s) as [f|] eqn:Hf; simplify_eq; [|done].
  eapply Hcall; [|done..]. by apply (Hst s f).
Qed.

Section Dispatch.
Variable evaluate_expression : Environment.addr → value → Environment.M value.
Variable call : Environment.function → list value → Environment.M value.
Hypothesis preserves_evaluate : ∀ self e, preserves n (evaluate_expression self e).
Hypothesis preserves_call : ∀ f args, (self_of f < n)%nat → preserves n (call f args).

Lemma preserves_mapcar self func lists : preserves n (Environment.mapcar call self func lists).
Proof.
  apply preserves_bind; [apply preserves_lift|]. intros rows.
  apply preserves_bind; [|intros; apply preserves_ret].
  apply preserves_for_each. intros values. by apply preserves_lookup_call.
Qed.

Lemma preserves_user_function self name params body args :
  preserves n (Environment.user_function evaluate_expression self name params body args).
Proof.
  unfold Environment.user_function. destruct (negb _); [apply preserves_lift|].
  apply preserves_bind; [by intros st r st' [= _ <-]|]. intros local_env.
  apply preserves_bind; [|done].
  apply preserves_for_each. intros [param arg]. unfold Environment.bind_param. simpl.
  destruct (hashable param); [apply preserves_set_variable|apply preserves_lift].
Qed.

Lemma preserves_call_method self m args :
  (self < n)%nat → preserves n (Environment.call_method call self m args).
Proof.
  intros Hself.
  destruct m, args as [|a1 [|a2 [|a3 [|a4 args]]]]; simpl;
    first [ apply preserves_lift | apply preserves_ret | apply preserves_define
          | apply preserves_set | by apply preserves_defun | apply preserves_mapcar ].
Qed.

Lemma preserves_evaluate_function_call self operator operands :
  preserves n
    (Environment.evaluate_function_call evaluate_expression call self operator operands).
Proof.
  intros st r st' H Hst. unfold Environment.evaluate_function_call in H.
  destruct (Environment.functions st !! operator); [|by simplify_eq].
  revert H Hst. generalize st r st'. fold (@preserves n value).
  destruct (String.eqb operator "set!").
  { destruct operands as [|var_name [|e [|? ?]]]; try apply preserves_lift.
    apply preserves_bind; [done|]. intros v. apply preserves_set. }
  destruct (String.eqb operator "defun").
  { by apply preserves_lookup_call. }
  destruct (String.eqb operator "mapcar").
  { destruct operands as [|func_e [|e es]]; try apply preserves_lift.
    apply preserves_bind; [done|]. intros func.
    apply preserves_bind; [by apply preserves_for_each|]. intros lists.
    destruct (forallb _ _); [apply preserves_mapcar|apply preserves_lift]. }
  apply preserves_bind; [by apply preserves_for_each|]. intros vs.
  by apply preserves_lookup_call.
Qed.
End Dispatch.

(** Evaluation never makes a function table entry refer to a new environment. *)
Lemma preserves_evaluate_call fuel :
  (∀ self e, preserves n (Environment.evaluate_expression fuel self e)) ∧
  (∀ f args, (self_of f < n)%nat → preserves n (Environment.call fuel f args)).
Proof.
  induction fuel as [|fuel [IHe IHc]]; [split; intros; apply preserves_lift|].
  split.
  - intros self e st r st' H Hst. simpl in H.
    destruct e as [| | | | |[|head operands]];
      try (by repeat case_match; simplify_eq).
    { by injection H as _ <-. }
    destruct (Environment.vars st self !! _); [by simplify_eq|].
    destruct (String.eqb _ _).
    { destruct operands as [|? [|? ?]]; by simplify_eq. }
    destruct head; try by simplify_eq.
    by eapply (preserves_evaluate_function_call _ _ IHe IHc).
  - intros f args Hf. destruct f as [self m|self name params body]; simpl.
    + by apply preserves_call_method.
    + by apply preserves_user_function.
Qed.
End Closures.

Lemma bind_params params : ∀ keys args vs m fs,
  mapM hashable params = Some keys →
  ∃ us, Environment.for_each (Environment.bind_param (length vs)) (zip params args)
          (Environment.Store (vs ++ [m]) fs)
        = (Ret us, Environment.Store (vs ++ [bind_all (zip keys args) m]) fs).
Proof.
  induction params as [|param params IH]; intros keys args vs m fs Hk.
  - injection Hk as <-. by exists [].
  - simpl in Hk. destruct (hashable param) as [k|] eqn:Hp; [|done].
    destruct (mapM hashable params) as [ks|] eqn:Hks; [|done].
    injection Hk as <-. destruct args as [|arg args]; [by exists []|].
    destruct (IH ks args vs (<[k := arg]> m) fs eq_refl) as [us Hus].
    exists (() :: us). cbn [zip zip_with Environment.for_each].
    unfold mbind, Environment.M_bind at 1. unfold Environment.bind_param at 1.
    cbn [fst snd]. rewrite Hp. unfold Environment.set_variable.
    cbn [Environment.variables Environment.functions].
    rewrite (alter_app_r_alt _ vs [m] (length vs)) by lia.
    rewrite Nat.sub_diag. cbn [alter list_alter].
    unfold mbind, Environment.M_bind at 1. rewrite Hus. reflexivity.
Qed.

(** C2, as amended: a call of a user function with as many arguments as
    parameters evaluates the stored body in a new environment, at a fresh
    address, whose variables are a copy of the variables that the defining
    environment has at the time of the call, overlaid with the parameter
    bindings in order (the caller's variables play no part); the function
    table of the child is the shared one; when no table entry referred to
    an address from the child's on before the call, none does after it,
    so nothing keeps the child; and a call with another number of
    arguments fails with Arity-Mismatch and changes nothing. *)
Theorem C2_user_function_call :
  ∀ fuel st self name params body args,
    (length args ≠ length params →
     ∃ e, Arity_Mismatch e ∧
       Environment.call (S fuel) (Environment.UserFunction self name params body) args st
       = (Raise e, st)) ∧
    (length args = length params →
     ∀ keys, mapM hashable params = Some keys →
       Environment.call (S fuel) (Environment.UserFunction self name params body) args st
       = Environment.evaluate_expression fuel (length (Environment.variables st)) body
           (Environment.Store
              (Environment.variables st
                 ++ [bind_all (zip keys args) (Environment.vars st self)])
              (Environment.functions st))) ∧
    (∀ r st',
       Environment.call (S fuel) (Environment.UserFunction self name params body) args st
       = (r, st') →
       (self < length (Environment.variables st))%nat →
       closed_below (length (Environment.variables st)) st →
       closed_below (length (Environment.variables st)) st').
Proof.
  intros fuel st self name params body args. split; [|split].
  - intros Hlen. eexists. split; [by eexists name, (length params), (length args)|].
    cbn [Environment.call]. unfold Environment.user_function.
    by destruct (Nat.eqb_spec (length args) (length params)).
  - intros Hlen keys Hkeys.
    cbn [Environment.call]. unfold Environment.user_function.
    destruct (Nat.eqb_spec (length args) (length params)); [|done]. cbn [negb].
    unfold mbind, Environment.M_bind at 1. unfold Environment.new_local_env.
    destruct (bind_params params keys args (Environment.variables st)
                (Environment.vars st self) (Environment.functions st) Hkeys) as [us Hus].
    unfold mbind, Environment.M_bind at 1. by rewrite Hus.
  - intros r st' Hcall Hself Hst.
    exact (proj2 (preserves_evaluate_call _ (S fuel))
             (Environment.UserFunction self name params body) args Hself st r st' Hcall Hst).
Qed.

Lemma C2_witness :
  (∃ e, Arity_Mismatch e ∧
     Environment.call 3 square [VInt 5; VInt 6] Environment.init = (Raise e, Environment.init)) ∧
  Environment.call 3 square [VInt 5] Environment.init
  = Environment.evaluate_expression 2 1 (VList [VStr "*"; VStr "x"; VStr "x"])
      (Environment.Store
         (Environment.variables Environment.init
            ++ [bind_all [(KStr "x", VInt 5)] (Environment.vars Environment.init 0)])
         (Environment.functions Environment.init)) ∧
  closed_below 1 (Environment.call 3 square [VInt 5] Environment.init).2.
Proof.
  destruct (C2_user_function_call 2%nat Environment.init 0%nat "square" [VStr "x"]
              (VList [VStr "*"; VStr "x"; VStr "x"]) [VInt 5; VInt 6]) as (Harity & _ & _).
  destruct (C2_user_function_call 2%nat Environment.init 0%nat "square" [VStr "x"]
              (VList [VStr "*"; VStr "x"; VStr "x"]) [VInt 5]) as (_ & Hcall & Hclosed).
  split; [|split].
  - apply Harity. simpl. lia.
  - apply (Hcall eq_refl [KStr "x"]). reflexivity.
  - apply (Hclosed _ _ (surjective_pairing _)); [simpl; lia|].
    apply map_Forall_to_list. vm_compute. repeat constructor.
Defined.

(** The claim as stated fails on [(g 5)] after [(defun f () x)] and
    [(defun g (x) (f))]: [f] is called from the environment of [g], where
    [x] is 5, but the environment made for [f] has no [x], and the call
    returns the symbol [x]; with the caller's variables merged in, it
    would hold [x] = 5. *)
Lemma C2_counterexample :
  ∃ st' caller_env child_env,
    evaluates 0 (VList [VStr "g"; VInt 5]) f_and_g (Ret (VStr "x")) st' ∧
    Environment.variables st' = Environment.variables f_and_g ++ [caller_env; child_env] ∧
    caller_env !! KStr "x" = Some (VInt 5) ∧
    child_env !! KStr "x" = None ∧
    claimed_child_variables
      (Environment.Store (Environment.variables f_and_g ++ [caller_env])
         (Environment.functions f_and_g)) 0 1 []
    !! KStr "x" = Some (VInt 5).
Proof.
  eexists _, (<[KStr "x" := VInt 5]> (Environment.vars Environment.init 0)),
    (Environment.vars Environment.init 0).
  split; [by apply (evaluates_intro 5)|]. repeat split; vm_compute; reflexivity.
Qed.

(** * Properties of the parser *)

(** ** Parsing nothing *)

Lemma lstrip_spaces s :
  forallb Parser.isspace (list_ascii_of_string s) = true → Parser.lstrip s = "".
Proof.
  induction s as [|c s IH]; simpl; [done|].
  intros [Hc Hs]%andb_true_iff. rewrite Hc. auto.
Qed.

(** C10: a text made of white space only (the empty text included), and
    the lone quote marker, raise the [IndexError] of [is_number], which
    reads character 0 of the empty string; that is not a [SyntaxError]. *)
Theorem C10_empty_input_raises_IndexError :
  ∀ fuel s,
    s = "'" ∨ forallb Parser.isspace (list_ascii_of_string s) = true →
    ∃ e, Parser.parse_expression (S (S fuel)) s = Raise e ∧
         e = Exn IndexError "string index out of range" ∧
         Parser.is_number "" = Raise e ∧
         ¬ Malformed_Syntax e.
Proof.
  intros fuel s Hs. exists (Exn IndexError "string index out of range").
  split; [|split; [reflexivity|split; [reflexivity|discriminate]]].
  destruct Hs as [->|Hs]; [reflexivity|].
  cbn [Parser.parse_expression]. unfold Parser.strip. rewrite (lstrip_spaces s Hs).
  reflexivity.
Qed.

Lemma C10_witness :
  (∃ e, Parser.parse_expression 2 "'" = Raise e ∧
        e = Exn IndexError "string index out of range" ∧
        Parser.is_number "" = Raise e ∧ ¬ Malformed_Syntax e) ∧
  (∃ e, Parser.parse_expression 2 "   " = Raise e ∧
        e = Exn IndexError "string index out of range" ∧
        Parser.is_number "" = Raise e ∧ ¬ Malformed_Syntax e).
Proof.
  split.
  - apply (C10_empty_input_raises_IndexError 0%nat "'"). left. reflexivity.
  - apply (C10_empty_input_raises_IndexError 0%nat "   "). right. vm_compute. reflexivity.
Defined.


(** *** Strings and tokens *)

Lemma string_app_cons c s t : String c s +:+ t = String c (s +:+ t).
Proof. reflexivity. Qed.

Lemma string_app_nil_r s : s +:+ "" = s.
Proof. induction s as [|c s IH]; [done|]. by rewrite string_app_cons, IH. Qed.

Lemma string_app_assoc s t u : (s +:+ t) +:+ u = s +:+ (t +:+ u).
Proof. induction s as [|c s IH]; [done|]. by rewrite !string_app_cons, IH. Qed.

Lemma isspace_not_paren c :
  Parser.isspace c = true → Ascii.eqb c "(" = false ∧ Ascii.eqb c ")" = false.
Proof.
  intros H. split.
  - destruct (Ascii.eqb_spec c "(") as [->|]; [by vm_compute in H|done].
  - destruct (Ascii.eqb_spec c ")") as [->|]; [by vm_compute in H|done].
Qed.

Lemma symbol_char_spec c :
  symbol_char c = true →
  Parser.isspace c = false ∧ Ascii.eqb c "(" = false ∧ Ascii.eqb c ")" = false.
Proof.
  unfold symbol_char. intros [[H1 H2]%andb_true_iff H3]%andb_true_iff.
  by repeat split; apply negb_true_iff.
Qed.

Lemma rstrip_nonspace c s : Parser.isspace c = false → Parser.rstrip (String c s) = String c (Parser.rstrip s).
Proof. intros Hc. simpl. rewrite Hc. by destruct (Parser.rstrip s). Qed.

Lemma rstrip_idem s : Parser.rstrip (Parser.rstrip s) = Parser.rstrip s.
Proof.
  induction s as [|c s IH]; [done|]. simpl.
  destruct (Parser.rstrip s) as [|d r] eqn:Hr.
  - destruct (Parser.isspace c) eqn:Hc; [done|]. simpl. by rewrite Hc.
  - change (Parser.rstrip (String c (String d r))) with
      (match Parser.rstrip (String d r) with
       | "" => if Parser.isspace c then "" else String c ""
       | r' => String c r'
       end).
    by rewrite IH.
Qed.

Lemma lstrip_rstrip s : Parser.lstrip (Parser.rstrip s) = Parser.rstrip (Parser.lstrip s).
Proof.
  induction s as [|c s IH]; [done|].
  destruct (Parser.isspace c) eqn:Hc.
  - cbn [Parser.lstrip]. rewrite Hc, <- IH. cbn [Parser.rstrip].
    destruct (Parser.rstrip s) as [|d r]; [by rewrite Hc|].
    cbn [Parser.lstrip]. by rewrite Hc.
  - cbn [Parser.lstrip]. rewrite Hc. rewrite rstrip_nonspace by done.
    cbn [Parser.lstrip]. by rewrite Hc.
Qed.

Lemma lstrip_idem s : Parser.lstrip (Parser.lstrip s) = Parser.lstrip s.
Proof.
  induction s as [|c s IH]; [done|]. cbn [Parser.lstrip].
  destruct (Parser.isspace c) eqn:Hc; [done|]. cbn [Parser.lstrip]. by rewrite Hc.
Qed.

Lemma strip_idem s : Parser.strip (Parser.strip s) = Parser.strip s.
Proof. unfold Parser.strip. by rewrite lstrip_rstrip, rstrip_idem, lstrip_idem. Qed.

Lemma strip_rstrip s : Parser.strip (Parser.rstrip s) = Parser.strip s.
Proof. unfold Parser.strip. by rewrite lstrip_rstrip, rstrip_idem. Qed.

(** The text of a quotation, as [parse_expression] strips it. *)
Lemma strip_quote s : Parser.strip (String "'" s) = String "'" (Parser.rstrip s).
Proof.
  unfold Parser.strip. change (Parser.lstrip (String "'" s)) with (String "'" s).
  by rewrite rstrip_nonspace.
Qed.

Lemma rstrip_snoc s c :
  Parser.isspace c = false → Parser.rstrip (s +:+ String c "") = s +:+ String c "".
Proof.
  intros Hc. induction s as [|d s IH]; [simpl; by rewrite Hc|].
  rewrite string_app_cons. cbn [Parser.rstrip]. rewrite IH.
  by destruct s.
Qed.

Lemma strip_parenthesised s : Parser.strip (String "(" (s +:+ ")")) = String "(" (s +:+ ")").
Proof.
  unfold Parser.strip.
  change (Parser.lstrip (String "(" (s +:+ ")"))) with (String "(" (s +:+ ")")).
  rewrite rstrip_nonspace by done. by rewrite rstrip_snoc.
Qed.

Lemma endswith_snoc s c : Parser.endswith c (s +:+ String c "") = true.
Proof.
  induction s as [|d s IH]; [simpl; apply Ascii.eqb_refl|].
  rewrite string_app_cons. cbn [Parser.endswith]. rewrite IH. by destruct s.
Qed.

Lemma scan_space r c s :
  Parser.isspace c = true → Parser.scan r (String c s) = Parser.flush r ++ Parser.scan "" s.
Proof.
  intros Hc. cbn [Parser.scan]. destruct (isspace_not_paren c Hc) as [-> ->]. by rewrite Hc.
Qed.

Lemma scan_paren r c s :
  Ascii.eqb c "(" || Ascii.eqb c ")" = true →
  Parser.scan r (String c s) = Parser.flush r ++ String c "" :: Parser.scan "" s.
Proof. intros Hc. cbn [Parser.scan]. by rewrite Hc. Qed.

Lemma scan_symbol_char r c s :
  symbol_char c = true → Parser.scan r (String c s) = Parser.scan (r +:+ String c "") s.
Proof.
  intros (Hs & Ho & Hc)%symbol_char_spec. cbn [Parser.scan]. by rewrite Ho, Hc, Hs.
Qed.

Lemma scan_lstrip s : Parser.scan "" (Parser.lstrip s) = Parser.scan "" s.
Proof.
  induction s as [|c s IH]; [done|]. cbn [Parser.lstrip].
  destruct (Parser.isspace c) eqn:Hc; [|done]. by rewrite scan_space.
Qed.

Lemma scan_rstrip s : ∀ r, Parser.scan r (Parser.rstrip s) = Parser.scan r s.
Proof.
  induction s as [|c s IH]; intros r; [done|].
  cbn [Parser.rstrip]. destruct (Parser.rstrip s) as [|d t] eqn:Ht.
  - destruct (Parser.isspace c) eqn:Hc.
    + rewrite scan_space by done. rewrite <- IH. simpl. by rewrite app_nil_r.
    + cbn [Parser.scan]. rewrite Hc. by rewrite <- !IH.
  - cbn [Parser.scan]. by rewrite <- !IH.
Qed.

Lemma tokenize_strip s : Parser.tokenize (Parser.strip s) = Parser.tokenize s.
Proof. unfold Parser.tokenize, Parser.strip. by rewrite scan_rstrip, scan_lstrip. Qed.

Lemma scan_symbol t : ∀ r s,
  all_chars symbol_char t = true → Parser.scan r (t +:+ s) = Parser.scan (r +:+ t) s.
Proof.
  induction t as [|c t IH]; intros r s Ht; [by rewrite string_app_nil_r|].
  simpl in Ht. apply andb_true_iff in Ht as [Hc Ht].
  rewrite string_app_cons, scan_symbol_char by done. rewrite IH by done.
  by rewrite string_app_assoc.
Qed.

Lemma tokenize_symbol t : symbol t → Parser.tokenize t = [t].
Proof.
  intros [Hne Ht]. unfold Parser.tokenize.
  rewrite <- (string_app_nil_r t) at 1. rewrite scan_symbol by done.
  simpl. by destruct t.
Qed.

Lemma scan_close s : ∀ r, Parser.scan r (s +:+ ")") = Parser.scan r s ++ [")"].
Proof.
  induction s as [|c s IH]; intros r.
  - simpl. by destruct r.
  - rewrite string_app_cons. cbn [Parser.scan].
    destruct (Ascii.eqb c "(" || Ascii.eqb c ")").
    { rewrite IH. by rewrite <- app_assoc. }
    destruct (Parser.isspace c); rewrite IH; [by rewrite <- app_assoc|done].
Qed.

Lemma tokenize_parenthesised s :
  Parser.tokenize (String "(" (s +:+ ")")) = "(" :: Parser.tokenize s ++ [")"].
Proof. unfold Parser.tokenize. rewrite scan_paren by done. simpl. by rewrite scan_close. Qed.

Lemma tokenize_quote_form s :
  Parser.tokenize ("(quote " +:+ s +:+ ")") = "(" :: "quote" :: Parser.tokenize s ++ [")"].
Proof.
  change ("(quote " +:+ s +:+ ")") with (String "(" (("quote" +:+ String " " s) +:+ ")")).
  rewrite tokenize_parenthesised. unfold Parser.tokenize.
  rewrite scan_symbol by done. by rewrite scan_space.
Qed.

Lemma middle_parenthesised (a b : string) l : Parser.middle (a :: l ++ [b]) = l.
Proof. unfold Parser.middle. simpl. apply removelast_last. Qed.

Lemma extract_loop_closes inner : ∀ depth sub_expr rest,
  closes depth inner = true →
  Parser.extract_loop (S depth) sub_expr (inner ++ ")" :: rest)
  = Ret (sub_expr ++ inner, rest).
Proof.
  induction inner as [|token inner IH]; intros depth sub_expr rest Hc.
  - simpl in Hc. apply Nat.eqb_eq in Hc as ->. simpl. by rewrite app_nil_r.
  - simpl in Hc. cbn [app Parser.extract_loop].
    destruct (String.eqb token "(").
    { rewrite IH by done. by rewrite <- app_assoc. }
    destruct (String.eqb token ")").
    { destruct depth as [|d]; [done|]. cbn [pred]. rewrite IH by done.
      by rewrite <- app_assoc. }
    rewrite IH by done. by rewrite <- app_assoc.
Qed.

Lemma extract_sublist_balanced inner rest :
  balanced inner = true →
  Parser.extract_sublist (inner ++ ")" :: rest) = Ret (inner, rest).
Proof. intros H. unfold Parser.extract_sublist. by rewrite extract_loop_closes. Qed.

(** *** The parser terminates *)

Lemma bind_not_OutOfFuel {A B} (m : outcome A) (k : A → outcome B) :
  m ≠ OutOfFuel → (∀ a, m = Ret a → k a ≠ OutOfFuel) → m ≫= k ≠ OutOfFuel.
Proof. intros Hm Hk. destruct m; simpl; [by apply Hk|done..]. Qed.

Lemma fmap_not_OutOfFuel {A B} (f : A → B) (m : outcome A) :
  m ≠ OutOfFuel → f <$> m ≠ OutOfFuel.
Proof. intros Hm. by apply bind_not_OutOfFuel. Qed.

Lemma decimal_not_OutOfFuel s : ∀ acc, Parser.decimal acc s ≠ OutOfFuel.
Proof. induction s as [|c s IH]; intros acc; simpl; [done|]. by destruct (_ && _). Qed.

Lemma py_int_not_OutOfFuel s : Parser.py_int s ≠ OutOfFuel.
Proof.
  unfold Parser.py_int.
  destruct s as [|c s]; [done|].
  destruct (Ascii.eqb_spec c "-") as [->|Hc].
  - apply bind_not_OutOfFuel; [apply decimal_not_OutOfFuel|done].
  - destruct c as [[] [] [] [] [] [] [] []]; try apply decimal_not_OutOfFuel. done.
Qed.

Lemma no_open_lstrip s : no_open s = true → no_open (Parser.lstrip s) = true.
Proof.
  induction s as [|c s IH]; [done|]. intros H. cbn [Parser.lstrip].
  destruct (Parser.isspace c); [|done]. apply IH.
  unfold no_open in *. cbn [all_chars] in H. by apply andb_true_iff in H as [_ ?].
Qed.

Lemma no_open_rstrip s : no_open s = true → no_open (Parser.rstrip s) = true.
Proof.
  unfold no_open. induction s as [|c s IH]; [done|]. cbn [all_chars].
  intros [Hc Hs]%andb_true_iff. cbn [Parser.rstrip].
  specialize (IH Hs). destruct (Parser.rstrip s) as [|d r].
  - destruct (Parser.isspace c); [done|]. cbn [all_chars]. by rewrite Hc.
  - cbn [all_chars] in *. by rewrite Hc.
Qed.

Lemma no_open_strip s : no_open s = true → no_open (Parser.strip s) = true.
Proof. intros H. by apply no_open_rstrip, no_open_lstrip. Qed.

Lemma length_lstrip s : (String.length (Parser.lstrip s) ≤ String.length s)%nat.
Proof.
  induction s as [|c s IH]; [done|]. cbn [Parser.lstrip].
  destruct (Parser.isspace c); simpl; lia.
Qed.

Lemma length_rstrip s : (String.length (Parser.rstrip s) ≤ String.length s)%nat.
Proof.
  induction s as [|c s IH]; [done|]. cbn [Parser.rstrip].
  destruct (Parser.rstrip s); [destruct (Parser.isspace c)|]; simpl in *; lia.
Qed.

Lemma length_strip s : (String.length (Parser.strip s) ≤ String.length s)%nat.
Proof.
  unfold Parser.strip. pose proof (length_rstrip (Parser.lstrip s)).
  pose proof (length_lstrip s). lia.
Qed.

Lemma parse_expression_strip n s :
  Parser.parse_expression n (Parser.strip s) = Parser.parse_expression n s.
Proof. destruct n; [done|]. cbn [Parser.parse_expression]. by rewrite strip_idem. Qed.

(** A text without opening parenthesis is parsed within a budget of its length. *)
Lemma parse_expression_no_open n : ∀ s,
  no_open s = true → (String.length s < n)%nat → Parser.parse_expression n s ≠ OutOfFuel.
Proof.
  induction n as [|n IH]; intros s Hs Hn; [lia|].
  cbn [Parser.parse_expression].
  pose proof (no_open_strip s Hs) as Hs'. pose proof (length_strip s) as Hl.
  destruct (Parser.strip s) as [|c e] eqn:He; [done|].
  unfold no_open in Hs'. cbn [all_chars] in Hs'. apply andb_true_iff in Hs' as [Hc He'].
  destruct (Parser.startswith "'" (String c e)).
  - apply bind_not_OutOfFuel; [|done]. apply IH.
    + by apply no_open_strip.
    + pose proof (length_strip e). cbn [Parser.tail String.length] in *. lia.
  - apply bind_not_OutOfFuel; [done|]. intros [|] _.
    { apply fmap_not_OutOfFuel, py_int_not_OutOfFuel. }
    unfold Parser.is_list. cbn [Parser.startswith]. apply negb_true_iff in Hc. by rewrite Hc.
Qed.

Lemma extract_loop_split tokens : ∀ depth sub_expr sub rest,
  Parser.extract_loop depth sub_expr tokens = Ret (sub, rest) →
  ∃ mid, sub = sub_expr ++ mid ∧ tokens = mid ++ ")" :: rest.
Proof.
  induction tokens as [|token tokens IH]; intros depth sub_expr sub rest H; [done|].
  cbn [Parser.extract_loop] in H.
  destruct (String.eqb token "(") eqn:Ho.
  { apply IH in H as (mid & -> & ->). exists (token :: mid). by rewrite <- app_assoc. }
  destruct (String.eqb_spec token ")") as [->|Hc].
  { destruct depth as [|[|d]].
    - apply IH in H as (mid & -> & ->). exists (")" :: mid). by rewrite <- app_assoc.
    - injection H as <- <-. exists []. by rewrite app_nil_r.
    - apply IH in H as (mid & -> & ->). exists (")" :: mid). by rewrite <- app_assoc. }
  apply IH in H as (mid & -> & ->). exists (token :: mid). by rewrite <- app_assoc.
Qed.

Lemma extract_loop_not_OutOfFuel tokens : ∀ depth sub_expr,
  Parser.extract_loop depth sub_expr tokens ≠ OutOfFuel.
Proof.
  induction tokens as [|token tokens IH]; intros depth sub_expr; [done|].
  cbn [Parser.extract_loop]. destruct (String.eqb token "("); [done|].
  destruct (String.eqb token ")"); [|done]. by destruct depth as [|[|d]].
Qed.

Lemma parse_list_total bound n : ∀ tokens,
  Forall (token_below bound) tokens → (length tokens + bound < n)%nat →
  Parser.parse_list n tokens ≠ OutOfFuel.
Proof.
  induction n as [|n IH]; intros tokens Htok Hn; [lia|].
  destruct tokens as [|token tokens]; [done|].
  apply Forall_cons in Htok as [Ht Htok]. cbn [length] in Hn.
  cbn [Parser.parse_list].
  destruct (String.eqb_spec token "(") as [->|Hopen].
  { apply bind_not_OutOfFuel; [apply extract_loop_not_OutOfFuel|].
    intros [sub rest] (mid & -> & ->)%extract_loop_split.
    apply Forall_app in Htok as [Hmid Hrest]. apply Forall_cons in Hrest as [_ Hrest].
    rewrite length_app in Hn. cbn [length app] in *.
    apply bind_not_OutOfFuel; [apply IH; [done|lia]|]. intros nested _.
    apply bind_not_OutOfFuel; [apply IH; [done|lia]|done]. }
  destruct Ht as [->|[Hno Hlen]]; [done|].
  destruct (String.eqb token ")"); [done|].
  destruct (String.eqb token "'").
  { unfold Parser.handle_quotation. destruct tokens as [|next tokens]; [done|].
    apply Forall_cons in Htok as [Hnext Htok]. cbn [length] in Hn.
    destruct (String.eqb_spec next "(") as [->|Hnopen].
    - destruct (Parser.extract_sublist tokens) as [[sub rest]| | |] eqn:Hx; try done.
      + apply extract_loop_split in Hx as (mid & -> & ->).
        apply Forall_app in Htok as [Hmid Hrest]. apply Forall_cons in Hrest as [_ Hrest].
        rewrite length_app in Hn. cbn [length app mbind outcome_bind] in *.
        pose proof (IH mid Hmid ltac:(lia)) as Hsub.
        destruct (Parser.parse_list n mid); try done. cbn [mbind outcome_bind].
        apply bind_not_OutOfFuel; [apply IH; [done|lia]|done].
      + by apply extract_loop_not_OutOfFuel in Hx.
    - destruct Hnext as [->|[Hnno Hnlen]]; [done|].
      pose proof (parse_expression_no_open n next Hnno ltac:(lia)) as Hq.
      destruct (Parser.parse_expression n next); try done. cbn [mbind outcome_bind].
      apply bind_not_OutOfFuel; [apply IH; [done|lia]|done]. }
  apply bind_not_OutOfFuel; [apply parse_expression_no_open; [done|lia]|]. intros parsed _.
  apply bind_not_OutOfFuel; [apply IH; [done|lia]|done].
Qed.

Lemma string_length_app s t :
  String.length (s +:+ t) = (String.length s + String.length t)%nat.
Proof. induction s as [|c s IH]; [done|]. rewrite string_app_cons. simpl. by rewrite IH. Qed.

Lemma no_open_app s t : no_open s = true → no_open t = true → no_open (s +:+ t) = true.
Proof.
  unfold no_open. induction s as [|c s IH]; [done|]. rewrite string_app_cons. cbn [all_chars].
  intros [Hc Hs]%andb_true_iff Ht. rewrite Hc. by apply IH.
Qed.

Lemma flush_below bound r :
  no_open r = true → (String.length r < bound)%nat → Forall (token_below bound) (Parser.flush r).
Proof.
  intros Hr Hl. destruct r as [|c r]; [constructor|].
  constructor; [by right|constructor].
Qed.

(** The tokens of a text are opening parentheses and texts without any,
    none longer than the text. *)
Lemma scan_below bound s : ∀ r,
  no_open r = true → (String.length r + String.length s < bound)%nat →
  Forall (token_below bound) (Parser.scan r s).
Proof.
  induction s as [|c s IH]; intros r Hr Hl.
  - apply flush_below; [done|lia].
  - cbn [String.length] in Hl. cbn [Parser.scan].
    destruct (Ascii.eqb_spec c "(") as [->|Ho]; cbn [orb].
    { apply Forall_app. split; [apply flush_below; [done|lia]|].
      constructor; [by left|]. apply IH; [done|simpl; lia]. }
    destruct (Ascii.eqb_spec c ")") as [->|Hc].
    { apply Forall_app. split; [apply flush_below; [done|lia]|].
      constructor; [right; split; [done|simpl; lia]|]. apply IH; [done|simpl; lia]. }
    destruct (Parser.isspace c).
    { apply Forall_app. split; [apply flush_below; [done|lia]|]. apply IH; [done|simpl; lia]. }
    apply IH.
    + apply no_open_app; [done|]. unfold no_open. cbn [all_chars].
      by destruct (Ascii.eqb_spec c "(").
    + rewrite string_length_app. simpl. lia.
Qed.

Lemma tokenize_below s :
  Forall (token_below (S (String.length s))) (Parser.tokenize s).
Proof. apply scan_below; [done|simpl; lia]. Qed.

(** The list parser returns on the tokens of any text. *)
Lemma parse_list_tokenize_total s :
  ∃ n r, r ≠ OutOfFuel ∧ ∀ m, (n ≤ m)%nat → Parser.parse_list m (Parser.tokenize s) = r.
Proof.
  set (n := S (length (Parser.tokenize s) + S (String.length s))).
  exists n, (Parser.parse_list n (Parser.tokenize s)).
  assert (Parser.parse_list n (Parser.tokenize s) ≠ OutOfFuel) as Hne.
  { apply (parse_list_total (S (String.length s))); [apply tokenize_below|lia]. }
  split; [done|]. intros m Hm. by apply (parse_list_more n).
Qed.

Lemma length_scan s : ∀ r,
  (length (Parser.scan r s) ≤ String.length s + length (Parser.flush r))%nat.
Proof.
  induction s as [|c s IH]; intros r; [simpl; lia|].
  cbn [Parser.scan String.length].
  destruct (Ascii.eqb c "(" || Ascii.eqb c ")").
  { rewrite length_app. simpl. pose proof (IH ""). simpl in *. lia. }
  destruct (Parser.isspace c).
  { rewrite length_app. pose proof (IH ""). simpl in *. lia. }
  pose proof (IH (r +:+ String c "")).
  assert (length (Parser.flush (r +:+ String c "")) ≤ 1)%nat
    by (destruct (r +:+ String c ""); simpl; lia).
  lia.
Qed.

Lemma Forall_middle {P : string → Prop} tokens :
  Forall P tokens → Forall P (Parser.middle tokens).
Proof.
  intros H. unfold Parser.middle. destruct tokens as [|t tokens]; [done|].
  apply Forall_cons in H as [_ H]. simpl.
  induction H as [|x l Hx Hl IH]; [done|]. simpl. destruct l; [constructor|].
  constructor; [done|]. apply IH.
Qed.

Lemma length_middle tokens : (length (Parser.middle tokens) ≤ length tokens)%nat.
Proof.
  unfold Parser.middle. destruct tokens as [|t tokens]; [done|]. simpl.
  induction tokens as [|x l IH]; [simpl; lia|]. simpl. destruct l; simpl in *; lia.
Qed.

(** The parser returns, a tree or an exception, on every text. *)
Lemma parse_expression_total k : ∀ s,
  (String.length s ≤ k)%nat → Parser.parse_expression (2 * k + 3) s ≠ OutOfFuel.
Proof.
  induction k as [|k IH]; intros s Hk.
  - destruct s; [|simpl in Hk; lia]. done.
  - replace (2 * S k + 3)%nat with (S (2 * S k + 2)) by lia.
    cbn [Parser.parse_expression].
    pose proof (length_strip s) as Hl.
    destruct (Parser.strip s) as [|c e] eqn:He; [done|].
    destruct (Parser.startswith "'" (String c e)).
    + apply bind_not_OutOfFuel; [|done].
      assert (Parser.parse_expression (2 * k + 3) (Parser.strip (Parser.tail (String c e)))
              ≠ OutOfFuel) as Hrec.
      { apply IH. pose proof (length_strip e). cbn [Parser.tail String.length] in *. lia. }
      intros Hout. apply Hrec.
      destruct (Parser.parse_expression (2 * k + 3) _) eqn:Hp; try done;
        by rewrite (parse_expression_more _ (2 * S k + 2) _ _ Hp) in Hout by (done || lia).
    + apply bind_not_OutOfFuel; [done|]. intros [|] _.
      { apply fmap_not_OutOfFuel, py_int_not_OutOfFuel. }
      destruct (Parser.is_list _); [|done].
      apply fmap_not_OutOfFuel.
      apply (parse_list_total (S (String.length (String c e)))).
      * apply Forall_middle, tokenize_below.
      * pose proof (length_middle (Parser.tokenize (String c e))).
        pose proof (length_scan (String c e) ""). unfold Parser.tokenize in *.
        cbn [Parser.flush length] in *. lia.
Qed.

Lemma parses_total s : ∃ r, parses s r.
Proof.
  exists (Parser.parse_expression (2 * String.length s + 3) s).
  apply (parses_intro (2 * String.length s + 3)); [done|].
  by apply parse_expression_total.
Qed.

(** *** Steps of the parser *)

Lemma parse_quoted_step k s :
  Parser.parse_expression (S k) (String "'" s)
  = quoted ← Parser.parse_expression k (Parser.strip s); Ret (Parser.quote quoted).
Proof.
  cbn [Parser.parse_expression]. rewrite strip_quote.
  cbn [Parser.startswith Parser.tail]. rewrite Ascii.eqb_refl. by rewrite strip_rstrip.
Qed.

Lemma parse_parenthesised_step k s :
  Parser.parse_expression (S k) (String "(" (s +:+ ")"))
  = VList <$> Parser.parse_list k (Parser.tokenize s).
Proof.
  cbn [Parser.parse_expression]. rewrite strip_parenthesised.
  change (Parser.startswith "'" (String "(" (s +:+ ")"))) with false. cbv iota.
  change (Parser.is_number (String "(" (s +:+ ")"))) with (Ret (A:=bool) false).
  cbn [mbind outcome_bind].
  assert (Parser.is_list (String "(" (s +:+ ")")) = true) as ->.
  { unfold Parser.is_list. rewrite <- string_app_cons, endswith_snoc. done. }
  by rewrite tokenize_parenthesised, middle_parenthesised.
Qed.

Lemma parse_list_symbol_step k token tokens :
  token ≠ "(" → token ≠ ")" → token ≠ "'" →
  Parser.parse_list (S k) (token :: tokens)
  = parsed ← Parser.parse_expression k token;
    parsed_tokens ← Parser.parse_list k tokens;
    Ret (parsed :: parsed_tokens).
Proof.
  intros Ho Hc Hq. apply String.eqb_neq in Ho, Hc, Hq.
  cbn [Parser.parse_list]. by rewrite Ho, Hc, Hq.
Qed.

Lemma parse_list_nested_step k inner rest :
  balanced inner = true →
  Parser.parse_list (S k) ("(" :: inner ++ ")" :: rest)
  = nested ← Parser.parse_list k inner;
    parsed_tokens ← Parser.parse_list k rest;
    Ret (VList nested :: parsed_tokens).
Proof.
  intros Hb. cbn [Parser.parse_list]. change (String.eqb "(" "(") with true. cbv iota.
  by rewrite extract_sublist_balanced.
Qed.

Lemma symbol_not_paren t : symbol t → t ≠ "(" ∧ t ≠ ")".
Proof. intros [_ Ht]. split; intros ->; by vm_compute in Ht. Qed.

Lemma symbol_no_open t : symbol t → no_open t = true.
Proof.
  intros [_ Ht]. unfold no_open. induction t as [|c t IH]; [done|].
  cbn [all_chars] in *. apply andb_true_iff in Ht as [Hc Ht].
  apply symbol_char_spec in Hc as (_ & -> & _). by apply IH.
Qed.

Lemma parse_quote_symbol k : Parser.parse_expression (S k) "quote" = Ret (VStr "quote").
Proof. apply (parse_expression_more 1 (S k)); [reflexivity | done | lia]. Qed.

Lemma tokenize_quote_words s :
  Parser.tokenize ("quote" +:+ String " " s) = "quote" :: Parser.tokenize s.
Proof. unfold Parser.tokenize. rewrite scan_symbol by done. by rewrite scan_space. Qed.

Lemma rstrip_head s c r : Parser.rstrip s = String c r → ∃ s', s = String c s'.
Proof.
  destruct s as [|d s]; [done|]. cbn [Parser.rstrip].
  destruct (Parser.rstrip s); [destruct (Parser.isspace d)|]; intros [= -> _]; eauto.
Qed.

Lemma scan_after_run r s c s' :
  Parser.lstrip s = String c s' → Ascii.eqb c "(" || Ascii.eqb c ")" = true →
  Parser.scan r s = Parser.flush r ++ Parser.scan "" s.
Proof.
  intros Hs Hc. destruct s as [|d s]; [done|]. cbn [Parser.lstrip] in Hs.
  destruct (Parser.isspace d) eqn:Hd.
  - by rewrite !scan_space.
  - injection Hs as -> ->. by rewrite !scan_paren.
Qed.

Lemma parse_list_quoted_list_step k inner rest :
  balanced inner = true →
  Parser.parse_list (S k) ("'" :: "(" :: inner ++ ")" :: rest)
  = quoted_expr ← Parser.parse_list k inner;
    parsed_tokens ← Parser.parse_list k rest;
    Ret (Parser.quote (VList quoted_expr) :: parsed_tokens).
Proof.
  intros Hb. cbn [Parser.parse_list]. change (String.eqb "'" "(") with false.
  change (String.eqb "'" ")") with false. change (String.eqb "'" "'") with true. cbv iota.
  unfold Parser.handle_quotation. change (String.eqb "(" "(") with true. cbv iota.
  rewrite extract_sublist_balanced by done. cbn [mbind outcome_bind].
  by destruct (Parser.parse_list k inner).
Qed.

(** The parse of a datum, and of what the list parser makes of its tokens. *)
Lemma parse_datum X :
  datum X →
  ∃ n r, r ≠ OutOfFuel ∧
    (∀ k, (n ≤ k)%nat → Parser.parse_expression k (Parser.strip X) = r) ∧
    (∀ k, (n ≤ k)%nat →
       Parser.parse_list k (Parser.tokenize X) = parsed ← r; Ret [parsed]).
Proof.
  intros [[Hne Hsym] Hq|Y HX Hb|Z Y HX HZ Hb].
  - set (t := Parser.strip X) in *.
    exists (S (S (String.length t))), (Parser.parse_expression (S (String.length t)) t).
    assert (Parser.parse_expression (S (String.length t)) t ≠ OutOfFuel) as Hr.
    { apply parse_expression_no_open; [by apply symbol_no_open|lia]. }
    split; [done|]. split.
    + intros k Hk. apply (parse_expression_more (S (String.length t))); [done..|lia].
    + intros k Hk. rewrite <- tokenize_strip. fold t. rewrite tokenize_symbol by done.
      destruct k as [|[|k]]; [lia..|].
      destruct (symbol_not_paren t) as [Ho Hc]; [done|].
      rewrite parse_list_symbol_step by done.
      rewrite (parse_expression_more (S (String.length t)) (S k) t _ eq_refl) by (done || lia).
      by destruct (Parser.parse_expression _ t).
  - destruct (parse_list_tokenize_total Y) as (n & rl & Hrl & Hn).
    exists (S (S n)), (VList <$> rl). split; [by apply fmap_not_OutOfFuel|]. split.
    + intros k Hk. destruct k as [|k]; [lia|].
      rewrite HX, parse_parenthesised_step, Hn by lia. done.
    + intros k Hk. rewrite <- tokenize_strip, HX, tokenize_parenthesised.
      destruct k as [|[|k]]; [lia..|].
      rewrite (parse_list_nested_step (S k) (Parser.tokenize Y) []) by done.
      rewrite Hn by lia. by destruct rl.
  - destruct (parse_list_tokenize_total Y) as (n & rl & Hrl & Hn).
    exists (S (S (S n))), (Parser.quote <$> (VList <$> rl)).
    split; [by apply fmap_not_OutOfFuel, fmap_not_OutOfFuel|]. split.
    + intros k Hk. destruct k as [|[|k]]; [lia..|].
      rewrite HX, parse_quoted_step, HZ, parse_parenthesised_step, Hn by lia. done.
    + intros k Hk. rewrite <- tokenize_strip, HX. unfold Parser.tokenize.
      destruct (rstrip_head _ _ _ HZ) as [s' Hl].
      rewrite (scan_symbol_char "" "'" Z eq_refl).
      change ("" +:+ String "'" "") with "'".
      rewrite (scan_after_run "'" Z "(" s' Hl eq_refl). cbn [Parser.flush app].
      fold (Parser.tokenize Z). rewrite <- (tokenize_strip Z), HZ, tokenize_parenthesised.
      destruct k as [|[|k]]; [lia..|].
      rewrite (parse_list_quoted_list_step (S k) (Parser.tokenize Y) []) by done.
      rewrite Hn by lia. by destruct rl.
Qed.

(** C7, as amended: for every text [X] that holds one datum (a symbol
    other than the lone quote marker, a balanced parenthesised list, or
    such a list behind one quote marker), parsing ['X] and parsing
    [(quote X)] give the same result, the two-element list of the symbol
    [quote] and the parse of [X] (or the error that parsing [X] raises);
    in particular ['(a b)] and [(quote (a b))] both parse to
    [['quote', ['a', 'b']]]. *)
Theorem C7_quote_shorthand_is_quote_form :
  (∀ X, datum X →
     ∃ r, parses X r ∧
          parses ("'" +:+ X) (Parser.quote <$> r) ∧
          parses ("(quote " +:+ X +:+ ")") (Parser.quote <$> r)) ∧
  parses "'(a b)" (Ret (VList [VStr "quote"; VList [VStr "a"; VStr "b"]])) ∧
  parses "(quote (a b))" (Ret (VList [VStr "quote"; VList [VStr "a"; VStr "b"]])).
Proof.
  split; [|split; by apply (parses_intro 10)].
  intros X HX. destruct (parse_datum X HX) as (n & r & Hr & Hexpr & Hlist).
  assert (Parser.quote <$> r ≠ OutOfFuel) as Hqr by by apply fmap_not_OutOfFuel.
  exists r. split; [|split]; (split; [done|]).
  - exists n. intros m Hm. rewrite <- parse_expression_strip. by apply Hexpr.
  - exists (S n). intros m Hm. destruct m as [|k]; [lia|].
    change ("'" +:+ X) with (String "'" X).
    rewrite parse_quoted_step, Hexpr by lia. done.
  - exists (S (S (S n))). intros m Hm. destruct m as [|[|[|k]]]; [lia..|].
    change ("(quote " +:+ X +:+ ")") with (String "(" (("quote" +:+ String " " X) +:+ ")")).
    rewrite parse_parenthesised_step, tokenize_quote_words.
    rewrite parse_list_symbol_step by done.
    rewrite parse_quote_symbol, Hlist by lia. by destruct r.
Qed.

Lemma C7_witness :
  ∃ r, parses "(a (b) 'c)" r ∧
       parses ("'" +:+ "(a (b) 'c)") (Parser.quote <$> r) ∧
       parses ("(quote " +:+ "(a (b) 'c)" +:+ ")") (Parser.quote <$> r).
Proof.
  apply (proj1 C7_quote_shorthand_is_quote_form "(a (b) 'c)").
  apply (datum_list _ "a (b) 'c"); [reflexivity|vm_compute; reflexivity].
Defined.

(** The claim as stated fails on the text [a b]: ['a b] parses to the
    quotation of the one symbol [a b], [(quote a b)] to a list of three
    elements. *)
Lemma C7_counterexample :
  parses ("'" +:+ "a b") (Ret (VList [VStr "quote"; VStr "a b"])) ∧
  parses ("(quote " +:+ "a b" +:+ ")") (Ret (VList [VStr "quote"; VStr "a"; VStr "b"])) ∧
  ¬ ∃ r, parses ("'" +:+ "a b") r ∧ parses ("(quote " +:+ "a b" +:+ ")") r.
Proof.
  assert (parses ("'" +:+ "a b") (Ret (VList [VStr "quote"; VStr "a b"]))) as H1
    by by apply (parses_intro 10).
  assert (parses ("(quote " +:+ "a b" +:+ ")") (Ret (VList [VStr "quote"; VStr "a"; VStr "b"])))
    as H2 by by apply (parses_intro 10).
  split; [done|]. split; [done|]. intros (r & Hr1 & Hr2).
  pose proof (parses_unique _ _ _ H1 Hr1). pose proof (parses_unique _ _ _ H2 Hr2).
  congruence.
Qed.

(** * Further properties of the parser *)

(** ** The tokenizer *)

Lemma all_chars_app p s t : all_chars p (s +:+ t) = all_chars p s && all_chars p t.
Proof.
  induction s as [|c s IH]; [done|].
  rewrite string_app_cons. cbn [all_chars]. rewrite IH. by rewrite andb_assoc.
Qed.

Lemma symbol_char_intro c :
  Ascii.eqb c "(" || Ascii.eqb c ")" = false → Parser.isspace c = false → symbol_char c = true.
Proof.
  intros Hp Hs. apply orb_false_iff in Hp as [H1 H2]. unfold symbol_char.
  by rewrite Hs, H1, H2.
Qed.

Lemma flush_tokens r : all_chars symbol_char r = true → Forall token (Parser.flush r).
Proof.
  intros Hr. destruct r as [|c r]; [constructor|].
  constructor; [|constructor]. right; right. by split.
Qed.

Lemma paren_token c : Ascii.eqb c "(" || Ascii.eqb c ")" = true → token (String c "").
Proof.
  intros H. apply orb_true_iff in H as [H|H]; apply Ascii.eqb_eq in H as ->.
  - by left.
  - right; by left.
Qed.

Lemma scan_tokens s : ∀ r, all_chars symbol_char r = true → Forall token (Parser.scan r s).
Proof.
  induction s as [|c s IH]; intros r Hr; cbn [Parser.scan].
  - by apply flush_tokens.
  - destruct (Ascii.eqb c "(" || Ascii.eqb c ")") eqn:Hp.
    { apply Forall_app. split; [by apply flush_tokens|].
      constructor; [by apply paren_token|by apply IH]. }
    destruct (Parser.isspace c) eqn:Hs.
    { apply Forall_app. split; [by apply flush_tokens|by apply IH]. }
    apply IH. rewrite all_chars_app, Hr. cbn [all_chars].
    by rewrite (symbol_char_intro c Hp Hs).
Qed.

Lemma join_empty_app l1 l2 : join "" (l1 ++ l2) = join "" l1 +:+ join "" l2.
Proof.
  induction l1 as [|x l1 IH]; [done|].
  cbn [app]. destruct l1 as [|y l1].
  - cbn [app join]. destruct l2; [by rewrite string_app_nil_r|done].
  - change (join "" (x :: (y :: l1) ++ l2)) with (x +:+ "" +:+ join "" ((y :: l1) ++ l2)).
    rewrite IH. change (join "" (x :: y :: l1)) with (x +:+ "" +:+ join "" (y :: l1)).
    cbn [String.app]. by rewrite string_app_assoc.
Qed.

Lemma join_flush r : join "" (Parser.flush r) = r.
Proof. by destruct r. Qed.

Lemma scan_without_spaces s : ∀ r, join "" (Parser.scan r s) = r +:+ without_spaces s.
Proof.
  induction s as [|c s IH]; intros r; cbn [Parser.scan without_spaces].
  - by rewrite join_flush, string_app_nil_r.
  - destruct (Ascii.eqb c "(" || Ascii.eqb c ")") eqn:Hp.
    { assert (Parser.isspace c = false) as ->.
      { destruct (Parser.isspace c) eqn:Hs; [|done].
        destruct (isspace_not_paren c Hs) as [H1 H2]. by rewrite H1, H2 in Hp. }
      rewrite join_empty_app, join_flush.
      change (String c "" :: Parser.scan "" s) with ([String c ""] ++ Parser.scan "" s).
      rewrite join_empty_app, IH. done. }
    destruct (Parser.isspace c) eqn:Hs.
    { by rewrite join_empty_app, join_flush, IH. }
    rewrite IH, string_app_assoc. done.
Qed.

(** X1: the tokens of a text are parentheses and symbols, a symbol
    being a text, not empty, without white space and parentheses; put
    end to end they are the text without its white space. *)
Theorem X1_tokens_are_parentheses_and_symbols :
  ∀ tokens_str,
    Forall token (Parser.tokenize tokens_str) ∧
    join "" (Parser.tokenize tokens_str) = without_spaces tokens_str.
Proof.
  intros s. split.
  - by apply scan_tokens.
  - apply (scan_without_spaces s "").
Qed.

Lemma scan_space_between s : ∀ r t,
  Parser.scan r (s +:+ String " " t) = Parser.scan r s ++ Parser.scan "" t.
Proof.
  induction s as [|c s IH]; intros r t.
  - change ("" +:+ String " " t) with (String " " t). by rewrite scan_space.
  - rewrite string_app_cons. cbn [Parser.scan].
    destruct (Ascii.eqb c "(" || Ascii.eqb c ")").
    { rewrite IH. by rewrite <- app_assoc. }
    destruct (Parser.isspace c); [by rewrite IH, app_assoc|apply IH].
Qed.

(** The tokens of texts joined by spaces are the tokens of the texts. *)
Lemma tokenize_join l : Parser.tokenize (join " " l) = concat (map Parser.tokenize l).
Proof.
  induction l as [|x l IH]; [done|]. destruct l as [|y l].
  - cbn [join map concat]. by rewrite app_nil_r.
  - change (join " " (x :: y :: l)) with (x +:+ String " " (join " " (y :: l))).
    unfold Parser.tokenize at 1. rewrite scan_space_between.
    cbn [map concat] in *. by rewrite <- IH.
Qed.

Lemma tokenize_token t : token t → Parser.tokenize t = [t].
Proof. intros [->|[->|H]]; [done|done|by apply tokenize_symbol]. Qed.

(** X2: tokens joined by spaces are tokenized into themselves; so the
    tokens of a text, joined by spaces, have the tokens of the text. *)
Theorem X2_tokenize_join_round_trip :
  (∀ tokens, Forall token tokens → Parser.tokenize (join " " tokens) = tokens) ∧
  (∀ tokens_str,
     Parser.tokenize (join " " (Parser.tokenize tokens_str)) = Parser.tokenize tokens_str).
Proof.
  assert (∀ tokens, Forall token tokens → Parser.tokenize (join " " tokens) = tokens) as H.
  { intros tokens Htokens. rewrite tokenize_join.
    induction Htokens as [|t tokens Ht _ IH]; [done|].
    cbn [map concat]. by rewrite IH, (tokenize_token t Ht). }
  split; [done|]. intros s. apply H, scan_tokens. done.
Qed.

Lemma X2_witness :
  Forall token ["("; "a"; "("; "b"; ")"; ")"] ∧
  Parser.tokenize (join " " ["("; "a"; "("; "b"; ")"; ")"]) = ["("; "a"; "("; "b"; ")"; ")"].
Proof.
  assert (Forall token ["("; "a"; "("; "b"; ")"; ")"]) as H.
  { repeat (apply Forall_cons_2;
              [first [by left | by (right; left) | by (right; right; split)]|]).
    apply Forall_nil_2. }
  split; [done|]. apply (proj1 X2_tokenize_join_round_trip _ H).
Defined.

(** ** Sublists *)

Lemma extract_loop_balanced tokens : ∀ depth sub_expr sub rest,
  Parser.extract_loop (S depth) sub_expr tokens = Ret (sub, rest) →
  ∃ mid, sub = sub_expr ++ mid ∧ tokens = mid ++ ")" :: rest ∧ closes depth mid = true.
Proof.
  induction tokens as [|token tokens IH]; intros depth sub_expr sub rest H; [done|].
  cbn [Parser.extract_loop] in H.
  destruct (String.eqb token "(") eqn:Ho.
  { apply IH in H as (mid & -> & -> & Hc). exists (token :: mid).
    rewrite <- app_assoc. cbn [closes]. by rewrite Ho. }
  destruct (String.eqb token ")") eqn:Hcl.
  { destruct depth as [|d].
    - injection H as <- <-. exists []. rewrite app_nil_r.
      apply String.eqb_eq in Hcl as ->. done.
    - cbn [pred] in H. apply IH in H as (mid & -> & -> & Hc). exists (token :: mid).
      rewrite <- app_assoc. cbn [closes]. by rewrite Ho, Hcl. }
  apply IH in H as (mid & -> & -> & Hc). exists (token :: mid).
  rewrite <- app_assoc. cbn [closes]. by rewrite Ho, Hcl.
Qed.

Lemma extract_loop_returns_or_raises tokens : ∀ depth sub_expr,
  (∃ sub rest, Parser.extract_loop depth sub_expr tokens = Ret (sub, rest)) ∨
  Parser.extract_loop depth sub_expr tokens
  = Raise (Exn SyntaxError "Unmatched opening parenthesis").
Proof.
  induction tokens as [|token tokens IH]; intros depth sub_expr; [by right|].
  cbn [Parser.extract_loop]. destruct (String.eqb token "("); [apply IH|].
  destruct (String.eqb token ")"); [|apply IH].
  destruct depth as [|[|d]]; [apply IH|left; by eexists _, _|apply IH].
Qed.

(** X3: [extract_sublist] returns the tokens up to the parenthesis that
    closes the list, and the tokens behind it: the first is the one
    prefix of the tokens that is balanced and followed by a closing
    parenthesis.  Where there is none it raises the syntax error of an
    unmatched opening parenthesis, and nothing else. *)
Theorem X3_extract_sublist_splits_at_the_closing_parenthesis :
  ∀ tokens,
    (∀ sub_expr rest,
       Parser.extract_sublist tokens = Ret (sub_expr, rest)
       ↔ tokens = sub_expr ++ ")" :: rest ∧ balanced sub_expr = true) ∧
    (Parser.extract_sublist tokens = Raise (Exn SyntaxError "Unmatched opening parenthesis")
     ↔ ¬ ∃ sub_expr rest, tokens = sub_expr ++ ")" :: rest ∧ balanced sub_expr = true) ∧
    ((∃ sub_expr rest, Parser.extract_sublist tokens = Ret (sub_expr, rest)) ∨
     Parser.extract_sublist tokens = Raise (Exn SyntaxError "Unmatched opening parenthesis")).
Proof.
  intros tokens.
  assert (∀ sub_expr rest,
       Parser.extract_sublist tokens = Ret (sub_expr, rest)
       ↔ tokens = sub_expr ++ ")" :: rest ∧ balanced sub_expr = true) as Hiff.
  { intros sub rest. split.
    - intros (mid & -> & -> & Hc)%extract_loop_balanced. done.
    - intros [-> Hb]. by apply extract_sublist_balanced. }
  split; [done|]. split; [|apply extract_loop_returns_or_raises].
  split.
  - intros Hraise (sub & rest & H). apply Hiff in H. congruence.
  - intros Hnone. destruct (extract_loop_returns_or_raises tokens 1 []) as [(sub & rest & H)|H];
      [|done].
    destruct Hnone. exists sub, rest. by apply Hiff.
Qed.

Lemma X3_witness :
  Parser.extract_sublist ["a"; "("; "b"; ")"; ")"; "c"; ")"]
  = Ret (["a"; "("; "b"; ")"], ["c"; ")"]).
Proof.
  apply (proj1 (X3_extract_sublist_splits_at_the_closing_parenthesis
                  ["a"; "("; "b"; ")"; ")"; "c"; ")"]) ["a"; "("; "b"; ")"] ["c"; ")"]).
  split; reflexivity.
Defined.

(** ** What the parser returns, what it raises *)

Lemma returns_or_raises_bind {A B} (m : outcome A) (k : A → outcome B) :
  returns_or_raises m → (∀ a, returns_or_raises (k a)) → returns_or_raises (m ≫= k).
Proof. intros Hm Hk. destruct m; [apply Hk|done..]. Qed.

Lemma returns_or_raises_decimal s : ∀ acc, returns_or_raises (Parser.decimal acc s).
Proof.
  induction s as [|c s IH]; intros acc; cbn [Parser.decimal]; [done|].
  destruct (_ && _); [apply IH|]. cbn. unfold parser_errors. set_solver.
Qed.

Lemma returns_or_raises_py_int s : returns_or_raises (Parser.py_int s).
Proof.
  unfold Parser.py_int. destruct s as [|c s]; [done|].
  destruct (Ascii.eqb_spec c "-") as [->|Hc].
  - apply returns_or_raises_bind; [apply returns_or_raises_decimal|done].
  - destruct c as [[] [] [] [] [] [] [] []]; try apply returns_or_raises_decimal. done.
Qed.

Lemma returns_or_raises_is_number s : returns_or_raises (Parser.is_number s).
Proof. destruct s; [|done]. cbn. unfold parser_errors. set_solver. Qed.

Lemma returns_or_raises_extract tokens : returns_or_raises (Parser.extract_sublist tokens).
Proof.
  destruct (extract_loop_returns_or_raises tokens 1 []) as [(sub & rest & H)|H];
    unfold Parser.extract_sublist; rewrite H; [done|].
  cbn. unfold parser_errors. set_solver.
Qed.

Lemma parse_returns_or_raises n :
  (∀ s, returns_or_raises (Parser.parse_expression n s)) ∧
  (∀ tokens, returns_or_raises (Parser.parse_list n tokens)).
Proof.
  induction n as [|n [IHe IHl]]; [done|]. split.
  - intros s. cbn [Parser.parse_expression].
    destruct (Parser.startswith _ _).
    { apply returns_or_raises_bind; [apply IHe|done]. }
    apply returns_or_raises_bind; [apply returns_or_raises_is_number|]. intros [|].
    { apply returns_or_raises_bind; [apply returns_or_raises_py_int|done]. }
    destruct (Parser.is_list _); [|done].
    apply returns_or_raises_bind; [apply IHl|done].
  - intros [|token tokens]; [done|]. cbn [Parser.parse_list].
    destruct (String.eqb token "(").
    { apply returns_or_raises_bind; [apply returns_or_raises_extract|]. intros [sub rest].
      apply returns_or_raises_bind; [apply IHl|]. intros nested.
      apply returns_or_raises_bind; [apply IHl|done]. }
    destruct (String.eqb token ")"); [cbn; unfold parser_errors; set_solver|].
    destruct (String.eqb token "'").
    { apply returns_or_raises_bind.
      - unfold Parser.handle_quotation. destruct tokens as [|next tokens].
        { cbn. unfold parser_errors. set_solver. }
        destruct (String.eqb next "(").
        + apply returns_or_raises_bind; [apply returns_or_raises_extract|]. intros [sub rest].
          apply returns_or_raises_bind; [apply IHl|done].
        + apply returns_or_raises_bind; [apply IHe|done].
      - intros [quoted rest]. apply returns_or_raises_bind; [apply IHl|done]. }
    apply returns_or_raises_bind; [apply IHe|]. intros parsed.
    apply returns_or_raises_bind; [apply IHl|done].
Qed.

(** X4: the parser returns on every text, within a budget of twice the
    length of the text and three: a value, or one of five exceptions, the
    three syntax errors of the parser, the index error of the empty text
    and the value error of a number that [int] does not read. *)
Theorem X4_parser_returns_or_raises_one_of_five :
  ∀ expression,
    ∃ r, parses expression r ∧
         (∀ fuel, (2 * String.length expression + 3 ≤ fuel)%nat →
                  Parser.parse_expression fuel expression = r) ∧
         ((∃ v, r = Ret v) ∨ (∃ e, r = Raise e ∧ e ∈ parser_errors)).
Proof.
  intros s. set (n := (2 * String.length s + 3)%nat).
  pose proof (parse_expression_total (String.length s) s ltac:(lia)) as Hne.
  fold n in Hne. exists (Parser.parse_expression n s). split; [|split].
  - by apply (parses_intro n).
  - intros fuel Hfuel. by apply (parse_expression_more n).
  - pose proof (proj1 (parse_returns_or_raises n) s) as H.
    destruct (Parser.parse_expression n s) as [v|e| |w]; [left; by exists v| |done..].
    right. by exists e.
Qed.

(** Witness: a superscript two is a digit for [isdigit] and not for [int]. *)
Lemma X4_witness :
  ∃ r, parses (String (ascii_of_N 178) "") r ∧
       (∀ fuel, (2 * String.length (String (ascii_of_N 178) "") + 3 ≤ fuel)%nat →
                Parser.parse_expression fuel (String (ascii_of_N 178) "") = r) ∧
       ((∃ v, r = Ret v) ∨ (∃ e, r = Raise e ∧ e ∈ parser_errors)).
Proof. exact (X4_parser_returns_or_raises_one_of_five (String (ascii_of_N 178) "")). Defined.

Lemma expression_quote v : expression v → expression (Parser.quote v).
Proof.
  intros Hv. apply expression_list.
  apply Forall_cons_2; [|apply Forall_cons_2; [done|apply Forall_nil_2]].
  apply expression_symbol. repeat split; by vm_compute.
Qed.

Lemma parse_expressions n :
  (∀ s v, Parser.parse_expression n s = Ret v → expression v) ∧
  (∀ tokens vs, Parser.parse_list n tokens = Ret vs → Forall expression vs).
Proof.
  induction n as [|n [IHe IHl]]; [done|]. split.
  - intros s v. cbn [Parser.parse_expression].
    destruct (Parser.startswith "'" (Parser.strip s)) eqn:Hq.
    { destruct (Parser.parse_expression n _) as [quoted| | |] eqn:H; try done.
      intros [= <-]. apply expression_quote. by apply (IHe _ _ H). }
    destruct (Parser.is_number (Parser.strip s)) as [[|]| | |] eqn:Hn; try done.
    { destruct (Parser.py_int _); try done. intros [= <-]. constructor. }
    cbn [mbind outcome_bind].
    destruct (Parser.is_list (Parser.strip s)) eqn:Hl.
    + destruct (Parser.parse_list n _) as [l| | |] eqn:H; try done.
      intros [= <-]. constructor. by apply (IHl _ _ H).
    + intros [= <-]. constructor. repeat split; [apply strip_idem|done..].
  - intros [|token tokens] vs; [intros [= <-]; constructor|].
    cbn [Parser.parse_list].
    destruct (String.eqb token "(").
    { destruct (Parser.extract_sublist tokens) as [[sub rest]| | |]; try done.
      cbn [mbind outcome_bind].
      destruct (Parser.parse_list n sub) as [nested| | |] eqn:Hsub; try done.
      cbn [mbind outcome_bind].
      destruct (Parser.parse_list n rest) as [parsed| | |] eqn:Hrest; try done.
      intros [= <-]. constructor; [constructor; by apply (IHl _ _ Hsub)|by apply (IHl _ _ Hrest)]. }
    destruct (String.eqb token ")"); [done|].
    destruct (String.eqb token "'").
    { unfold Parser.handle_quotation. destruct tokens as [|next tokens]; [done|].
      destruct (String.eqb next "(").
      - destruct (Parser.extract_sublist tokens) as [[sub rest]| | |]; try done.
        cbn [mbind outcome_bind].
        destruct (Parser.parse_list n sub) as [quoted| | |] eqn:Hsub; try done.
        cbn [mbind outcome_bind].
        destruct (Parser.parse_list n rest) as [parsed| | |] eqn:Hrest; try done.
        intros [= <-]. constructor; [|by apply (IHl _ _ Hrest)].
        apply expression_quote. constructor. by apply (IHl _ _ Hsub).
      - destruct (Parser.parse_expression n next) as [quoted| | |] eqn:Hnext; try done.
        cbn [mbind outcome_bind].
        destruct (Parser.parse_list n tokens) as [parsed| | |] eqn:Hrest; try done.
        intros [= <-]. constructor; [|by apply (IHl _ _ Hrest)].
        apply expression_quote. by apply (IHe _ _ Hnext). }
    destruct (Parser.parse_expression n token) as [parsed| | |] eqn:Htoken; try done.
    cbn [mbind outcome_bind].
    destruct (Parser.parse_list n tokens) as [parsed_tokens| | |] eqn:Hrest; try done.
    intros [= <-]. constructor; [by apply (IHe _ _ Htoken)|by apply (IHl _ _ Hrest)].
Qed.

(** X5: what the parser returns is an expression: an integer, a symbol
    or a list of expressions, and neither a boolean, nor [None], nor a
    fraction; a symbol is a stripped text, not empty, that is not a
    quotation, not a number and not between parentheses. *)
Theorem X5_parser_returns_expressions :
  ∀ s v, parses s (Ret v) → expression v.
Proof.
  intros s v [_ [n Hn]]. apply (proj1 (parse_expressions n) s). by apply Hn.
Qed.

Lemma X5_witness : expression (VList [VStr "quote"; VList [VStr "a"; VInt 1]]).
Proof.
  apply (X5_parser_returns_expressions "'(a 1)"). by apply (parses_intro 6).
Defined.

(** ** Balanced parentheses *)

Lemma closes_app l1 : ∀ d k l2,
  closes d l1 = true → closes (d + k) (l1 ++ l2) = closes k l2.
Proof.
  induction l1 as [|token l1 IH]; intros d k l2 H.
  - cbn in H. by apply Nat.eqb_eq in H as ->.
  - cbn [app closes] in *. destruct (String.eqb token "(").
    { by apply (IH (S d)). }
    destruct (String.eqb token ")"); [|by apply IH].
    destruct d as [|d]; [done|]. by apply IH.
Qed.

Lemma balanced_nested sub rest :
  balanced sub = true → balanced ("(" :: sub ++ ")" :: rest) = balanced rest.
Proof. intros H. unfold balanced. cbn [closes String.eqb]. apply (closes_app sub 0 1), H. Qed.

Lemma parse_list_balanced n : ∀ tokens vs,
  Forall (λ t, t ≠ "'") tokens →
  Parser.parse_list n tokens = Ret vs → balanced tokens = true.
Proof.
  induction n as [|n IH]; [done|]. intros [|token tokens] vs Hq; [done|].
  apply Forall_cons in Hq as [Ht Hq]. cbn [Parser.parse_list].
  destruct (String.eqb_spec token "(") as [->|Ho].
  { destruct (Parser.extract_sublist tokens) as [[sub rest]| | |] eqn:Hx; try done.
    apply extract_loop_balanced in Hx as (mid & -> & -> & Hmid).
    apply Forall_app in Hq as [_ Hrest]. apply Forall_cons in Hrest as [_ Hrest].
    cbn [mbind outcome_bind app].
    destruct (Parser.parse_list n mid); try done. cbn [mbind outcome_bind].
    destruct (Parser.parse_list n rest) as [parsed| | |] eqn:Hr; try done.
    intros _. rewrite balanced_nested by done. by apply (IH rest parsed). }
  destruct (String.eqb_spec token ")") as [->|Hc]; [done|].
  destruct (String.eqb_spec token "'") as [->|_]; [done|].
  destruct (Parser.parse_expression n token); try done. cbn [mbind outcome_bind].
  destruct (Parser.parse_list n tokens) as [parsed| | |] eqn:Hr; try done.
  intros _. unfold balanced. cbn [closes].
  apply String.eqb_neq in Ho, Hc. rewrite Ho, Hc. by apply (IH tokens parsed).
Qed.

(** X6: where no token is the quotation mark, [parse_list] returns a
    value only on balanced tokens, and the parser returns a value for a
    text between parentheses only if the tokens between them are
    balanced: a closing parenthesis too many, an opening one that is
    not closed, or a second list behind the first, make it raise. *)
Theorem X6_lists_are_returned_for_balanced_tokens_only :
  (∀ fuel tokens parsed_tokens,
     Forall (λ t, t ≠ "'") tokens →
     Parser.parse_list fuel tokens = Ret parsed_tokens → balanced tokens = true) ∧
  (∀ s v,
     Forall (λ t, t ≠ "'") (Parser.tokenize s) →
     parses (String "(" (s +:+ ")")) (Ret v) → balanced (Parser.tokenize s) = true).
Proof.
  split; [apply parse_list_balanced|].
  intros s v Hq [_ [n Hn]]. specialize (Hn (S n) ltac:(lia)).
  rewrite parse_parenthesised_step in Hn.
  destruct (Parser.parse_list n (Parser.tokenize s)) as [l| | |] eqn:Hl; try done.
  by apply (parse_list_balanced n _ l).
Qed.

Lemma X6_witness :
  balanced ["a"; "("; "b"; ")"] = true ∧ balanced (Parser.tokenize "a (b)") = true.
Proof.
  split.
  - apply (proj1 X6_lists_are_returned_for_balanced_tokens_only 4%nat ["a"; "("; "b"; ")"]
             [VStr "a"; VList [VStr "b"]]); [|done].
    repeat (apply Forall_cons_2; [done|]). apply Forall_nil_2.
  - apply (proj2 X6_lists_are_returned_for_balanced_tokens_only "a (b)"
             (VList [VStr "a"; VList [VStr "b"]])).
    + repeat (apply Forall_cons_2; [done|]). apply Forall_nil_2.
    + by apply (parses_intro 5).
Defined.

(** ** Printing and reading back *)

(** Induction on a value and on the elements of a list value. *)
Lemma value_ind_nested (P : value → Prop) :
  (∀ z, P (VInt z)) → (∀ n d, P (VFrac n d)) → (∀ b, P (VBool b)) → P VNone →
  (∀ s, P (VStr s)) → (∀ l, Forall P l → P (VList l)) → ∀ v, P v.
Proof.
  intros Hint Hfrac Hbool Hnone Hstr Hlist. fix IH 1.
  intros [z|n d|b| |s|l];
    [apply Hint|apply Hfrac|apply Hbool|apply Hnone|apply Hstr|apply Hlist]. induction l as [|x l IHl]; constructor; [apply IH|apply IHl].
Qed.

Lemma forallb_all_chars p s : forallb p (list_ascii_of_string s) = all_chars p s.
Proof. induction s as [|c s IH]; [done|]. cbn. by rewrite IH. Qed.

Lemma lstrip_symbol_chars s : all_chars symbol_char s = true → Parser.lstrip s = s.
Proof.
  destruct s as [|c s]; [done|]. cbn [all_chars Parser.lstrip].
  intros [Hc _]%andb_true_iff. apply symbol_char_spec in Hc as (-> & _). done.
Qed.

Lemma rstrip_symbol_chars s : all_chars symbol_char s = true → Parser.rstrip s = s.
Proof.
  induction s as [|c s IH]; [done|]. cbn [all_chars].
  intros [Hc Hs]%andb_true_iff. apply symbol_char_spec in Hc as (Hc & _).
  by rewrite rstrip_nonspace, IH.
Qed.

Lemma strip_symbol s : symbol s → Parser.strip s = s.
Proof.
  intros [_ Hs]. unfold Parser.strip. by rewrite lstrip_symbol_chars, rstrip_symbol_chars.
Qed.

Lemma is_list_symbol s : symbol s → Parser.is_list s = false.
Proof.
  intros [Hne Hs]. destruct s as [|c s]; [done|]. cbn [all_chars] in Hs.
  apply andb_true_iff in Hs as [Hc _]. apply symbol_char_spec in Hc as (_ & Hc & _).
  unfold Parser.is_list. cbn [Parser.startswith]. by rewrite Hc.
Qed.

(** A plain symbol is parsed into itself. *)
Lemma parse_plain_symbol k s :
  plain_symbol s → Parser.parse_expression (S k) s = Ret (VStr s).
Proof.
  intros (Hs & Hq & Hn). cbn [Parser.parse_expression].
  rewrite (strip_symbol s Hs), Hq, Hn. cbn [mbind outcome_bind].
  by rewrite (is_list_symbol s Hs).
Qed.

(** *** Decimal numerals *)

Lemma pretty_N_char_code y : (y < 10)%N → code (pretty_N_char y) = (48 + y)%N.
Proof.
  intros Hy.
  assert (y = 0 ∨ y = 1 ∨ y = 2 ∨ y = 3 ∨ y = 4 ∨ y = 5 ∨ y = 6 ∨ y = 7 ∨ y = 8 ∨ y = 9)%N
    as H by lia.
  repeat destruct H as [->|H]; try done. by subst.
Qed.

Lemma pretty_N_char_digit y : (y < 10)%N → decimal_digit (pretty_N_char y) = true.
Proof.
  intros Hy. unfold decimal_digit. rewrite (pretty_N_char_code y Hy).
  apply andb_true_iff. split; [apply N.leb_le|apply N.leb_le]; lia.
Qed.

Lemma decimal_digit_step acc c s :
  decimal_digit c = true →
  Parser.decimal acc (String c s) = Parser.decimal (10 * acc + (Z.of_N (code c) - 48)) s.
Proof. intros Hc. cbn [Parser.decimal]. unfold decimal_digit in Hc. by rewrite Hc. Qed.

(** Reading the digits that [pretty] wrote. *)
Lemma decimal_pretty_N_go x :
  ∃ p, ∀ s acc, Parser.decimal acc (pretty_N_go x s) = Parser.decimal (acc * p + Z.of_N x) s.
Proof.
  induction (N.lt_wf_0 x) as [x _ IH].
  assert (x = 0 ∨ 0 < x)%N as [->|Hx] by lia.
  - exists 1. intros s acc. rewrite pretty_N_go_0. f_equal. lia.
  - destruct (IH (x `div` 10)%N) as [p Hp]; [by apply N.div_lt|].
    exists (10 * p). intros s acc. rewrite pretty_N_go_step, Hp by done.
    assert (x `mod` 10 < 10)%N as Hm by (apply N.mod_lt; lia).
    rewrite decimal_digit_step by by apply pretty_N_char_digit.
    f_equal. rewrite (pretty_N_char_code _ Hm).
    rewrite N2Z.inj_add, N2Z.inj_div, N2Z.inj_mod. change (Z.of_N 10) with 10.
    change (Z.of_N 48) with 48. pose proof (Z.div_mod (Z.of_N x) 10). lia.
Qed.

Lemma pretty_N_go_chars (P : ascii → bool) x :
  (∀ y, (y < 10)%N → P (pretty_N_char y) = true) →
  ∀ s, all_chars P s = true → all_chars P (pretty_N_go x s) = true.
Proof.
  intros HP. induction (N.lt_wf_0 x) as [x _ IH]. intros s Hs.
  assert (x = 0 ∨ 0 < x)%N as [->|Hx] by lia; [by rewrite pretty_N_go_0|].
  rewrite pretty_N_go_step by done. apply IH; [by apply N.div_lt|].
  cbn [all_chars]. rewrite Hs, HP; [done|]. apply N.mod_lt. lia.
Qed.

Lemma pretty_N_go_head x s :
  (0 < x)%N → ∃ y t, (y < 10)%N ∧ pretty_N_go x s = String (pretty_N_char y) t.
Proof.
  revert s. induction (N.lt_wf_0 x) as [x _ IH]. intros s Hx.
  rewrite pretty_N_go_step by done.
  destruct (N.eq_0_gt_0_cases (x `div` 10)) as [->|Hd].
  - rewrite pretty_N_go_0. eexists _, _. split; [|done]. apply N.mod_lt. lia.
  - apply IH; [by apply N.div_lt|done].
Qed.

(** The numeral of a positive number: digits, the first of them included. *)
Lemma pretty_positive_digits (p : positive) :
  ∃ y t, (y < 10)%N ∧ pretty p = String (pretty_N_char y) t ∧
         all_chars decimal_digit (pretty p) = true ∧
         Parser.decimal 0 (pretty p) = Ret (Z.pos p).
Proof.
  unfold pretty, pretty_positive, pretty, pretty_N.
  destruct (decide (N.pos p = 0%N)) as [|_]; [done|].
  destruct (pretty_N_go_head (N.pos p) "") as (y & t & Hy & Ht); [done|].
  exists y, t. split; [done|]. split; [done|]. split.
  - apply pretty_N_go_chars; [apply pretty_N_char_digit|done].
  - destruct (decimal_pretty_N_go (N.pos p)) as [q Hq]. rewrite Hq. done.
Qed.

Lemma decimal_digit_isdigit_char c : decimal_digit c = true → Parser.isdigit_char c = true.
Proof. unfold decimal_digit, Parser.isdigit_char. intros ->. done. Qed.

Lemma decimal_digit_symbol_char c : decimal_digit c = true → symbol_char c = true.
Proof.
  unfold decimal_digit, symbol_char, Parser.isspace.
  intros [H1 H2]%andb_true_iff. apply N.leb_le in H1, H2.
  destruct (Ascii.eqb_spec c "(") as [->|_]; [by vm_compute in H1|].
  destruct (Ascii.eqb_spec c ")") as [->|_]; [by vm_compute in H1|].
  rewrite !andb_true_r. apply negb_true_iff.
  repeat (apply orb_false_iff; split); try apply andb_false_iff;
    rewrite ?N.leb_gt, ?N.eqb_neq; lia.
Qed.

Lemma all_chars_impl (P Q : ascii → bool) s :
  (∀ c, P c = true → Q c = true) → all_chars P s = true → all_chars Q s = true.
Proof.
  intros HPQ. induction s as [|c s IH]; [done|]. cbn [all_chars].
  intros [Hc Hs]%andb_true_iff. by rewrite (HPQ c Hc), IH.
Qed.

Lemma isdigit_digits s : s ≠ "" → all_chars decimal_digit s = true → Parser.isdigit s = true.
Proof.
  intros Hne Hs. unfold Parser.isdigit. destruct s as [|c s]; [done|].
  rewrite forallb_all_chars. apply (all_chars_impl decimal_digit); [|done].
  apply decimal_digit_isdigit_char.
Qed.

Lemma py_int_digits c s :
  decimal_digit c = true → Parser.py_int (String c s) = Parser.decimal 0 (String c s).
Proof.
  intros Hc. destruct (Ascii.eqb_spec c "-") as [->|Hne]; [by vm_compute in Hc|].
  unfold Parser.py_int. destruct c as [[] [] [] [] [] [] [] []]; done.
Qed.

(** The numeral of an integer is a symbol, a number for the parser, and
    read as the integer. *)
Lemma pretty_Z_number (z : Z) :
  symbol (pretty z) ∧ Parser.startswith "'" (pretty z) = false ∧
  Parser.is_number (pretty z) = Ret true ∧ Parser.py_int (pretty z) = Ret z.
Proof.
  destruct z as [|p|p].
  - repeat split; done.
  - change (pretty (Z.pos p)) with (pretty p).
    destruct (pretty_positive_digits p) as (y & t & Hy & Ht & Hd & Hz).
    pose proof (pretty_N_char_digit y Hy) as Hc.
    split; [|split; [|split]].
    + split; [by rewrite Ht|]. apply (all_chars_impl decimal_digit); [|done].
      apply decimal_digit_symbol_char.
    + rewrite Ht. cbn [Parser.startswith].
      destruct (Ascii.eqb_spec (pretty_N_char y) "'") as [H|_]; [|done].
      rewrite H in Hc. by vm_compute in Hc.
    + rewrite Ht in Hd |- *. cbn [Parser.is_number].
      rewrite (isdigit_digits (String (pretty_N_char y) t)) by done.
      by rewrite orb_true_r.
    + rewrite Ht in Hz |- *. by rewrite py_int_digits.
  - change (pretty (Z.neg p)) with (String "-" (pretty p)).
    destruct (pretty_positive_digits p) as (y & t & Hy & Ht & Hd & Hz).
    split; [|split; [|split]].
    + split; [done|]. cbn [all_chars]. apply andb_true_iff. split; [done|].
      apply (all_chars_impl decimal_digit); [|done]. apply decimal_digit_symbol_char.
    + done.
    + cbn [Parser.is_number]. rewrite (isdigit_digits (pretty p)); [done| |done].
      by rewrite Ht.
    + unfold Parser.py_int. rewrite Hz. done.
Qed.

(** An integer or a plain symbol is printed as one token, and the
    token is parsed into it. *)
Lemma parse_printed_atom v :
  (∃ z, v = VInt z) ∨ (∃ s, v = VStr s ∧ plain_symbol s) →
  symbol (Interpreter.conv_cell v) ∧
  Interpreter.conv_cell v ≠ "'" ∧
  ∀ k, Parser.parse_expression (S k) (Interpreter.conv_cell v) = Ret v.
Proof.
  intros [[z ->]|(s & -> & Hs)].
  - change (Interpreter.conv_cell (VInt z)) with (pretty z).
    destruct (pretty_Z_number z) as (Hsym & Hq & Hn & Hz).
    split; [done|]. split; [by intros H; rewrite H in Hq|].
    intros k. cbn [Parser.parse_expression].
    rewrite (strip_symbol _ Hsym), Hq, Hn. cbn [mbind outcome_bind]. by rewrite Hz.
  - change (Interpreter.conv_cell (VStr s)) with s.
    split; [apply Hs|]. split; [|intros k; by apply parse_plain_symbol].
    destruct Hs as (_ & Hq & _). by intros ->.
Qed.

Lemma conv_cell_list x l :
  Interpreter.conv_cell (VList (x :: l))
  = String "(" (join " " (map Interpreter.conv_cell (x :: l)) +:+ ")").
Proof. done. Qed.

Lemma Forall_mp {A} (P Q : A → Prop) l : Forall (λ x, P x → Q x) l → Forall P l → Forall Q l.
Proof. induction 1; inversion 1; constructor; auto. Qed.

Lemma readable_atom_token v :
  readable v → (∀ l, v ≠ VList l) →
  symbol (Interpreter.conv_cell v) ∧ Interpreter.conv_cell v ≠ "'" ∧
  tokens_of v = [Interpreter.conv_cell v] ∧
  ∀ k, Parser.parse_expression (S k) (Interpreter.conv_cell v) = Ret v.
Proof.
  intros Hr Hv. destruct Hr as [z|s Hs|l Hl _]; [| |by destruct (Hv l)].
  - destruct (parse_printed_atom (VInt z)) as (H1 & H2 & H3); [left; by exists z|done].
  - destruct (parse_printed_atom (VStr s)) as (H1 & H2 & H3); [right; by exists s|done].
Qed.

(** The tokens of the printed form. *)
Lemma tokenize_printed : ∀ v, readable v → Parser.tokenize (Interpreter.conv_cell v) = tokens_of v.
Proof.
  induction v as [z|n d|b| |s|l IH] using value_ind_nested; intros Hr;
    try (destruct (readable_atom_token _ Hr) as (Hs & _ & -> & _); [done|];
         by apply tokenize_symbol).
  inversion Hr as [| |l' Hne Hl]; subst. destruct l as [|x l]; [done|].
  rewrite conv_cell_list, tokenize_parenthesised, tokenize_join.
  change (tokens_of (VList (x :: l))) with ("(" :: concat (map tokens_of (x :: l)) ++ [")"]).
  do 3 f_equal. rewrite map_map. apply Forall_fmap_ext_1.
  by apply (Forall_mp readable).
Qed.

Lemma balanced_concat ls : Forall (λ ts, balanced ts = true) ls → balanced (concat ls) = true.
Proof.
  induction 1 as [|ts ls Hts _ IH]; [done|]. cbn [concat]. unfold balanced in *.
  by rewrite (closes_app ts 0 0).
Qed.

Lemma balanced_symbol t : symbol t → balanced [t] = true.
Proof.
  intros [Ho Hc]%symbol_not_paren. apply String.eqb_neq in Ho, Hc.
  unfold balanced. cbn [closes]. by rewrite Ho, Hc.
Qed.

Lemma balanced_printed : ∀ v, readable v → balanced (tokens_of v) = true.
Proof.
  induction v as [z|n d|b| |s|l IH] using value_ind_nested; intros Hr;
    try (destruct (readable_atom_token _ Hr) as (Hs & _ & -> & _); [done|];
         by apply balanced_symbol).
  inversion Hr as [| |l' Hne Hl]; subst. destruct l as [|x l]; [done|].
  change (tokens_of (VList (x :: l))) with ("(" :: concat (map tokens_of (x :: l)) ++ [")"]).
  rewrite balanced_nested; [done|]. apply balanced_concat, Forall_fmap.
  by apply (Forall_mp readable).
Qed.

(** Parsing the tokens of printed values, one budget for all of them. *)
Lemma parse_list_printed_all l :
  Forall (λ v, ∃ n, ∀ k rest vs, (n ≤ k)%nat →
            Parser.parse_list k rest = Ret vs →
            Parser.parse_list (S k) (tokens_of v ++ rest) = Ret (v :: vs)) l →
  ∃ n, ∀ k, (n ≤ k)%nat → Parser.parse_list k (concat (map tokens_of l)) = Ret l.
Proof.
  induction 1 as [|x l [nx Hx] _ [nl IH]].
  - exists 1%nat. intros [|k] Hk; [lia|done].
  - exists (S (nx `max` nl)). intros [|k] Hk; [lia|].
    cbn [map concat]. apply Hx; [lia|]. apply IH. lia.
Qed.

Lemma parse_list_printed : ∀ v,
  readable v →
  ∃ n, ∀ k rest vs, (n ≤ k)%nat →
    Parser.parse_list k rest = Ret vs →
    Parser.parse_list (S k) (tokens_of v ++ rest) = Ret (v :: vs).
Proof.
  induction v as [z|n d|b| |s|l IH] using value_ind_nested; intros Hr;
    try (destruct (readable_atom_token _ Hr) as (Hs & Hq & -> & Hparse); [done|];
         exists 1%nat; intros [|k] rest vs Hk Hrest; [lia|];
         destruct (symbol_not_paren _ Hs) as [Ho Hc];
         cbn [app]; rewrite parse_list_symbol_step by done;
         by rewrite Hparse, Hrest).
  inversion Hr as [| |l' Hne Hl]; subst. destruct l as [|x l]; [done|].
  destruct (parse_list_printed_all (x :: l)) as [n Hn]; [by apply (Forall_mp readable)|].
  exists n. intros k rest vs Hk Hrest.
  change (tokens_of (VList (x :: l))) with ("(" :: concat (map tokens_of (x :: l)) ++ [")"]).
  cbn [app]. rewrite <- app_assoc. cbn [app].
  rewrite parse_list_nested_step.
  - by rewrite Hn, Hrest.
  - apply balanced_concat, Forall_fmap. apply (Forall_mp readable); [|done].
    apply Forall_forall. intros v _. apply balanced_printed.
Qed.

(** The parser on the printed form of a value. *)
Lemma parses_printed v : readable v → parses (Interpreter.conv_cell v) (Ret v).
Proof.
  intros Hr. destruct Hr as [z|s Hs|l Hne Hl].
  - apply (parses_intro 1); [|done].
    by destruct (readable_atom_token (VInt z)) as (_ & _ & _ & ->); [constructor|..].
  - apply (parses_intro 1); [|done].
    by destruct (readable_atom_token (VStr s)) as (_ & _ & _ & ->); [constructor|..].
  - destruct l as [|x l]; [done|].
    destruct (parse_list_printed_all (x :: l)) as [n Hn].
    { apply (Forall_mp readable); [|done].
      apply Forall_forall. intros v _. apply parse_list_printed. }
    apply (parses_intro (S n)); [|done].
    rewrite conv_cell_list, parse_parenthesised_step, tokenize_join.
    assert (map Parser.tokenize (map Interpreter.conv_cell (x :: l)) = map tokens_of (x :: l))
      as ->.
    { rewrite map_map. apply Forall_fmap_ext_1. apply (Forall_mp readable); [|done].
      apply Forall_forall. intros v _. apply tokenize_printed. }
    by rewrite Hn.
Qed.


(** X7: an expression made of integers, plain symbols and lists that
    are not empty is read back from its printed form: the parser returns
    the expression on the text that [conv_cell] makes of it.  (A plain
    symbol is a token that is neither a number nor a quotation; the
    empty list is printed as NIL and read as a symbol.) *)
Theorem X7_printed_expressions_are_read_back :
  ∀ v, readable v → parses (Interpreter.conv_cell v) (Ret v).
Proof. exact parses_printed. Qed.

Lemma X7_witness :
  parses "(define (f -2) (. x))"
    (Ret (VList [VStr "define"; VList [VStr "f"; VInt (-2)]; VList [VStr "."; VStr "x"]])).
Proof.
  apply (X7_printed_expressions_are_read_back
           (VList [VStr "define"; VList [VStr "f"; VInt (-2)]; VList [VStr "."; VStr "x"]])).
  assert (∀ s, symbol s → Parser.startswith "'" s = false → Parser.is_number s = Ret false →
               readable (VStr s)) as Hsym by (intros; by apply readable_symbol).
  apply readable_list; [done|].
  apply Forall_cons_2; [by apply Hsym|].
  apply Forall_cons_2.
  { apply readable_list; [done|].
    apply Forall_cons_2; [by apply Hsym|]. apply Forall_cons_2; [apply readable_int|].
    apply Forall_nil_2. }
  apply Forall_cons_2; [|apply Forall_nil_2].
  apply readable_list; [done|].
  apply Forall_cons_2; [by apply Hsym|]. apply Forall_cons_2; [by apply Hsym|].
  apply Forall_nil_2.
Defined.

(** ** Layout *)

(** X20: white space around a text does not matter to the parser, and
    between the parentheses of a list only the tokens matter: two texts
    between parentheses that have the same tokens, whatever the spaces,
    tabulations and line ends between them, have the same result. *)
Theorem X20_only_the_tokens_of_a_list_matter :
  (∀ s r, parses (Parser.strip s) r ↔ parses s r) ∧
  (∀ s t r,
     Parser.tokenize s = Parser.tokenize t →
     parses (String "(" (s +:+ ")")) r → parses (String "(" (t +:+ ")")) r).
Proof.
  split.
  - intros s r. unfold parses. by setoid_rewrite parse_expression_strip.
  - intros s t r Htokens [Hne [n Hn]]. split; [done|]. exists (S n).
    intros [|k] Hk; [lia|]. specialize (Hn (S k) ltac:(lia)).
    rewrite parse_parenthesised_step in *. by rewrite <- Htokens.
Qed.

Lemma X20_witness :
  parses (String "(" (("  + 1" +:+ String (ascii_of_N 10) "2 ") +:+ ")"))
    (Ret (VList [VStr "+"; VInt 1; VInt 2])).
Proof.
  apply (proj2 X20_only_the_tokens_of_a_list_matter "+ 1 2"
           ("  + 1" +:+ String (ascii_of_N 10) "2 ")).
  - reflexivity.
  - by apply (parses_intro 6).
Defined.


(** * Further properties of the evaluator *)

(** ** Definition and assignment *)

Lemma evaluates_symbol self x st :
  evaluates self (VStr x) st
    (Ret (default (VStr x) (Environment.vars st self !! KStr x))) st.
Proof.
  apply (evaluates_intro 1); [|done]. cbn.
  by destruct (Environment.vars st self !! KStr x).
Qed.

Lemma vars_set_variable self k v st a :
  (self < length (Environment.variables st))%nat →
  Environment.vars (Environment.set_variable self k v st) a
  = if decide (a = self) then <[k := v]> (Environment.vars st self) else Environment.vars st a.
Proof.
  intros Hself. unfold Environment.vars, Environment.set_variable.
  cbv delta [Environment.addr]. cbn [Environment.variables]. destruct (decide (a = self)) as [->|Hne].
  - rewrite list_lookup_alter, !decide_True by done.
    destruct (lookup_lt_is_Some_2 _ _ Hself) as [m Hm]. by rewrite Hm.
  - rewrite list_lookup_alter_ne by done. by rewrite decide_False.
Qed.

(** [(define x e)]: the name is what [x] evaluates to. *)
Lemma evaluates_define self st x e owner v st1 r st2 :
  Environment.vars st self !! KStr "define" = None →
  is_Some (Environment.functions st !! "define") →
  evaluates self e st (Ret v) st1 →
  Environment.functions st1 !! "define"
    = Some (Environment.BoundMethod owner Environment.Define) →
  Environment.define owner (default (VStr x) (Environment.vars st self !! KStr x)) v st1
    = (r, st2) →
  r ≠ OutOfFuel →
  evaluates self (VList [VStr "define"; VStr x; e]) st r st2.
Proof.
  intros Hvar Hfun He Hdefine Hr Hne.
  assert (ordinary "define") as Hord by solve_ordinary.
  apply (evaluates_ordinary_call self st "define" [VStr x; e]
           [default (VStr x) (Environment.vars st self !! KStr x); v] st1
           (Environment.BoundMethod owner Environment.Define)); try done.
  - apply (evaluates_all_cons _ _ _ _ _ st); [apply evaluates_symbol|].
    apply (evaluates_all_cons _ _ _ _ _ st1); [done|apply evaluates_all_nil].
  - by apply (calls_intro 1).
Qed.

(** X8: [define] is an ordinary call, so its first operand is
    evaluated: [(define x e)] binds [x] when [x] is not yet a variable,
    in the environment whose constructor made the function table; when
    [x] is a variable, its value is taken as the name, so that defining
    a second time a variable that holds a number raises a type error and
    leaves the variable as it was.  After a definition the symbol
    evaluates to the value. *)
Theorem X8_define_evaluates_the_name :
  ∀ self st x e owner v st1,
    Environment.vars st self !! KStr "define" = None →
    is_Some (Environment.functions st !! "define") →
    evaluates self e st (Ret v) st1 →
    Environment.functions st1 !! "define"
      = Some (Environment.BoundMethod owner Environment.Define) →
    (Environment.vars st self !! KStr x = None →
       evaluates self (VList [VStr "define"; VStr x; e]) st
         (Ret (VStr x)) (Environment.set_variable owner (KStr x) v st1)) ∧
    (∀ s, Environment.vars st self !! KStr x = Some (VStr s) →
       evaluates self (VList [VStr "define"; VStr x; e]) st
         (Ret (VStr s)) (Environment.set_variable owner (KStr s) v st1)) ∧
    (∀ w, Environment.vars st self !! KStr x = Some w → (∀ s, w ≠ VStr s) →
       evaluates self (VList [VStr "define"; VStr x; e]) st
         (Raise (Exn TypeError "Variable name must be a string")) st1) ∧
    ((owner < length (Environment.variables st1))%nat →
       evaluates owner (VStr x) (Environment.set_variable owner (KStr x) v st1)
         (Ret v) (Environment.set_variable owner (KStr x) v st1)).
Proof.
  intros self st x e owner v st1 Hvar Hfun He Hdefine.
  assert (∀ name r st2,
            Environment.vars st self !! KStr x = name →
            Environment.define owner (default (VStr x) name) v st1 = (r, st2) →
            r ≠ OutOfFuel →
            evaluates self (VList [VStr "define"; VStr x; e]) st r st2) as Hcall.
  { intros name r st2 <-. by apply evaluates_define. }
  split; [|split; [|split]].
  - intros Hx. by apply (Hcall None).
  - intros s Hx. by apply (Hcall (Some (VStr s))).
  - intros w Hx Hw. apply (Hcall (Some w)); [done| |done].
    cbn [default]. destruct w; try done. by destruct (Hw s).
  - intros Howner.
    pose proof (evaluates_symbol owner x (Environment.set_variable owner (KStr x) v st1)) as H.
    rewrite vars_set_variable in H by done. rewrite decide_True in H by done.
    by rewrite lookup_insert_eq in H.
Qed.

(** Witness: [(define x 5)] at top level, then [(define T 5)], where
    [T] holds [True]. *)
Lemma X8_witness :
  evaluates 0 (VList [VStr "define"; VStr "x"; VInt 5]) Environment.init
    (Ret (VStr "x")) (Environment.set_variable 0 (KStr "x") (VInt 5) Environment.init) ∧
  evaluates 0 (VList [VStr "define"; VStr "T"; VInt 5]) Environment.init
    (Raise (Exn TypeError "Variable name must be a string")) Environment.init ∧
  evaluates 0 (VStr "x") (Environment.set_variable 0 (KStr "x") (VInt 5) Environment.init)
    (Ret (VInt 5)) (Environment.set_variable 0 (KStr "x") (VInt 5) Environment.init).
Proof.
  destruct (X8_define_evaluates_the_name 0%nat Environment.init "x" (VInt 5) 0%nat (VInt 5)
              Environment.init ltac:(vm_compute; reflexivity) ltac:(vm_compute; eauto)
              ltac:(by apply (evaluates_intro 1)) ltac:(vm_compute; reflexivity))
    as (Hnew & _ & _ & Hget).
  destruct (X8_define_evaluates_the_name 0%nat Environment.init "T" (VInt 5) 0%nat (VInt 5)
              Environment.init ltac:(vm_compute; reflexivity) ltac:(vm_compute; eauto)
              ltac:(by apply (evaluates_intro 1)) ltac:(vm_compute; reflexivity))
    as (_ & _ & Hbound & _).
  split; [|split].
  - apply Hnew. vm_compute. reflexivity.
  - apply (Hbound (VBool true)); [vm_compute; reflexivity|discriminate].
  - apply Hget. simpl. lia.
Defined.

(** The special case of [set!] in [evaluate_function_call]. *)
Lemma evaluate_set_call fuel self st operands :
  Environment.vars st self !! KStr "set!" = None →
  is_Some (Environment.functions st !! "set!") →
  Environment.evaluate_expression (S fuel) self (VList (VStr "set!" :: operands)) st
  = match operands with
    | [var_name; e] =>
        ((v ← Environment.evaluate_expression fuel self e; Environment.set self var_name v)
           : Environment.M value) st
    | _ => (Raise (Exn SyntaxError "set! requires exactly 2 arguments"), st)
    end.
Proof.
  intros Hvar [f Hf]. cbn [Environment.evaluate_expression py_str]. rewrite Hvar.
  change (String.eqb "set!" "quote") with false. cbv iota.
  unfold Environment.evaluate_function_call. rewrite Hf.
  change (String.eqb "set!" "set!") with true. cbv iota.
  by destruct operands as [|? [|? [|? ?]]].
Qed.

Lemma evaluates_set self st var_name e v st1 r st2 :
  Environment.vars st self !! KStr "set!" = None →
  is_Some (Environment.functions st !! "set!") →
  evaluates self e st (Ret v) st1 →
  Environment.set self var_name v st1 = (r, st2) → r ≠ OutOfFuel →
  evaluates self (VList [VStr "set!"; var_name; e]) st r st2.
Proof.
  intros Hvar Hfun [_ [n Hn]] Hr Hne. split; [done|]. exists (S n). intros [|k] Hk; [lia|].
  rewrite evaluate_set_call by done. unfold mbind, Environment.M_bind.
  by rewrite Hn by lia.
Qed.

(** X9: [(set! x e)] does not evaluate [x]; it evaluates [e], then
    assigns in the environment that evaluates the call, and only to a
    variable that this environment has: otherwise it raises a name error,
    after [e] has had its effects.  A first operand that is not a symbol,
    and any number of operands other than two, is a syntax error. *)
Theorem X9_set_assigns_to_an_existing_variable :
  ∀ self st,
    Environment.vars st self !! KStr "set!" = None →
    is_Some (Environment.functions st !! "set!") →
    (∀ var_name e v st1,
       evaluates self e st (Ret v) st1 →
       (∀ x, var_name = VStr x → is_Some (Environment.vars st1 self !! KStr x) →
          evaluates self (VList [VStr "set!"; var_name; e]) st
            (Ret (VStr x)) (Environment.set_variable self (KStr x) v st1)) ∧
       (∀ x, var_name = VStr x → Environment.vars st1 self !! KStr x = None →
          evaluates self (VList [VStr "set!"; var_name; e]) st
            (Raise (Exn NameError ("Variable '" +:+ x +:+ "' is not defined"))) st1) ∧
       ((∀ x, var_name ≠ VStr x) →
          evaluates self (VList [VStr "set!"; var_name; e]) st
            (Raise (Exn SyntaxError
                      ("set! requires a variable name, got " +:+ py_str var_name))) st1)) ∧
    (∀ operands,
       length operands ≠ 2%nat →
       evaluates self (VList (VStr "set!" :: operands)) st
         (Raise (Exn SyntaxError "set! requires exactly 2 arguments")) st).
Proof.
  intros self st Hvar Hfun. split.
  - intros var_name e v st1 He.
    assert (∀ r st2, Environment.set self var_name v st1 = (r, st2) → r ≠ OutOfFuel →
              evaluates self (VList [VStr "set!"; var_name; e]) st r st2) as Hcall.
    { intros r st2. by apply evaluates_set. }
    split; [|split].
    + intros x -> [w Hx]. apply Hcall; [|done]. cbn. by rewrite Hx.
    + intros x -> Hx. apply Hcall; [|done]. cbn. by rewrite Hx.
    + intros Hname. apply Hcall; [|done]. destruct var_name; try done. by destruct (Hname s).
  - intros operands Hlen. apply (evaluates_intro 1); [|done].
    rewrite evaluate_set_call by done. by destruct operands as [|? [|? [|? ?]]].
Qed.

Lemma X9_witness :
  evaluates 0 (VList [VStr "set!"; VStr "T"; VInt 7]) Environment.init
    (Ret (VStr "T")) (Environment.set_variable 0 (KStr "T") (VInt 7) Environment.init) ∧
  evaluates 0 (VList [VStr "set!"; VStr "x"; VList [VStr "define"; VStr "y"; VInt 1]])
    Environment.init
    (Raise (Exn NameError "Variable 'x' is not defined"))
    (Environment.set_variable 0 (KStr "y") (VInt 1) Environment.init) ∧
  evaluates 0 (VList [VStr "set!"; VInt 3; VInt 7]) Environment.init
    (Raise (Exn SyntaxError "set! requires a variable name, got 3")) Environment.init ∧
  evaluates 0 (VList [VStr "set!"; VStr "T"]) Environment.init
    (Raise (Exn SyntaxError "set! requires exactly 2 arguments")) Environment.init.
Proof.
  destruct (X9_set_assigns_to_an_existing_variable 0%nat Environment.init
              ltac:(vm_compute; reflexivity) ltac:(vm_compute; eauto)) as [Htwo Hcount].
  split; [|split; [|split]].
  - destruct (Htwo (VStr "T") (VInt 7) (VInt 7) Environment.init
                ltac:(by apply (evaluates_intro 1))) as (Hset & _ & _).
    apply (Hset "T"); [reflexivity|vm_compute; eauto].
  - destruct (Htwo (VStr "x") (VList [VStr "define"; VStr "y"; VInt 1]) (VStr "y")
                (Environment.set_variable 0 (KStr "y") (VInt 1) Environment.init)
                ltac:(by apply (evaluates_intro 2))) as (_ & Hunbound & _).
    apply (Hunbound "x"); [reflexivity|vm_compute; reflexivity].
  - destruct (Htwo (VInt 3) (VInt 7) (VInt 7) Environment.init
                ltac:(by apply (evaluates_intro 1))) as (_ & _ & Hname).
    apply Hname. discriminate.
  - apply (Hcount [VStr "T"]). simpl. lia.
Defined.

(** ** Scope *)

Lemma call_user_function fuel st self name params body args keys :
  length args = length params → mapM hashable params = Some keys →
  Environment.call (S fuel) (Environment.UserFunction self name params body) args st
  = Environment.evaluate_expression fuel (length (Environment.variables st)) body
      (Environment.Store
         (Environment.variables st ++ [bind_all (zip keys args) (Environment.vars st self)])
         (Environment.functions st)).
Proof.
  intros Hlen Hkeys. cbn [Environment.call]. unfold Environment.user_function.
  destruct (Nat.eqb_spec (length args) (length params)); [|done]. cbn [negb].
  unfold mbind, Environment.M_bind at 1. unfold Environment.new_local_env.
  destruct (bind_params params keys args (Environment.variables st)
              (Environment.vars st self) (Environment.functions st) Hkeys) as [us Hus].
  unfold mbind, Environment.M_bind at 1. by rewrite Hus.
Qed.

Lemma calls_user_function st self name params body args keys r st' :
  length args = length params → mapM hashable params = Some keys →
  evaluates (length (Environment.variables st)) body
    (Environment.Store
       (Environment.variables st ++ [bind_all (zip keys args) (Environment.vars st self)])
       (Environment.functions st)) r st' →
  calls (Environment.UserFunction self name params body) args st r st'.
Proof.
  intros Hlen Hkeys [Hne [n Hn]]. split; [done|]. exists (S n). intros [|k] Hk; [lia|].
  rewrite (call_user_function k st self name params body args keys) by done.
  apply Hn. lia.
Qed.

Lemma vars_child vs (m : gmap key value) fs :
  Environment.vars (Environment.Store (vs ++ [m]) fs) (length vs) = m.
Proof.
  unfold Environment.vars. cbv delta [Environment.addr]. cbn [Environment.variables].
  rewrite lookup_app_r by lia. by rewrite Nat.sub_diag.
Qed.

Lemma set_variable_child vs (m : gmap key value) fs k v :
  Environment.set_variable (length vs) k v (Environment.Store (vs ++ [m]) fs)
  = Environment.Store (vs ++ [<[k := v]> m]) fs.
Proof.
  unfold Environment.set_variable. cbn [Environment.variables Environment.functions].
  rewrite (alter_app_r_alt _ vs [m] (length vs)) by lia. by rewrite Nat.sub_diag.
Qed.

Lemma set_variable_parent vs (m : gmap key value) fs a k v :
  (a < length vs)%nat →
  Environment.set_variable a k v (Environment.Store (vs ++ [m]) fs)
  = Environment.Store (alter (insert k v) a vs ++ [m]) fs.
Proof.
  intros Ha. unfold Environment.set_variable.
  cbn [Environment.variables Environment.functions]. by rewrite alter_app_l.
Qed.

(** X10: the scope of an assignment and of a definition made by the
    body of a user function.  The body is evaluated in the environment
    of the call, a copy: [(set! x e)] as a body assigns in the copy, and
    every environment that existed before the call, the one of the
    definition included, has its variables unchanged after the call;
    [(define x e)] as a body binds [x] in the environment that owns the
    function table, not in the copy.  (Here [e] evaluates without an
    effect on the store.) *)
Theorem X10_set_is_local_to_a_call_and_define_is_global :
  ∀ st self name params keys args x e v,
    length args = length params →
    mapM hashable params = Some keys →
    let local_variables := bind_all (zip keys args) (Environment.vars st self) in
    let at_call :=
      Environment.Store (Environment.variables st ++ [local_variables])
        (Environment.functions st) in
    evaluates (length (Environment.variables st)) e at_call (Ret v) at_call →
    (local_variables !! KStr "set!" = None →
     is_Some (Environment.functions st !! "set!") →
     is_Some (local_variables !! KStr x) →
     calls (Environment.UserFunction self name params (VList [VStr "set!"; VStr x; e]))
       args st (Ret (VStr x))
       (Environment.Store
          (Environment.variables st ++ [<[KStr x := v]> local_variables])
          (Environment.functions st))) ∧
    (∀ owner,
       local_variables !! KStr "define" = None →
       local_variables !! KStr x = None →
       Environment.functions st !! "define"
         = Some (Environment.BoundMethod owner Environment.Define) →
       (owner < length (Environment.variables st))%nat →
       calls (Environment.UserFunction self name params (VList [VStr "define"; VStr x; e]))
         args st (Ret (VStr x))
         (Environment.Store
            (alter (insert (KStr x) v) owner (Environment.variables st) ++ [local_variables])
            (Environment.functions st))).
Proof.
  intros st self name params keys args x e v Hlen Hkeys local_variables at_call He.
  assert (Environment.vars at_call (length (Environment.variables st)) = local_variables)
    as Hlocal by apply vars_child.
  split.
  - intros Hvar Hfun Hx. apply (calls_user_function _ _ _ _ _ _ keys); [done..|].
    fold local_variables. fold at_call.
    apply (evaluates_set _ _ _ _ v at_call); try done.
    + by rewrite Hlocal.
    + cbn [Environment.set]. rewrite Hlocal. destruct Hx as [w ->].
      unfold at_call. by rewrite set_variable_child.
  - intros owner Hvar Hx Hdefine Howner.
    apply (calls_user_function _ _ _ _ _ _ keys); [done..|].
    fold local_variables. fold at_call.
    apply (evaluates_define _ _ _ _ owner v at_call); try done.
    + by rewrite Hlocal.
    + rewrite Hlocal, Hx. cbn [default Environment.define].
      unfold at_call. by rewrite set_variable_parent.
Qed.

(** Witness: after [(define x 1)], the calls of [(defun f () (set! x 2))]
    and of [(defun g () (define y 2))]. *)
Lemma X10_witness :
  calls (Environment.UserFunction 0 "f" [] (VList [VStr "set!"; VStr "x"; VInt 2])) []
    (Environment.set_variable 0 (KStr "x") (VInt 1) Environment.init)
    (Ret (VStr "x"))
    (Environment.Store
       [ <[KStr "x" := VInt 1]> (Environment.vars Environment.init 0);
         <[KStr "x" := VInt 2]> (<[KStr "x" := VInt 1]> (Environment.vars Environment.init 0)) ]
       (Environment.functions Environment.init)) ∧
  calls (Environment.UserFunction 0 "g" [] (VList [VStr "define"; VStr "y"; VInt 2])) []
    (Environment.set_variable 0 (KStr "x") (VInt 1) Environment.init)
    (Ret (VStr "y"))
    (Environment.Store
       [ <[KStr "y" := VInt 2]> (<[KStr "x" := VInt 1]> (Environment.vars Environment.init 0));
         <[KStr "x" := VInt 1]> (Environment.vars Environment.init 0) ]
       (Environment.functions Environment.init)).
Proof.
  split.
  - apply (proj1 (X10_set_is_local_to_a_call_and_define_is_global
             (Environment.set_variable 0 (KStr "x") (VInt 1) Environment.init)
             0%nat "f" [] [] [] "x" (VInt 2) (VInt 2) eq_refl eq_refl
             ltac:(by apply (evaluates_intro 1))));
      [vm_compute; reflexivity | vm_compute; eauto | vm_compute; eauto].
  - apply (proj2 (X10_set_is_local_to_a_call_and_define_is_global
             (Environment.set_variable 0 (KStr "x") (VInt 1) Environment.init)
             0%nat "g" [] [] [] "y" (VInt 2) (VInt 2) eq_refl eq_refl
             ltac:(by apply (evaluates_intro 1))) 0%nat);
      [vm_compute; reflexivity | vm_compute; reflexivity | vm_compute; reflexivity
      | simpl; lia].
Defined.

(** ** Nothing is ever undefined *)

Lemma extends_refl st : extends st st.
Proof. done. Qed.

Lemma extends_trans st1 st2 st3 : extends st1 st2 → extends st2 st3 → extends st1 st3.
Proof.
  intros (Hl & Hv & Hf) (Hl' & Hv' & Hf'). split; [lia|]. split; [|by auto].
  intros a k H. by apply Hv', Hv.
Qed.

Lemma lookup_alter_insert (vs : list (gmap key value)) (self a : nat) k (v : value) k' :
  is_Some (default ∅ (vs !! a) !! k') →
  is_Some (default ∅ (alter (insert k v) self vs !! a) !! k').
Proof.
  destruct (decide (a = self)) as [->|Hne]; [|by rewrite list_lookup_alter_ne].
  rewrite list_lookup_alter, decide_True by done.
  destruct (vs !! self) as [m|]; [|done]. cbn.
  intros H. apply lookup_insert_is_Some'. by right.
Qed.

Lemma extends_set_variable self k v st : extends st (Environment.set_variable self k v st).
Proof.
  split; [|split; [|done]].
  - unfold Environment.set_variable. cbn [Environment.variables]. by rewrite length_alter.
  - intros a k'. apply lookup_alter_insert.
Qed.

Lemma extends_set_function name f st : extends st (Environment.set_function name f st).
Proof.
  split; [done|]. split; [done|]. intros name' H. unfold Environment.set_function.
  cbn [Environment.functions]. apply lookup_insert_is_Some'. by right.
Qed.

Lemma lookup_app_default (vs : list (gmap key value)) (a : nat) m k :
  is_Some (default ∅ (vs !! a) !! k) → is_Some (default ∅ ((vs ++ [m]) !! a) !! k).
Proof.
  destruct (vs !! a) as [m'|] eqn:Ha.
  - by rewrite (lookup_app_l_Some _ _ _ _ Ha).
  - cbn. rewrite lookup_empty. by intros [? ?].
Qed.

Lemma extends_new_local_env m st :
  extends st (Environment.Store (Environment.variables st ++ [m]) (Environment.functions st)).
Proof.
  split; [cbn [Environment.variables]; rewrite length_app; lia|]. split; [|done].
  intros a k. apply lookup_app_default.
Qed.

Lemma grows_lift {A} (o : outcome A) : grows (Environment.lift o).
Proof. intros st r st' [= _ <-]. apply extends_refl. Qed.

Lemma grows_ret {A} (a : A) : grows (mret a).
Proof. intros st r st' [= _ <-]. apply extends_refl. Qed.

Lemma grows_bind {A B} (m : Environment.M A) (k : A → Environment.M B) :
  grows m → (∀ a, grows (k a)) → grows (m ≫= k).
Proof.
  intros Hm Hk st r st' H. unfold mbind, Environment.M_bind in H.
  destruct (m st) as [[a| | |] st1] eqn:Hmst; simplify_eq; eauto.
  eapply extends_trans; [by eapply Hm|by eapply Hk].
Qed.

Lemma grows_for_each {A B} (f : A → Environment.M B) l :
  (∀ x, grows (f x)) → grows (Environment.for_each f l).
Proof.
  intros Hf. induction l as [|x l IH]; simpl; [apply grows_ret|].
  apply grows_bind; [done|]. intros y.
  apply grows_bind; [done|]. intros ys. apply grows_ret.
Qed.

Lemma grows_define self var_name v : grows (Environment.define self var_name v).
Proof.
  destruct var_name; try apply grows_lift.
  intros st r st' [= _ <-]. apply extends_set_variable.
Qed.

Lemma grows_set self var_name v : grows (Environment.set self var_name v).
Proof.
  destruct var_name; try apply grows_lift.
  intros st r st' H. simpl in H.
  destruct (Environment.vars st self !! KStr s); simplify_eq;
    [apply extends_set_variable|apply extends_refl].
Qed.

Lemma grows_defun self name params body : grows (Environment.defun self name params body).
Proof.
  destruct name; try apply grows_lift. destruct params; try apply grows_lift.
  intros st r st' [= _ <-]. apply extends_set_function.
Qed.

Lemma grows_lookup_function func : grows (Environment.lookup_function func).
Proof.
  intros st r st' H. unfold Environment.lookup_function in H.
  destruct func; simplify_eq; try apply extends_refl.
  destruct (Environment.functions st !! s); simplify_eq; apply extends_refl.
Qed.

Section Growth.
Variable evaluate_expression : Environment.addr → value → Environment.M value.
Variable call : Environment.function → list value → Environment.M value.
Hypothesis grows_evaluate : ∀ self e, grows (evaluate_expression self e).
Hypothesis grows_call : ∀ f args, grows (call f args).

Lemma grows_mapcar self func lists : grows (Environment.mapcar call self func lists).
Proof.
  apply grows_bind; [apply grows_lift|]. intros rows.
  apply grows_bind; [|intros; apply grows_ret].
  apply grows_for_each. intros values.
  apply grows_bind; [apply grows_lookup_function|done].
Qed.

Lemma grows_user_function self name params body args :
  grows (Environment.user_function evaluate_expression self name params body args).
Proof.
  unfold Environment.user_function. destruct (negb _); [apply grows_lift|].
  apply grows_bind; [intros st r st' [= _ <-]; apply extends_new_local_env|].
  intros local_env. apply grows_bind; [|done].
  apply grows_for_each. intros [param arg]. unfold Environment.bind_param. simpl.
  destruct (hashable param); [|apply grows_lift].
  intros st r st' [= _ <-]. apply extends_set_variable.
Qed.

Lemma grows_call_method self m args : grows (Environment.call_method call self m args).
Proof.
  destruct m, args as [|a1 [|a2 [|a3 [|a4 args]]]]; simpl;
    first [ apply grows_lift | apply grows_ret | apply grows_define
          | apply grows_set | apply grows_defun | apply grows_mapcar ].
Qed.

Lemma grows_evaluate_function_call self operator operands :
  grows (Environment.evaluate_function_call evaluate_expression call self operator operands).
Proof.
  intros st r st' H. unfold Environment.evaluate_function_call in H.
  destruct (Environment.functions st !! operator); [|simplify_eq; apply extends_refl].
  revert H. generalize st r st'. fold (@grows value).
  destruct (String.eqb operator "set!").
  { destruct operands as [|var_name [|e [|? ?]]]; try apply grows_lift.
    apply grows_bind; [done|]. intros v. apply grows_set. }
  destruct (String.eqb operator "defun").
  { apply grows_bind; [apply grows_lookup_function|done]. }
  destruct (String.eqb operator "mapcar").
  { destruct operands as [|func_e [|e es]]; try apply grows_lift.
    apply grows_bind; [done|]. intros func.
    apply grows_bind; [by apply grows_for_each|]. intros lists.
    destruct (forallb _ _); [apply grows_mapcar|apply grows_lift]. }
  apply grows_bind; [by apply grows_for_each|]. intros vs.
  apply grows_bind; [apply grows_lookup_function|done].
Qed.
End Growth.

Lemma grows_evaluate_call fuel :
  (∀ self e, grows (Environment.evaluate_expression fuel self e)) ∧
  (∀ f args, grows (Environment.call fuel f args)).
Proof.
  induction fuel as [|fuel [IHe IHc]]; [split; intros; apply grows_lift|].
  split.
  - intros self e st r st' H. simpl in H.
    destruct e as [| | | | |[|head operands]];
      try (repeat case_match; simplify_eq; apply extends_refl).
    { injection H as _ <-. apply extends_refl. }
    destruct (Environment.vars st self !! _); [simplify_eq; apply extends_refl|].
    destruct (String.eqb _ _).
    { destruct operands as [|? [|? ?]]; simplify_eq; apply extends_refl. }
    destruct head; try (simplify_eq; apply extends_refl).
    by eapply (grows_evaluate_function_call _ _ IHe IHc).
  - intros f args. destruct f as [self m|self name params body]; simpl.
    + by apply grows_call_method.
    + by apply grows_user_function.
Qed.

(** X11: an evaluation, whether it returns or raises, loses nothing of
    the store: no environment goes away, no variable of an environment
    becomes unbound, no name leaves the function table.  The same holds
    for the call of a function table entry. *)
Theorem X11_evaluation_never_undefines :
  (∀ self e st r st', evaluates self e st r st' → extends st st') ∧
  (∀ f args st r st', calls f args st r st' → extends st st').
Proof.
  split.
  - intros self e st r st' [_ [n Hn]].
    apply (proj1 (grows_evaluate_call n) self e st r st'). by apply Hn.
  - intros f args st r st' [_ [n Hn]].
    apply (proj2 (grows_evaluate_call n) f args st r st'). by apply Hn.
Qed.

(** Witness: [(+ (define x 5) (/ 1 0))] raises; [T] is still bound after it. *)
Lemma X11_witness :
  is_Some (Environment.vars
             (Environment.set_variable 0 (KStr "x") (VInt 5) Environment.init) 0 !! KStr "T").
Proof.
  apply (proj1 X11_evaluation_never_undefines 0%nat
           (VList [VStr "+"; VList [VStr "define"; VStr "x"; VInt 5];
                   VList [VStr "/"; VInt 1; VInt 0]])
           Environment.init
           (Raise (Exn ZeroDivisionError "Division by zero is not allowed"))
           (Environment.set_variable 0 (KStr "x") (VInt 5) Environment.init)
           ltac:(by apply (evaluates_intro 3))).
  vm_compute. eauto.
Defined.

(** ** Lists, truth, order *)

Lemma py_eq_empty_list a : py_eq a (VList []) = true ↔ a = VList [].
Proof.
  split; [|by intros ->].
  destruct a as [| | | | |[|x l]]; try done.
Qed.

(** X12: [cons] in front of a list that is not empty makes the list
    that [car] and [cdr] take apart again; the empty list counts as
    [None] on either side, so that an element put in front of the empty
    list makes a dotted pair of three elements, not a list of one. *)
Theorem X12_cons_car_cdr :
  (∀ a l, a ≠ VList [] → l ≠ [] →
     Environment.cons a (VList l) = VList (a :: l) ∧
     Environment.car (Environment.cons a (VList l)) = a ∧
     Environment.cdr (Environment.cons a (VList l)) = Ret (VList l)) ∧
  (∀ l, l ≠ [] → Environment.cons (VList []) (VList l) = VList (VNone :: l)) ∧
  (∀ a b, a ≠ VList [] → a ≠ VNone → b = VList [] ∨ b = VNone →
     Environment.cons a b = VList [a; VStr "."; VNone]) ∧
  (∀ a b, a = VList [] ∨ a = VNone → b = VList [] ∨ b = VNone →
     Environment.cons a b = VNone).
Proof.
  split; [|split; [|split]].
  - intros a l Ha Hl. destruct l as [|y l]; [done|].
    assert (Environment.cons a (VList (y :: l)) = VList (a :: y :: l)) as ->; [|done].
    unfold Environment.cons.
    destruct (py_eq a (VList [])) eqn:He; [by apply py_eq_empty_list in He|].
    change (py_eq (VList (y :: l)) (VList [])) with false. cbv iota. by destruct a.
  - intros [|y l] Hl; done.
  - intros a b Ha Hn Hb. unfold Environment.cons.
    destruct (py_eq a (VList [])) eqn:He; [by apply py_eq_empty_list in He|].
    destruct Hb as [-> | ->]; by destruct a.
  - intros a b [-> | ->] [-> | ->]; done.
Qed.

Lemma X12_witness :
  Environment.cdr (Environment.cons (VInt 1) (VList [VInt 2; VInt 3]))
    = Ret (VList [VInt 2; VInt 3]) ∧
  Environment.cons (VInt 1) (VList []) = VList [VInt 1; VStr "."; VNone].
Proof.
  split.
  - apply (proj1 X12_cons_car_cdr (VInt 1) [VInt 2; VInt 3]); discriminate.
  - apply (proj1 (proj2 (proj2 X12_cons_car_cdr)) (VInt 1) (VList []));
      [discriminate | discriminate | by left].
Defined.

(** X13: [and] and [or] return one of their operands, not a boolean:
    [and] the first operand when it is false and the second otherwise,
    [or] the first operand when it is true and the second otherwise, so
    that the truth of the result is the conjunction, the disjunction, of
    the truths of the operands; [not] returns a boolean, and the laws of
    De Morgan hold. *)
Theorem X13_logic :
  ∀ a b,
    (Environment.and_operator a b = a ∨ Environment.and_operator a b = b) ∧
    (Environment.or_operator a b = a ∨ Environment.or_operator a b = b) ∧
    truthy (Environment.and_operator a b) = truthy a && truthy b ∧
    truthy (Environment.or_operator a b) = truthy a || truthy b ∧
    Environment.not_operator (Environment.and_operator a b)
      = Environment.or_operator (Environment.not_operator a) (Environment.not_operator b) ∧
    Environment.not_operator (Environment.or_operator a b)
      = Environment.and_operator (Environment.not_operator a) (Environment.not_operator b) ∧
    Environment.not_operator (Environment.not_operator a) = VBool (truthy a).
Proof.
  intros a b.
  unfold Environment.and_operator, Environment.or_operator, Environment.not_operator.
  cbn [truthy]. destruct (truthy a) eqn:Ha; cbn [negb andb orb]; rewrite ?Ha;
    repeat split; auto.
Qed.

Lemma py_eq_cons x l y m :
  py_eq (VList (x :: l)) (VList (y :: m)) = py_eq x y && py_eq (VList l) (VList m).
Proof. done. Qed.

Lemma py_compare_cons x l y m :
  py_compare (VList (x :: l)) (VList (y :: m))
  = if py_eq x y then py_compare (VList l) (VList m) else py_compare x y.
Proof. done. Qed.

Lemma num_eqb_sym x y : num_eqb x y = num_eqb y x.
Proof. unfold num_eqb. apply Z.eqb_sym. Qed.

Lemma py_eq_sym : ∀ a b, py_eq a b = py_eq b a.
Proof.
  induction a as [z|n d|b'| |s|l IH] using value_ind_nested; intros b;
    try (destruct b; cbn; try done; first [apply num_eqb_sym | apply String.eqb_sym]).
  destruct b as [| | | | |m]; try done.
  revert m. induction IH as [|x l Hx _ IHl]; intros [|y m]; try done.
  by rewrite !py_eq_cons, Hx, IHl.
Qed.

Lemma py_eq_refl : ∀ a, py_eq a a = true.
Proof.
  induction a as [z|n d|b'| |s|l IH] using value_ind_nested;
    try (cbn; first [done | apply Z.eqb_refl | apply String.eqb_refl]).
  induction IH as [|x l Hx _ IHl]; [done|]. by rewrite py_eq_cons, Hx, IHl.
Qed.

Lemma code_inj c d : code c = code d → c = d.
Proof.
  unfold code. intros H. by rewrite <- (ascii_N_embedding c), <- (ascii_N_embedding d), H.
Qed.

Lemma string_compare_antisym s : ∀ t, string_compare t s = CompOpp (string_compare s t).
Proof.
  induction s as [|c s IH]; intros [|d t]; try done. cbn [string_compare].
  rewrite (N.compare_antisym (code c) (code d)).
  destruct (code c ?= code d)%N; cbn [CompOpp]; [apply IH|done..].
Qed.

Lemma string_compare_eq s : ∀ t, string_compare s t = Eq ↔ String.eqb s t = true.
Proof.
  induction s as [|c s IH]; intros [|d t]; try done. cbn [string_compare String.eqb].
  destruct (N.compare_spec (code c) (code d)) as [Hcd|Hcd|Hcd].
  - apply code_inj in Hcd as ->. rewrite Ascii.eqb_refl. apply IH.
  - destruct (Ascii.eqb_spec c d) as [->|_]; [lia|done].
  - destruct (Ascii.eqb_spec c d) as [->|_]; [lia|done].
Qed.

(** The comparison the other way round, and when it finds equality. *)
Lemma py_compare_antisym : ∀ a b,
  py_compare b a = CompOpp <$> py_compare a b ∧
  (∀ c, py_compare a b = Ret c → (c = Eq ↔ py_eq a b = true)).
Proof.
  assert (∀ x y, Ret (num_compare y x) = CompOpp <$> Ret (num_compare x y) ∧
                 (∀ c, Ret (num_compare x y) = Ret c → (c = Eq ↔ num_eqb x y = true)))
    as Hnum.
  { intros x y. unfold num_compare, num_eqb. split.
    - cbn. by rewrite Z.compare_antisym.
    - intros c [= <-]. by rewrite Z.compare_eq_iff, Z.eqb_eq. }
  induction a as [z|n d|b'| |s|l IH] using value_ind_nested; intros b;
    try (destruct b; cbn [py_compare py_eq as_number]; first [apply Hnum | by split]).
  - destruct b; try by split. cbn [py_compare py_eq]. split.
    + cbn. by rewrite string_compare_antisym.
    + intros c [= <-]. apply string_compare_eq.
  - destruct b as [| | | | |m]; try by split.
    revert m. induction IH as [|x l Hx _ IHl]; intros [|y m].
    + split; [done|]. by intros c [= <-].
    + split; [done|]. by intros c [= <-].
    + split; [done|]. by intros c [= <-].
    + rewrite !py_compare_cons, py_eq_cons, (py_eq_sym y x).
      destruct (py_eq x y) eqn:Hxy; [apply IHl|].
      destruct (Hx y) as [Hopp Heq]. split; [done|].
      intros c Hc. rewrite (Heq c Hc), Hxy. done.
Qed.

(** X14: on all values, [a > b] returns what [b < a] returns, and
    returns when it does; [=] is reflexive and symmetric and [!=] is its
    negation; and of two values that [<] compares, exactly one of [<],
    [=] and [>] holds. *)
Theorem X14_comparisons :
  ∀ a b,
    (∀ v, Environment.greater_than a b = Ret v ↔ Environment.less_than b a = Ret v) ∧
    Environment.equals a a = VBool true ∧
    Environment.equals a b = Environment.equals b a ∧
    Environment.not_equal a b = Environment.not_operator (Environment.equals a b) ∧
    (∀ lt, Environment.less_than a b = Ret (VBool lt) →
       ∃ gt, Environment.greater_than a b = Ret (VBool gt) ∧
             ((lt = true ∧ py_eq a b = false ∧ gt = false) ∨
              (lt = false ∧ py_eq a b = true ∧ gt = false) ∨
              (lt = false ∧ py_eq a b = false ∧ gt = true))).
Proof.
  intros a b. destruct (py_compare_antisym a b) as [Hopp Heq].
  split; [|split; [|split; [|split]]].
  - intros v. unfold Environment.greater_than, Environment.less_than, py_gt, py_lt.
    rewrite Hopp. destruct (py_compare a b) as [[| |]| | |]; done.
  - unfold Environment.equals. by rewrite py_eq_refl.
  - unfold Environment.equals. by rewrite py_eq_sym.
  - done.
  - intros lt. unfold Environment.greater_than, Environment.less_than, py_gt, py_lt.
    destruct (py_compare a b) as [c| | |] eqn:Hc; try done.
    specialize (Heq c eq_refl). cbn. intros [= <-]. eexists. split; [done|].
    destruct c.
    + right; left. repeat split. by apply Heq.
    + left. repeat split. destruct (py_eq a b); [|done]. discriminate (proj2 Heq eq_refl).
    + right; right. repeat split. destruct (py_eq a b); [|done].
      discriminate (proj2 Heq eq_refl).
Qed.

Lemma X14_witness :
  ∃ gt, Environment.greater_than (VList [VInt 1; VStr "a"]) (VList [VInt 1; VStr "b"])
          = Ret (VBool gt) ∧
        ((true = true ∧
          py_eq (VList [VInt 1; VStr "a"]) (VList [VInt 1; VStr "b"]) = false ∧ gt = false) ∨
         (true = false ∧
          py_eq (VList [VInt 1; VStr "a"]) (VList [VInt 1; VStr "b"]) = true ∧ gt = false) ∨
         (true = false ∧
          py_eq (VList [VInt 1; VStr "a"]) (VList [VInt 1; VStr "b"]) = false ∧ gt = true)).
Proof.
  apply (proj2 (proj2 (proj2 (proj2
           (X14_comparisons (VList [VInt 1; VStr "a"]) (VList [VInt 1; VStr "b"])))))).
  reflexivity.
Defined.

(** ** The order of the operands of a sum *)

(** A quotient has one form in lowest terms. *)
Lemma Fraction_unique n d n' d' :
  d ≠ 0 → d' ≠ 0 → n * d' = n' * d → Fraction n d = Fraction n' d'.
Proof.
  intros Hd Hd' Heq.
  destruct (Fraction_lowest_terms n d Hd) as (n1 & d1 & -> & H1 & Hc1).
  destruct (Fraction_lowest_terms n' d' Hd') as (n2 & d2 & -> & H2 & Hc2).
  assert (n1 * Z.pos d2 = n2 * Z.pos d1) as Hcross.
  { apply (Z.mul_cancel_r _ _ (d * d')); [nia|].
    replace (n1 * Z.pos d2 * (d * d')) with ((n1 * d) * (Z.pos d2 * d')) by ring.
    replace (n2 * Z.pos d1 * (d * d')) with ((n2 * d') * (Z.pos d1 * d)) by ring.
    rewrite H1, H2.
    replace (n * Z.pos d1 * (Z.pos d2 * d')) with ((n * d') * (Z.pos d1 * Z.pos d2)) by ring.
    rewrite Heq. ring. }
  assert (Z.pos d1 = Z.pos d2) as Hdd.
  { apply Z.divide_antisym_nonneg; [lia|lia| |].
    - apply (Z.gauss _ n1); [|by rewrite Z.gcd_comm].
      exists n2. lia.
    - apply (Z.gauss _ n2); [|by rewrite Z.gcd_comm].
      exists n1. lia. }
  injection Hdd as ->. f_equal. nia.
Qed.

Lemma num_add_fraction x y :
  is_int x && is_int y = false →
  num_add x y = Fraction (numerator x * denominator y + numerator y * denominator x)
                         (denominator x * denominator y).
Proof. by destruct x, y. Qed.

Lemma is_int_num_add x y : is_int (num_add x y) = is_int x && is_int y.
Proof. by destruct x, y. Qed.

Lemma num_add_comm x y : num_add x y = num_add y x.
Proof.
  destruct (is_int x && is_int y) eqn:Hi.
  - destruct x, y; try done. cbn. f_equal. lia.
  - rewrite (num_add_fraction x y) by done.
    rewrite (num_add_fraction y x) by by rewrite andb_comm.
    f_equal; lia.
Qed.

Lemma num_add_assoc x y z : num_add (num_add x y) z = num_add x (num_add y z).
Proof.
  destruct (is_int x && is_int y && is_int z) eqn:Hi.
  - destruct x, y, z; try done. cbn. f_equal. lia.
  - rewrite (num_add_fraction (num_add x y) z) by by rewrite is_int_num_add.
    rewrite (num_add_fraction x (num_add y z))
      by (rewrite is_int_num_add; by rewrite andb_assoc).
    pose proof (num_add_exact x y) as Hxy. pose proof (num_add_exact y z) as Hyz.
    pose proof (denominator_pos x). pose proof (denominator_pos y).
    pose proof (denominator_pos z). pose proof (denominator_pos (num_add x y)).
    pose proof (denominator_pos (num_add y z)).
    apply Fraction_unique; [nia|nia|].
    apply (Z.mul_cancel_r _ _ (denominator y)); [lia|].
    set (nxy := numerator (num_add x y)) in *. set (dxy := denominator (num_add x y)) in *.
    set (nyz := numerator (num_add y z)) in *. set (dyz := denominator (num_add y z)) in *.
    set (nx := numerator x) in *. set (dx := denominator x) in *.
    set (ny := numerator y) in *. set (dy := denominator y) in *.
    set (nz := numerator z) in *. set (dz := denominator z) in *.
    transitivity ((nxy * (dx * dy)) * dz * dyz + nz * dxy * dy * dx * dyz); [ring|].
    rewrite Hxy.
    transitivity (nx * dy * dyz * dxy * dz + (nyz * (dy * dz)) * dx * dxy); [|ring].
    rewrite Hyz. ring.
Qed.

Lemma py_sum_permutation args args' :
  Permutation args args' →
  Forall (λ a, is_Some (as_number a)) args →
  ∀ acc, Environment.py_sum acc args = Environment.py_sum acc args'.
Proof.
  induction 1 as [|a args args' _ IH|a b args|args1 args2 args3 H12 IH12 H23 IH23];
    intros Hnum acc.
  - done.
  - apply Forall_cons in Hnum as [[x Hx] Hnum]. cbn [Environment.py_sum]. rewrite Hx.
    by apply IH.
  - apply Forall_cons in Hnum as [[y Hy] Hnum]. apply Forall_cons in Hnum as [[x Hx] Hnum].
    cbn [Environment.py_sum]. rewrite Hx, Hy. f_equal.
    by rewrite !num_add_assoc, (num_add_comm x y).
  - rewrite IH12 by done. apply IH23. by rewrite <- H12.
Qed.

(** X21: the sum does not depend on the order of its operands: on
    numbers (integers, booleans, fractions) in any order [+] returns the
    same number, or raises the same overflow, since the range is checked
    on the final sum only.  The product does depend on the order, since
    the range is checked after each factor. *)
Theorem X21_sum_does_not_depend_on_the_order :
  (∀ args args',
     Forall (λ a, is_Some (as_number a)) args →
     Permutation args args' →
     Environment.add args = Environment.add args') ∧
  Environment.multiply [VInt 0; VInt 65536; VInt 65536] = Ret (VInt 0) ∧
  Environment.multiply [VInt 65536; VInt 65536; VInt 0] = Raise (overflow 4294967296).
Proof.
  split; [|split; reflexivity].
  intros args args' Hnum Hperm. unfold Environment.add.
  by rewrite (py_sum_permutation args args' Hperm Hnum).
Qed.

Lemma X21_witness :
  Environment.add [VInt 2147483647; VInt 1; VFrac (-3) 2]
  = Environment.add [VFrac (-3) 2; VInt 1; VInt 2147483647].
Proof.
  apply (proj1 X21_sum_does_not_depend_on_the_order).
  - repeat (apply Forall_cons_2; [eauto|]). apply Forall_nil_2.
  - etransitivity; [apply perm_swap|]. etransitivity; [apply perm_skip, perm_swap|].
    apply perm_swap.
Defined.

(** ** [mapcar] *)

Lemma shortest_below_cons n l ls :
  shortest_below n (l :: ls) = Nat.min (length l) (shortest_below n ls).
Proof. done. Qed.

Lemma shortest_below_le n ls : (shortest_below n ls ≤ n)%nat.
Proof. induction ls as [|l ls IH]; [done|]. rewrite shortest_below_cons. lia. Qed.

Lemma shortest_below_0 ls : shortest_below 0 ls = 0%nat.
Proof. pose proof (shortest_below_le 0 ls). lia. Qed.

Lemma mapM_uncons ls :
  (∃ hts, mapM uncons ls = Some hts ∧ ls = map (λ ht, ht.1 :: ht.2) hts) ∨
  (mapM uncons ls = None ∧ ∀ n, shortest_below n ls = 0%nat).
Proof.
  induction ls as [|l ls IH]; [left; by exists []|].
  destruct l as [|h t].
  { right. split; [done|]. intros n. by rewrite shortest_below_cons. }
  destruct IH as [(hts & Hm & ->)|[Hm Hz]].
  - left. exists ((h, t) :: hts). cbn. by rewrite Hm.
  - right. split; [cbn; by rewrite Hm|]. intros n. rewrite shortest_below_cons, Hz. lia.
Qed.

Lemma shortest_below_tails n (hts : list (value * list value)) :
  shortest_below (S n) (map (λ ht, ht.1 :: ht.2) hts) = S (shortest_below n (map snd hts)).
Proof.
  induction hts as [|[h t] hts IH]; [done|]. cbn [map fst snd].
  rewrite !shortest_below_cons, IH. cbn [length]. lia.
Qed.

Lemma length_zip_rows n : ∀ ls, length (zip_rows n ls) = shortest_below n ls.
Proof.
  induction n as [|n IH]; intros ls; [by rewrite shortest_below_0|].
  cbn [zip_rows]. destruct (mapM_uncons ls) as [(hts & -> & ->)|[-> Hz]].
  - cbn [length]. by rewrite IH, shortest_below_tails.
  - by rewrite Hz.
Qed.

(** [zip] makes as many rows as the shortest list has elements. *)
Lemma length_py_zip ls : length (py_zip ls) = shortest ls.
Proof.
  destruct ls as [|l ls]; [done|]. unfold py_zip. rewrite length_zip_rows.
  rewrite shortest_below_cons. cbn [shortest].
  pose proof (shortest_below_le (length l) ls). lia.
Qed.

Lemma mapM_py_iter_lists rows : mapM py_iter (map VList rows) = Ret rows.
Proof. induction rows as [|l rows IH]; [done|]. cbn. by rewrite IH. Qed.

Lemma for_each_length {A B} (f : A → Environment.M B) l : ∀ st ys st',
  Environment.for_each f l st = (Ret ys, st') → length ys = length l.
Proof.
  induction l as [|x l IH]; intros st ys st'; cbn.
  - by intros [= <- _].
  - unfold mbind, Environment.M_bind, mret, Environment.M_ret.
    destruct (f x st) as [[y| | |] st1]; try done.
    destruct (Environment.for_each f l st1) as [[ys'| | |] st2] eqn:Hl; try done.
    intros [= <- _]. cbn. by rewrite (IH _ _ _ Hl).
Qed.

(** X15: [mapcar] on lists returns a list with as many elements as the
    shortest of the lists has, whatever the function; the function name
    is looked up in the function table for each row, so that a name that
    is not there raises a key error when the shortest list has an
    element, and gives the empty list, without an error, when a list is
    empty. *)
Theorem X15_mapcar_rows :
  ∀ call self func ls st,
    (∀ v st',
       Environment.mapcar call self func (map VList ls) st = (Ret v, st') →
       ∃ results, v = VList results ∧ length results = shortest ls) ∧
    (∀ s, func = VStr s → Environment.functions st !! s = None →
       Environment.mapcar call self func (map VList ls) st
       = (if decide (shortest ls = 0%nat) then Ret (VList [])
          else Raise (Exn KeyError (repr_str s)), st)).
Proof.
  intros call self func ls st.
  assert (Environment.mapcar call self func (map VList ls) st
          = ((results ← Environment.for_each
                (λ values, f ← Environment.lookup_function func; call f values) (py_zip ls);
              mret (VList results)) : Environment.M value) st) as ->.
  { unfold Environment.mapcar. by rewrite mapM_py_iter_lists. }
  pose proof (length_py_zip ls) as Hlen. split.
  - intros v st'. unfold mbind, Environment.M_bind, mret, Environment.M_ret.
    destruct (Environment.for_each _ (py_zip ls) st) as [[results| | |] st1] eqn:Hr; try done.
    intros [= <- _]. exists results. split; [done|].
    by rewrite (for_each_length _ _ _ _ _ Hr).
  - intros s -> Hs. destruct (py_zip ls) as [|row rows].
    + rewrite decide_True by done. done.
    + rewrite decide_False by (cbn in Hlen; lia).
      cbn [Environment.for_each]. unfold mbind, Environment.M_bind.
      unfold Environment.lookup_function. by rewrite Hs.
Qed.

(** Witness: [+] over lists of two and three elements; a name that is
    not a function, over an empty list and over a list of one. *)
Lemma X15_witness :
  (∃ results, VList [VInt 11; VInt 22] = VList results ∧
              length results = shortest [[VInt 1; VInt 2]; [VInt 10; VInt 20; VInt 30]]) ∧
  Environment.mapcar (Environment.call 1) 0 (VStr "f") (map VList [[]]) Environment.init
    = (Ret (VList []), Environment.init) ∧
  Environment.mapcar (Environment.call 1) 0 (VStr "f") (map VList [[VInt 1]]) Environment.init
    = (Raise (Exn KeyError "'f'"), Environment.init).
Proof.
  split; [|split].
  - apply (proj1 (X15_mapcar_rows (Environment.call 1) 0%nat (VStr "+")
                    [[VInt 1; VInt 2]; [VInt 10; VInt 20; VInt 30]] Environment.init)
             (VList [VInt 11; VInt 22]) Environment.init).
    reflexivity.
  - apply (proj2 (X15_mapcar_rows (Environment.call 1) 0%nat (VStr "f") [[]] Environment.init)
             "f" eq_refl). reflexivity.
  - apply (proj2 (X15_mapcar_rows (Environment.call 1) 0%nat (VStr "f") [[VInt 1]]
                    Environment.init) "f" eq_refl). reflexivity.
Defined.

(** ** Quotation, function definition *)

Lemma parses_quoted X v : parses X (Ret v) → parses (String "'" X) (Ret (Parser.quote v)).
Proof.
  intros [_ [n Hn]]. apply (parses_intro (S n)); [|done].
  by rewrite parse_quoted_step, parse_expression_strip, Hn.
Qed.

Lemma evaluates_quote self st operands :
  Environment.vars st self !! KStr "quote" = None →
  evaluates self (VList (VStr "quote" :: operands)) st
    (match operands with
     | [quoted] => Ret quoted
     | _ => Raise (Exn SyntaxError "Malformed quote expression")
     end) st.
Proof.
  intros Hvar. apply (evaluates_intro 1).
  - cbn [Environment.evaluate_expression py_str]. rewrite Hvar.
    by destruct operands as [|? [|? ?]].
  - by destruct operands as [|? [|? ?]].
Qed.

(** X16: where [quote] is not bound as a variable, a quoted text
    evaluates to what the text parses to, unevaluated, and the store is
    unchanged: for every text [X] that the parser returns a value for,
    the parser returns on ['X] the list of [quote] and that value, which
    evaluates to the value.  A [quote] with no operand, or with more than
    one, is a syntax error. *)
Theorem X16_quotation_returns_the_datum :
  ∀ self st,
    Environment.vars st self !! KStr "quote" = None →
    (∀ X v, parses X (Ret v) →
       parses ("'" +:+ X) (Ret (Parser.quote v)) ∧
       evaluates self (Parser.quote v) st (Ret v) st) ∧
    (∀ operands, length operands ≠ 1%nat →
       evaluates self (VList (VStr "quote" :: operands)) st
         (Raise (Exn SyntaxError "Malformed quote expression")) st).
Proof.
  intros self st Hvar. split.
  - intros X v HX. split; [by apply parses_quoted|].
    apply (evaluates_quote self st [v] Hvar).
  - intros operands Hlen. pose proof (evaluates_quote self st operands Hvar) as H.
    by destruct operands as [|? [|? ?]].
Qed.

Lemma X16_witness :
  (parses ("'" +:+ "(+ 1 2)") (Ret (Parser.quote (VList [VStr "+"; VInt 1; VInt 2]))) ∧
   evaluates 0 (Parser.quote (VList [VStr "+"; VInt 1; VInt 2])) Environment.init
     (Ret (VList [VStr "+"; VInt 1; VInt 2])) Environment.init) ∧
  evaluates 0 (VList [VStr "quote"; VStr "a"; VStr "b"]) Environment.init
    (Raise (Exn SyntaxError "Malformed quote expression")) Environment.init.
Proof.
  destruct (X16_quotation_returns_the_datum 0%nat Environment.init
              ltac:(vm_compute; reflexivity)) as [Hquote Hmalformed].
  split.
  - apply (Hquote "(+ 1 2)"). by apply (parses_intro 6).
  - apply (Hmalformed [VStr "a"; VStr "b"]). simpl. lia.
Defined.

Lemma evaluate_defun_call fuel self st owner operands :
  Environment.vars st self !! KStr "defun" = None →
  Environment.functions st !! "defun"
    = Some (Environment.BoundMethod owner Environment.Defun) →
  Environment.evaluate_expression (S (S fuel)) self (VList (VStr "defun" :: operands)) st
  = match operands with
    | [name; params; body] => Environment.defun owner name params body st
    | _ => (Raise Environment.arity, st)
    end.
Proof.
  intros Hvar Hfun. cbn [Environment.evaluate_expression py_str]. rewrite Hvar.
  change (String.eqb "defun" "quote") with false. cbv iota.
  unfold Environment.evaluate_function_call. rewrite Hfun.
  change (String.eqb "defun" "set!") with false.
  change (String.eqb "defun" "defun") with true. cbv iota.
  unfold mbind, Environment.M_bind, Environment.lookup_function. rewrite Hfun.
  cbn [Environment.call Environment.call_method].
  by destruct operands as [|? [|? [|? [|? ?]]]].
Qed.

(** X17: [defun] evaluates none of its operands: [(defun name params
    body)] enters in the function table, under [name], the closure of the
    parameters and the body as they are written, and returns the name.
    The closure belongs to the environment whose constructor made the
    function table, whichever environment evaluates the [defun].  A name
    that is not a symbol and parameters that are not a list are syntax
    errors; another number of operands than three is a type error. *)
Theorem X17_defun_stores_a_closure :
  ∀ self st owner,
    Environment.vars st self !! KStr "defun" = None →
    Environment.functions st !! "defun"
      = Some (Environment.BoundMethod owner Environment.Defun) →
    (∀ name params body,
       evaluates self (VList [VStr "defun"; VStr name; VList params; body]) st
         (Ret (VStr name))
         (Environment.set_function name
            (Environment.UserFunction owner name params body) st)) ∧
    (∀ name params body, (∀ s, name ≠ VStr s) →
       evaluates self (VList [VStr "defun"; name; params; body]) st
         (Raise (Exn SyntaxError "Function name must be a symbol")) st) ∧
    (∀ name params body, (∀ l, params ≠ VList l) →
       evaluates self (VList [VStr "defun"; VStr name; params; body]) st
         (Raise (Exn SyntaxError "Function parameters must be a list")) st) ∧
    (∀ operands, length operands ≠ 3%nat →
       evaluates self (VList (VStr "defun" :: operands)) st
         (Raise Environment.arity) st).
Proof.
  intros self st owner Hvar Hfun. split; [|split; [|split]].
  - intros name params body. apply (evaluates_intro 2); [|done].
    by rewrite (evaluate_defun_call 0 self st owner).
  - intros name params body Hname. apply (evaluates_intro 2); [|done].
    rewrite (evaluate_defun_call 0 self st owner) by done.
    destruct name; try done. by destruct (Hname s).
  - intros name params body Hparams. apply (evaluates_intro 2); [|done].
    rewrite (evaluate_defun_call 0 self st owner) by done.
    destruct params; try done. by destruct (Hparams l).
  - intros operands Hlen. apply (evaluates_intro 2); [|done].
    rewrite (evaluate_defun_call 0 self st owner) by done.
    by destruct operands as [|? [|? [|? [|? ?]]]].
Qed.

(** Witness: [(defun f (x) (g x))], where [g] is not defined, and
    [(defun f x)]. *)
Lemma X17_witness :
  evaluates 0 (VList [VStr "defun"; VStr "f"; VList [VStr "x"]; VList [VStr "g"; VStr "x"]])
    Environment.init (Ret (VStr "f"))
    (Environment.set_function "f"
       (Environment.UserFunction 0 "f" [VStr "x"] (VList [VStr "g"; VStr "x"]))
       Environment.init) ∧
  evaluates 0 (VList [VStr "defun"; VStr "f"; VStr "x"]) Environment.init
    (Raise Environment.arity) Environment.init.
Proof.
  destruct (X17_defun_stores_a_closure 0%nat Environment.init 0%nat
              ltac:(vm_compute; reflexivity) ltac:(vm_compute; reflexivity))
    as (Hdefun & _ & _ & Harity).
  split; [apply Hdefun|]. apply (Harity [VStr "f"; VStr "x"]). simpl. lia.
Defined.

(** * Properties of the read-eval-print loop *)

Lemma read_eval_print_quoted st X v :
  Environment.vars st 0 !! KStr "quote" = None →
  parses X (Ret v) →
  ∃ n, ∀ fuel, (n ≤ fuel)%nat →
    Interpreter.read_eval_print fuel (String "'" X) st = (Ret (Interpreter.conv_cell v), st).
Proof.
  intros Hvar [_ [n Hn]]%parses_quoted. exists (S n). intros [|fuel] Hfuel; [lia|].
  unfold Interpreter.read_eval_print, mbind, Environment.M_bind, Environment.lift.
  rewrite Hn by lia. cbn [Environment.evaluate_expression Parser.quote py_str].
  by rewrite Hvar.
Qed.

(** X18: a quoted text is echoed.  Where [quote] is not bound as a
    variable of the interpreter's environment, the loop answers to ['X]
    with the printed form of what [X] parses to, and leaves the store as
    it is; so the answer to the quoted printed form of an expression of
    integers, plain symbols and lists that are not empty is that printed
    form. *)
Theorem X18_a_quoted_text_is_echoed :
  ∀ st,
    Environment.vars st 0 !! KStr "quote" = None →
    (∀ X v, parses X (Ret v) →
       ∃ n, ∀ fuel, (n ≤ fuel)%nat →
         Interpreter.read_eval_print fuel ("'" +:+ X) st
         = (Ret (Interpreter.conv_cell v), st)) ∧
    (∀ v, readable v →
       ∃ n, ∀ fuel, (n ≤ fuel)%nat →
         Interpreter.read_eval_print fuel ("'" +:+ Interpreter.conv_cell v) st
         = (Ret (Interpreter.conv_cell v), st)).
Proof.
  intros st Hvar. split.
  - intros X v HX. by apply read_eval_print_quoted.
  - intros v Hv. apply read_eval_print_quoted; [done|]. by apply parses_printed.
Qed.

Lemma X18_witness :
  ∃ n, ∀ fuel, (n ≤ fuel)%nat →
    Interpreter.read_eval_print fuel ("'" +:+ " ( a   (b 1) ) ") Environment.init
    = (Ret "(a (b 1))", Environment.init).
Proof.
  destruct (X18_a_quoted_text_is_echoed Environment.init ltac:(vm_compute; reflexivity))
    as [Hecho _].
  apply (Hecho " ( a   (b 1) ) " (VList [VStr "a"; VList [VStr "b"; VInt 1]])).
  by apply (parses_intro 8).
Defined.

Lemma grows_read_eval_print fuel tokens_str :
  grows (Interpreter.read_eval_print fuel tokens_str).
Proof.
  apply grows_bind; [apply grows_lift|]. intros parsed_expression.
  apply grows_bind; [apply grows_evaluate_call|]. intros result. apply grows_ret.
Qed.

(** X19: in a session that ends, every line before the first command
    [(quit)] that is not blank has exactly one reply, a result or an
    error: a command that fails does not end the session, and what was
    defined before it stays defined.  The session ends with [(quit)]
    when there is such a line, and with a fatal error at the end of the
    input otherwise; nothing of the store is lost in the session. *)
Theorem X19_one_reply_per_command :
  ∀ fuel inputs st replies e st',
    Interpreter.loop fuel inputs st = (Ret (replies, e), st') →
    length replies = length (List.filter command (before_quit inputs)) ∧
    (e = Interpreter.Bye ↔ "(quit)" ∈ inputs) ∧
    extends st st'.
Proof.
  intros fuel inputs. induction inputs as [|tokens_str inputs IH]; intros st replies e st'.
  { intros [= <- <- <-]. split; [done|]. split; [|apply extends_refl].
    split; [done|]. by intros ?%elem_of_nil. }
  cbn [Interpreter.loop before_quit].
  assert (∀ reply (m : Environment.M (list Interpreter.reply * Interpreter.ending)) st0,
            (∀ replies e st', m st0 = (Ret (replies, e), st') →
               length replies = length (List.filter command (before_quit inputs)) ∧
               (e = Interpreter.Bye ↔ "(quit)" ∈ inputs) ∧ extends st0 st') →
            extends st st0 →
            command tokens_str = true → tokens_str ≠ "(quit)" →
            (('(replies, e) ← m; mret (reply :: replies, e))
               : Environment.M (list Interpreter.reply * Interpreter.ending)) st0
            = (Ret (replies, e), st') →
            length replies
            = length (List.filter command (tokens_str :: before_quit inputs)) ∧
            (e = Interpreter.Bye ↔ "(quit)" ∈ tokens_str :: inputs) ∧ extends st st')
    as Hreply.
  { intros reply m st0 Hm Hst0 Hc Hq. unfold mbind, Environment.M_bind, mret, Environment.M_ret.
    destruct (m st0) as [[[replies0 e0]| | |] st1] eqn:Hm0; try done.
    intros [= <- <- <-]. destruct (Hm _ _ _ eq_refl) as (Hlen & He & Hext).
    split; [cbn [List.filter]; rewrite Hc; cbn [length]; by rewrite Hlen|].
    split; [|by apply (extends_trans st st0)].
    rewrite He, elem_of_cons. split; [by right|]. by intros [?|?]. }
  destruct (String.eqb_spec (Parser.strip tokens_str) "") as [Hblank|Hcommand].
  { intros Hloop. destruct (IH _ _ _ _ Hloop) as (Hlen & He & Hext).
    assert (tokens_str ≠ "(quit)") as Hq by (intros ->; by vm_compute in Hblank).
    apply String.eqb_neq in Hq as Hq'. rewrite Hq'.
    cbn [List.filter]. unfold command at 1. rewrite Hblank. cbn [String.eqb negb].
    split; [done|]. split; [|done].
    rewrite He, elem_of_cons. split; [by right|]. by intros [?|?]. }
  destruct (String.eqb_spec tokens_str "()") as [->|Hnil].
  { change (String.eqb "()" "(quit)") with false. cbv iota.
    apply (Hreply _ _ st); [apply IH|apply extends_refl|reflexivity|done]. }
  destruct (String.eqb_spec tokens_str "(quit)") as [->|Hquit].
  { intros [= <- <- <-]. split; [done|]. split; [|apply extends_refl].
    split; [intros _; apply elem_of_cons; by left|done]. }
  destruct (Interpreter.read_eval_print fuel tokens_str st) as [[formatted|err| |] st0] eqn:Hrep;
    try done.
  - apply (Hreply _ _ st0); [apply IH| |unfold command; by apply negb_true_iff, String.eqb_neq|done].
    by apply (grows_read_eval_print fuel tokens_str st _ _ Hrep).
  - apply (Hreply _ _ st0); [apply IH| |unfold command; by apply negb_true_iff, String.eqb_neq|done].
    by apply (grows_read_eval_print fuel tokens_str st _ _ Hrep).
Qed.

(** Witness: a session of five lines, one blank, one that fails; the
    last line is not read. *)
Lemma X19_witness :
  length [Interpreter.Result "x"; Interpreter.Error (Exn NameError "Unknown function: foo");
          Interpreter.Result "5"]
  = length (List.filter command
              (before_quit ["(define x 5)"; "   "; "(foo)"; "x"; "(quit)"; "(define y 1)"])) ∧
  (Interpreter.Bye = Interpreter.Bye
   ↔ "(quit)" ∈ ["(define x 5)"; "   "; "(foo)"; "x"; "(quit)"; "(define y 1)"]) ∧
  extends Environment.init (Environment.set_variable 0 (KStr "x") (VInt 5) Environment.init).
Proof.
  apply (X19_one_reply_per_command 6
           ["(define x 5)"; "   "; "(foo)"; "x"; "(quit)"; "(define y 1)"] Environment.init).
  vm_compute. reflexivity.
Defined.

(** ** Numbers at top level *)

Lemma lookup_alter_symbol (vs : list (gmap key value)) (self : nat) s (v : value) k :
  is_Some (default ∅ (alter (insert (KStr s) v) self vs !! 0%nat) !! k) →
  is_Some (default ∅ (vs !! 0%nat) !! k) ∨ k = KStr s.
Proof.
  destruct (decide (0%nat = self)) as [<-|Hne]; [|rewrite list_lookup_alter_ne by done; by left].
  rewrite list_lookup_alter, decide_True by done.
  destruct (vs !! 0%nat) as [m|]; [|by left]. cbn.
  intros [?|?]%lookup_insert_is_Some'; [by right|by left].
Qed.

Lemma symbols_only_set_variable self s v st :
  binds_symbols_only st → binds_symbols_only (Environment.set_variable self (KStr s) v st).
Proof.
  intros [Hlen Hkeys]. split.
  - unfold Environment.set_variable. cbn [Environment.variables]. by rewrite length_alter.
  - intros k Hk. apply lookup_alter_symbol in Hk as [Hk| ->]; [by apply Hkeys|by exists s].
Qed.

Lemma lookup_alter_elsewhere (vs : list (gmap key value)) (a : nat) k (v : value) k' :
  a ≠ 0%nat →
  is_Some (default ∅ (alter (insert k v) a vs !! 0%nat) !! k') →
  is_Some (default ∅ (vs !! 0%nat) !! k').
Proof. intros Ha. by rewrite list_lookup_alter_ne. Qed.

Lemma symbols_only_bind local k v st :
  local ≠ 0%nat →
  binds_symbols_only st → binds_symbols_only (Environment.set_variable local k v st).
Proof.
  intros Hlocal [Hlen Hkeys]. split.
  - unfold Environment.set_variable. cbn [Environment.variables]. by rewrite length_alter.
  - intros k' Hk. apply Hkeys. by apply (lookup_alter_elsewhere _ local k v k').
Qed.

Lemma lookup_app_first (vs : list (gmap key value)) m k :
  (0 < length vs)%nat →
  is_Some (default ∅ ((vs ++ [m]) !! 0%nat) !! k) → is_Some (default ∅ (vs !! 0%nat) !! k).
Proof. intros Hlen. by rewrite lookup_app_l. Qed.

Lemma symbols_only_new_local_env m st :
  binds_symbols_only st →
  binds_symbols_only
    (Environment.Store (Environment.variables st ++ [m]) (Environment.functions st)).
Proof.
  intros [Hlen Hkeys]. split.
  - cbn [Environment.variables]. rewrite length_app. lia.
  - intros k Hk. apply Hkeys. by apply (lookup_app_first _ m k).
Qed.

Lemma keeps_lift {A} (o : outcome A) : keeps_symbols_only (Environment.lift o).
Proof. by intros st r st' [= _ <-]. Qed.

Lemma keeps_ret {A} (a : A) : keeps_symbols_only (mret a).
Proof. by intros st r st' [= _ <-]. Qed.

Lemma keeps_bind {A B} (m : Environment.M A) (k : A → Environment.M B) :
  keeps_symbols_only m → (∀ a, keeps_symbols_only (k a)) → keeps_symbols_only (m ≫= k).
Proof.
  intros Hm Hk st r st' H Hst. unfold mbind, Environment.M_bind in H.
  destruct (m st) as [[a| | |] st1] eqn:Hmst; simplify_eq; eauto.
  by eapply Hk; [|eapply Hm].
Qed.

Lemma keeps_for_each {A B} (f : A → Environment.M B) l :
  (∀ x, keeps_symbols_only (f x)) → keeps_symbols_only (Environment.for_each f l).
Proof.
  intros Hf. induction l as [|x l IH]; simpl; [apply keeps_ret|].
  apply keeps_bind; [done|]. intros y.
  apply keeps_bind; [done|]. intros ys. apply keeps_ret.
Qed.

Lemma keeps_define self var_name v : keeps_symbols_only (Environment.define self var_name v).
Proof.
  destruct var_name; try apply keeps_lift.
  intros st r st' [= _ <-]. apply symbols_only_set_variable.
Qed.

Lemma keeps_set self var_name v : keeps_symbols_only (Environment.set self var_name v).
Proof.
  destruct var_name; try apply keeps_lift.
  intros st r st' H Hst. simpl in H.
  destruct (Environment.vars st self !! KStr s); simplify_eq;
    [by apply symbols_only_set_variable|done].
Qed.

Lemma keeps_defun self name params body :
  keeps_symbols_only (Environment.defun self name params body).
Proof.
  destruct name; try apply keeps_lift. destruct params; try apply keeps_lift.
  by intros st r st' [= _ <-].
Qed.

Lemma keeps_lookup_function func : keeps_symbols_only (Environment.lookup_function func).
Proof.
  intros st r st' H. unfold Environment.lookup_function in H.
  destruct func; simplify_eq; try done.
  destruct (Environment.functions st !! s); by simplify_eq.
Qed.

Lemma keeps_bind_param local pa :
  local ≠ 0%nat → keeps_symbols_only (Environment.bind_param local pa).
Proof.
  intros Hlocal. unfold Environment.bind_param.
  destruct (hashable pa.1); [|apply keeps_lift].
  intros st r st' [= _ <-]. by apply symbols_only_bind.
Qed.

Section Symbols.
Variable evaluate_expression : Environment.addr → value → Environment.M value.
Variable call : Environment.function → list value → Environment.M value.
Hypothesis keeps_evaluate : ∀ self e, keeps_symbols_only (evaluate_expression self e).
Hypothesis keeps_call : ∀ f args, keeps_symbols_only (call f args).

Lemma keeps_mapcar self func lists :
  keeps_symbols_only (Environment.mapcar call self func lists).
Proof.
  apply keeps_bind; [apply keeps_lift|]. intros rows.
  apply keeps_bind; [|intros; apply keeps_ret].
  apply keeps_for_each. intros values.
  apply keeps_bind; [apply keeps_lookup_function|done].
Qed.

Lemma keeps_user_function self name params body args :
  keeps_symbols_only
    (Environment.user_function evaluate_expression self name params body args).
Proof.
  unfold Environment.user_function. destruct (negb _); [apply keeps_lift|].
  intros st r st' H Hst. unfold mbind at 1, Environment.M_bind at 1 in H.
  unfold Environment.new_local_env in H.
  assert (keeps_symbols_only
            (Environment.for_each
               (Environment.bind_param (length (Environment.variables st))) (zip params args)
             ≫= λ _, evaluate_expression (length (Environment.variables st)) body)) as Hk.
  { apply keeps_bind; [|done]. apply keeps_for_each. intros pa. apply keeps_bind_param.
    destruct Hst as [Hlen _]. lia. }
  exact (Hk _ _ _ H (symbols_only_new_local_env _ _ Hst)).
Qed.

Lemma keeps_call_method self m args :
  keeps_symbols_only (Environment.call_method call self m args).
Proof.
  destruct m, args as [|a1 [|a2 [|a3 [|a4 args]]]]; simpl;
    first [ apply keeps_lift | apply keeps_ret | apply keeps_define
          | apply keeps_set | apply keeps_defun | apply keeps_mapcar ].
Qed.

Lemma keeps_evaluate_function_call self operator operands :
  keeps_symbols_only
    (Environment.evaluate_function_call evaluate_expression call self operator operands).
Proof.
  intros st r st' H. unfold Environment.evaluate_function_call in H.
  destruct (Environment.functions st !! operator); [|by simplify_eq].
  revert H. generalize st r st'. fold (@keeps_symbols_only value).
  destruct (String.eqb operator "set!").
  { destruct operands as [|var_name [|e [|? ?]]]; try apply keeps_lift.
    apply keeps_bind; [done|]. intros v. apply keeps_set. }
  destruct (String.eqb operator "defun").
  { apply keeps_bind; [apply keeps_lookup_function|done]. }
  destruct (String.eqb operator "mapcar").
  { destruct operands as [|func_e [|e es]]; try apply keeps_lift.
    apply keeps_bind; [done|]. intros func.
    apply keeps_bind; [by apply keeps_for_each|]. intros lists.
    destruct (forallb _ _); [apply keeps_mapcar|apply keeps_lift]. }
  apply keeps_bind; [by apply keeps_for_each|]. intros vs.
  apply keeps_bind; [apply keeps_lookup_function|done].
Qed.
End Symbols.

Lemma keeps_evaluate_call fuel :
  (∀ self e, keeps_symbols_only (Environment.evaluate_expression fuel self e)) ∧
  (∀ f args, keeps_symbols_only (Environment.call fuel f args)).
Proof.
  induction fuel as [|fuel [IHe IHc]]; [split; intros; apply keeps_lift|].
  split.
  - intros self e st r st' H. simpl in H.
    destruct e as [| | | | |[|head operands]];
      try (by repeat case_match; simplify_eq).
    { by injection H as _ <-. }
    destruct (Environment.vars st self !! _); [by simplify_eq|].
    destruct (String.eqb _ _).
    { destruct operands as [|? [|? ?]]; by simplify_eq. }
    destruct head; try by simplify_eq.
    by eapply (keeps_evaluate_function_call _ _ IHe IHc).
  - intros f args. destruct f as [self m|self name params body]; simpl.
    + by apply keeps_call_method.
    + by apply keeps_user_function.
Qed.

(** X22: the variables of the interpreter's environment are symbols,
    from the start and after every evaluation, whether it returns or
    raises, in whichever environment; so that at top level an integer
    always evaluates to itself.  In the environment of a call it need
    not: a parameter may be a number, and in the body the number then
    evaluates to the argument. *)
Theorem X22_numbers_evaluate_to_themselves_at_top_level :
  binds_symbols_only Environment.init ∧
  (∀ self e st r st',
     binds_symbols_only st → evaluates self e st r st' → binds_symbols_only st') ∧
  (∀ st z, binds_symbols_only st → evaluates 0 (VInt z) st (Ret (VInt z)) st) ∧
  (∀ st z v,
     calls (Environment.UserFunction 0 "f" [VInt z] (VInt z)) [v] st (Ret v)
       (Environment.Store
          (Environment.variables st ++ [<[KNum z 1 := v]> (Environment.vars st 0)])
          (Environment.functions st))).
Proof.
  split; [|split; [|split]].
  - split; [cbn; lia|]. intros k. unfold Environment.vars. cbn.
    intros [?|[?|?%lookup_empty_is_Some]%lookup_insert_is_Some']%lookup_insert_is_Some';
      subst; try done; eauto.
  - intros self e st r st' Hst [_ [n Hn]].
    apply (proj1 (keeps_evaluate_call n) self e st r st'); [by apply Hn|done].
  - intros st z [_ Hkeys]. apply (evaluates_intro 1); [|done]. cbn.
    destruct (Environment.vars st 0 !! KNum z 1) as [w|] eqn:Hw; [|done].
    by destruct (Hkeys (KNum z 1)) as [s Hs]; [eauto|].
  - intros st z v. apply (calls_user_function _ _ _ _ _ _ [KNum z 1]); [done..|].
    apply (evaluates_intro 1); [|done]. cbn [bind_all zip zip_with foldl fst snd].
    cbn [Environment.evaluate_expression hashable].
    by rewrite vars_child, lookup_insert_eq.
Qed.

(** Witness: the number 5 after [(define x 5)], and the call [(f 7)] of
    [(defun f (1) 1)]. *)
Lemma X22_witness :
  evaluates 0 (VInt 5) (Environment.set_variable 0 (KStr "x") (VInt 5) Environment.init)
    (Ret (VInt 5)) (Environment.set_variable 0 (KStr "x") (VInt 5) Environment.init).
Proof.
  destruct X22_numbers_evaluate_to_themselves_at_top_level as (Hinit & Hkeeps & Hint & _).
  apply Hint. apply (Hkeeps 0%nat (VList [VStr "define"; VStr "x"; VInt 5]) Environment.init
                       (Ret (VStr "x"))); [done|]. by apply (evaluates_intro 2).
Defined.

